(** * Italian text normalisation grammars (ordinal tagger, date and fraction
    verbalizers): a shallow embedding of the pynini grammars and the
    properties of their rule cascade.

    The grammars of [taggers/ordinal.py], [verbalizers/date.py] and
    [verbalizers/fraction.py] are expressions over the pynini transducer
    algebra.  A transducer is embedded by the relation it denotes, in
    executable form: the finite list of output strings it produces on a
    given input string.  Strings are byte strings (the UTF-8 encoding that
    pynini itself works on).

    Each grammar is followed up to its [graph]; the [fst] attribute wraps
    [graph] with [add_tokens] or [delete_tokens] of the base class
    [GraphFst], which belongs to another module.  What the grammars take
    from modules outside these three files (the cardinal grammar, the
    lexical tables, the accent table, the apocope and gender rewrites) is
    a parameter of the definitions below. *)

From Stdlib Require Import String Ascii List Bool Arith Lia DecimalString.

Import ListNotations.
Local Open Scope string_scope.
Local Open Scope list_scope.


(** ** Byte strings *)

Definition lit (s : string) : list ascii := list_ascii_of_string s.
Coercion lit : string >-> list.
Abbreviation str := (list ascii).

(** The double quote, written by its code (no string literal holds one). *)
Definition dq : ascii := "034"%char.

Definition str_eqb (a b : str) : bool :=
  if list_eq_dec ascii_dec a b then true else false.

Fixpoint starts_with (p x : str) : bool :=
  match p, x with
  | [], _ => true
  | a :: p', b :: x' => if ascii_dec a b then starts_with p' x' else false
  | _ :: _, [] => false
  end.

Fixpoint strip_prefix (p x : str) : option str :=
  match p, x with
  | [], _ => Some x
  | a :: p', b :: x' => if ascii_dec a b then strip_prefix p' x' else None
  | _ :: _, [] => None
  end.

(** [contains p x]: [p] occurs in [x] as a contiguous substring. *)
Fixpoint contains (p x : str) : bool :=
  starts_with p x || match x with [] => false | _ :: x' => contains p x' end.

(** All the ways of cutting [x] in two, shortest prefix first. *)
Fixpoint splits (x : str) : list (str * str) :=
  match x with
  | [] => [([], [])]
  | c :: x' => ([], x) :: map (fun p => (c :: fst p, snd p)) (splits x')
  end.

(** ** The transducer algebra (pynini)

    [Fst] is the relation of a transducer as a function from the input
    string to the list of its outputs; the empty list means that the input
    has no path.  An acceptor is a transducer that returns its input. *)

Module Pynini.

Definition Fst := str -> list str.

Definition accepts (A : Fst) (x : str) : bool :=
  match A x with [] => false | _ => true end.

(** [pynini.accep(s)] *)
Definition accep (s : str) : Fst :=
  fun x => if str_eqb x s then [s] else [].

(** [pynini.cross(A, b)]: the input side of [A] paired with the string [b]. *)
Definition cross (A : Fst) (b : str) : Fst :=
  fun x => if accepts A x then [b] else [].

(** [pynutil.delete(A)] and [pynutil.insert(b)] *)
Definition delete (A : Fst) : Fst := cross A "".
Definition insert (b : str) : Fst := cross (accep "") b.

(** [A + B] *)
Definition concat (A B : Fst) : Fst :=
  fun x =>
    flat_map (fun p => flat_map (fun y1 => map (app y1) (B (snd p))) (A (fst p)))
             (splits x).

(** [A | B] *)
Definition union (A B : Fst) : Fst := fun x => A x ++ B x.

(** [A @ B] *)
Definition compose (A B : Fst) : Fst := fun x => flat_map B (A x).

(** [pynini.closure(A, 0, 1)] *)
Definition closure01 (A : Fst) : Fst := union (accep "") A.

(** [pynini.closure(C, lo)] for a class [C] of single bytes *)
Definition closure_class (C : ascii -> bool) (lo : nat) : Fst :=
  fun x => if forallb C x && Nat.leb lo (List.length x) then [x] else [].

(** [pynini.difference(A, B)] of two acceptors *)
Definition difference (A B : Fst) : Fst :=
  fun x => if accepts B x then [] else A x.

(** [pynini.string_map(rows)] and [pynini.string_file]: one path per row. *)
Definition string_map (rows : list (str * str)) : Fst :=
  fun x => map snd (filter (fun r => str_eqb (fst r) x) rows).

(** [pynini.invert] of a string map swaps the columns. *)
Definition invert_rows (rows : list (str * str)) : list (str * str) :=
  map (fun r => (snd r, fst r)) rows.

(** [pynini.project(string_map(inputs) @ T, "output")]: the acceptor of
    everything [T] produces on one of the [inputs]. *)
Definition project_output (inputs : list str) (T : Fst) : Fst :=
  fun x => if existsb (str_eqb x) (flat_map T inputs) then [x] else [].

(** [optimize] keeps the relation. *)
Definition optimize (A : Fst) : Fst := A.

(** *** Context-dependent rewriting

    [cdrewrite] with its default arguments is the obligatory rewrite from
    left to right: it "scans and rewrites every non-overlapping match of
    the rule whose immediate left/right surface matches the supplied
    contexts, leaving non-matching regions untouched".  A match is a
    non-empty stretch of input.

    A context is a union of alternatives; an alternative is a language with
    a flag telling whether it is anchored at the string boundary ([BOS] on
    the left, [EOS] on the right). *)

Definition lang := str -> bool.
Definition context := list (bool * lang).

(** A context given by an acceptor, free or anchored at the boundary. *)
Definition in_context (A : Fst) : context := [(false, accepts A)].
Definition at_boundary (A : Fst) : context := [(true, accepts A)].

(** The contexts [""], ["[BOS]"] or ["[EOS]"], and a literal. *)
Definition any_context : context := in_context (accep "").
Definition boundary : context := at_boundary (accep "").
Definition before (s : str) : context := in_context (accep s).

(** The left context looks at what has been written so far, the right
    context at what is still to be read. *)
Definition lmatch (l : context) (done : str) : bool :=
  existsb (fun a : bool * lang => if fst a then snd a done
                    else existsb (fun p => snd a (snd p)) (splits done)) l.

Definition rmatch (r : context) (rest : str) : bool :=
  existsb (fun a : bool * lang => if fst a then snd a rest
                    else existsb (fun p => snd a (fst p)) (splits rest)) r.

(** The rewrite sites at the current position: a non-empty prefix of the
    remaining input in the domain of [tau], between matching contexts,
    with each of its images and what remains after it. *)
Definition sites (tau : Fst) (l r : context) (done rest : str)
  : list (str * str) :=
  if lmatch l done then
    flat_map (fun p =>
                match fst p with
                | [] => []
                | _ :: _ => if rmatch r (snd p)
                            then map (fun o => (o, snd p)) (tau (fst p))
                            else []
                end) (splits rest)
  else [].

(** The obligatory left-to-right scan: where a site exists one of them is
    rewritten and the scan resumes after it, elsewhere one byte is copied. *)
Fixpoint rewrite_from (n : nat) (tau : Fst) (l r : context)
         (done rest : str) : list str :=
  match n, rest with
  | _, [] => [[]]
  | 0, _ :: _ => []
  | S n', c :: rest' =>
      match sites tau l r done rest with
      | [] => map (cons c) (rewrite_from n' tau l r (done ++ [c]) rest')
      | ss => flat_map (fun s => map (app (fst s))
                                     (rewrite_from n' tau l r (done ++ fst s) (snd s)))
                       ss
      end
  end.

(** [pynini.cdrewrite(tau, l, r, NEMO_SIGMA)] *)
Definition cdrewrite (tau : Fst) (l r : context) : Fst :=
  fun x => rewrite_from (List.length x) tau l r [] x.

End Pynini.

Import Pynini.

Declare Scope fst_scope.
Delimit Scope fst_scope with fst.
Bind Scope fst_scope with Fst.
Infix "<+>" := concat (at level 60, right associativity) : fst_scope.
Infix "<|>" := union (at level 65, right associativity) : fst_scope.
Infix "@@" := compose (at level 40, left associativity) : fst_scope.
Local Open Scope fst_scope.

(** ** Shared constants and utilities

    The three grammars import their character classes and helpers from
    [en/graph_utils.py] and [it/graph_utils.py], two modules that are not
    among the three modules embedded here. *)

Module GraphUtils.

(** Modelled from the spec: [NEMO_SPACE] of [en/graph_utils.py], the
    "exactly one space" that joins two parts. *)
Definition NEMO_SPACE : Fst := accep " ".

(** Modelled from the spec: [NEMO_CHAR] of [en/graph_utils.py], one symbol
    of the alphabet. *)
Definition NEMO_CHAR : Fst := fun x => match x with [_] => [x] | _ => [] end.

(** Modelled from the spec: [NEMO_WHITE_SPACE] of [en/graph_utils.py], the
    "spaces" of space management: space, tab, line feed, carriage return
    and the no-break space (bytes 194 160). *)
Definition is_ws_byte (c : ascii) : bool :=
  existsb (Ascii.eqb c) [" "; "009"; "010"; "013"]%char.

Definition ws_head (x : str) : bool :=
  match x with
  | [] => false
  | c :: x' =>
      is_ws_byte c
      || (Ascii.eqb c "194"
          && match x' with d :: _ => Ascii.eqb d "160" | [] => false end)
  end.

(** [pynini.closure(NEMO_WHITE_SPACE)] as a language. *)
Fixpoint ws_star (x : str) : bool :=
  match x with
  | [] => true
  | c :: x' =>
      if is_ws_byte c then ws_star x'
      else match x' with
           | d :: x'' => Ascii.eqb c "194" && Ascii.eqb d "160" && ws_star x''
           | [] => false
           end
  end.

(** [pynini.closure(NEMO_WHITE_SPACE, lo)] for [lo] 0 or 1. *)
Definition closure_ws (lo : nat) : Fst :=
  fun x => if ws_star x && Nat.leb lo (List.length x) then [x] else [].

(** [has_ws x]: some white space occurs in [x]. *)
Definition has_ws (x : str) : bool :=
  existsb (fun p => ws_head (snd p)) (splits x).

(** [pynini.closure(NEMO_NOT_SPACE)] as a language. *)
Definition not_space_star : lang := fun x => negb (has_ws x).

(** Modelled from the spec: [NEMO_NOT_QUOTE] of [en/graph_utils.py], what
    the text of a field [field: "value"] is made of. *)
Definition NEMO_NOT_QUOTE (c : ascii) : bool := negb (Ascii.eqb c dq).

(** Modelled from the spec: [delete_space], [insert_space] and
    [delete_extra_space] of [en/graph_utils.py]: any white space is
    deleted, "an inserted space" is written, and parts are "joined by at
    least one space" that comes out as one. *)
Definition delete_space : Fst := delete (closure_ws 0).
Definition insert_space : Fst := insert " ".
Definition delete_extra_space : Fst := cross (closure_ws 1) " ".

(** Modelled from the spec: [strip_accent] of [it/graph_utils.py], the
    "contextual rewrite removing diacritics from vowels": the accent table
    rewritten everywhere on the output of [g]. *)
Definition strip_accent (accents : list (str * str)) (g : Fst) : Fst :=
  g @@ cdrewrite (string_map accents) any_context any_context.

(** Modelled from the spec: [strip_cardinal_apocope] and
    [shift_cardinal_gender] of [it/graph_utils.py]: "given a transducer g,
    return a new transducer g' with the rewrite composed in".  The rewrite
    itself is a parameter. *)
Definition strip_cardinal_apocope (apocope_rule : Fst) (g : Fst) : Fst :=
  g @@ apocope_rule.

Definition shift_cardinal_gender (gender_rule : Fst) (g : Fst) : Fst :=
  g @@ gender_rule.

End GraphUtils.

Import GraphUtils.

(** Python's [str] of a natural number. *)
Definition str_of_nat (n : nat) : str :=
  lit (NilEmpty.string_of_uint (Nat.to_uint n)).

(** ** [taggers/ordinal.py] *)

Module Ordinal.

(** [get_one_to_one_thousand(cardinal)] *)
Definition get_one_to_one_thousand (cardinal : Fst) : Fst :=
  optimize (project_output (map str_of_nat (seq 1 999)) cardinal).

Section OrdinalFst.

(** The cardinal grammar and the rows of the five tables under
    [data/ordinals/] (ordinal word, cardinal word), which the module
    reads from storage, and the accent table of [it/graph_utils.py]. *)
Variable cardinal_graph : Fst.
Variables digit_tsv teens_tsv twenties_tsv ties_tsv hundreds_tsv
  : list (str * str).
Variable accents : list (str * str).

Definition digit : Fst := string_map (invert_rows digit_tsv).
Definition teens : Fst := string_map (invert_rows teens_tsv).
Definition twenties : Fst := string_map (invert_rows twenties_tsv).
Definition ties : Fst := string_map (invert_rows ties_tsv).
Definition hundreds : Fst := string_map (invert_rows hundreds_tsv).

Definition graph_digit : Fst := optimize digit.
Definition graph_teens : Fst := optimize teens.
Definition graph_ties : Fst := optimize ties.
Definition graph_twenties : Fst := optimize twenties.
Definition graph_hundreds : Fst := optimize hundreds.

Definition graph_tens_component : Fst :=
  graph_teens <|> (graph_ties <+> closure01 graph_digit) <|> graph_twenties.

Definition graph_hundred_component : Fst :=
  (graph_hundreds
     <+> closure01 (NEMO_SPACE <+> (graph_tens_component <|> graph_digit)))
  <|> graph_tens_component
  <|> graph_digit.

Definition one_to_one_thousand : Fst :=
  get_one_to_one_thousand cardinal_graph.

Definition thousands : Fst := cross (accep "mille") "millesimo".

(** Lines 89-93: the cardinal prefix, a space and the thousand word;
    then the space in front of "millesimo" is deleted; then the bare
    thousand word is added. *)
Definition graph_thousands_spaced : Fst :=
  strip_accent accents one_to_one_thousand <+> NEMO_SPACE <+> thousands.

Definition graph_thousands_merged : Fst :=
  graph_thousands_spaced
    @@ cdrewrite delete_space any_context (before "millesimo").

Definition graph_thousands_prefix : Fst :=
  graph_thousands_merged <|> thousands.

Definition multiples_of_thousand : Fst :=
  optimize (cardinal_graph @@ graph_thousands_prefix).

Variable deterministic : bool.

(** Lines 97-100: the spelling that keeps the word boundary. *)
Definition graph_thousands_boundary : Fst :=
  (one_to_one_thousand @@ graph_hundred_component)
    <+> NEMO_SPACE <+> thousands.

Definition graph_thousands_series : Fst :=
  if deterministic then graph_thousands_prefix
  else graph_thousands_prefix <|> graph_thousands_boundary.

(** Line 102 *)
Definition graph_thousands : Fst :=
  graph_thousands_series
    <+> closure01 (NEMO_SPACE <+> graph_hundred_component).

(** Lines 104-105 *)
Definition ordinal_assembly : Fst :=
  cardinal_graph @@ (graph_thousands <|> graph_hundred_component).

(** Lines 107-111 *)
Definition split_words : Fst :=
  cdrewrite (cross (accep "decimo") "decimo "
             <|> cross (accep "ventesimo") "ventesimo ")
            any_context (in_context NEMO_CHAR).

Definition ordinal_split : Fst :=
  if deterministic then ordinal_assembly
  else ordinal_assembly <|> (ordinal_assembly @@ split_words).

(** Line 114: an "o" in front of "ottavo" is deleted. *)
Definition ottavo_elision : Fst :=
  cdrewrite (delete (accep "o")) any_context (before "ottavo").

(** Line 116, [self.graph] *)
Definition ordinal_graph : Fst := optimize (ordinal_split @@ ottavo_elision).

Definition masc : str := "gender_masc".
Definition fem : str := "gender_fem".
Definition apocope : str := "apocope".

Definition delete_period : Fst := closure01 (delete (accep ".")).

(** The abbreviation markers, by their UTF-8 bytes: masculine ordinal
    indicator, feminine ordinal indicator, superscript "er". *)
Definition ordinal_masc_sign : str := ["194"; "186"]%char.
Definition ordinal_fem_sign : str := ["194"; "170"]%char.
Definition ordinal_apocope_sign : str :=
  ["225"; "181"; "137"; "202"; "179"]%char.

Definition accept_masc : Fst :=
  delete_period <+> cross (accep ordinal_masc_sign) masc.
Definition accep_fem : Fst :=
  delete_period <+> cross (accep ordinal_fem_sign) fem.
Definition accep_apocope : Fst :=
  delete_period <+> cross (accep ordinal_apocope_sign) apocope.

Definition convert_abbreviation : Fst :=
  accept_masc <|> accep_fem <|> accep_apocope.

(** Lines 131-138 *)
Definition graph : Fst :=
  insert ("integer: " ++ [dq])
  <+> ordinal_graph
  <+> insert [dq]
  <+> insert (" morphosyntactic_features: " ++ [dq])
  <+> convert_abbreviation
  <+> insert [dq].

End OrdinalFst.

End Ordinal.

(** ** [verbalizers/date.py] *)

Module Date.

Section DateFst.

(** The contextual rewrite of [strip_cardinal_apocope]. *)
Variable apocope_rule : Fst.
Variable deterministic : bool.

Definition day_cardinal : Fst :=
  delete (accep ("day: " ++ [dq]))
  <+> closure_class NEMO_NOT_QUOTE 1
  <+> delete (accep [dq]).

(** Line 52 *)
Definition day_stripped : Fst :=
  strip_cardinal_apocope apocope_rule day_cardinal.

Definition primero : Fst :=
  cdrewrite (cross (accep "uno") "primo") boundary boundary.

(** Lines 57-61 *)
Definition day : Fst :=
  if deterministic then day_stripped @@ primero
  else day_stripped <|> (day_stripped @@ primero).

Definition month : Fst :=
  delete (accep "month:")
  <+> delete_space
  <+> delete (accep [dq])
  <+> closure_class NEMO_NOT_QUOTE 1
  <+> delete (accep [dq]).

Definition year : Fst :=
  delete (accep "year:")
  <+> delete_space
  <+> delete (accep [dq])
  <+> closure_class NEMO_NOT_QUOTE 1
  <+> delete_space
  <+> delete (accep [dq]).

Definition graph_dmy : Fst :=
  day
  <+> closure01 (delete_extra_space <+> month)
  <+> closure01 (delete_extra_space <+> year).

Definition preserve_order : str := " preserve_order: true".

(** Lines 87-93 *)
Definition graph_mdy : Fst :=
  let mdy := month <+> NEMO_SPACE <+> day <+> closure01 (NEMO_SPACE <+> year) in
  if deterministic then mdy <+> delete (accep preserve_order) else mdy.

Definition graph : Fst := graph_dmy <|> graph_mdy.

End DateFst.

End Date.

(** ** [verbalizers/fraction.py] *)

Module Fraction.

(** [pynini.closure(NEMO_NOT_SPACE)] as an acceptor. *)
Definition closure_not_space : Fst :=
  fun x => if not_space_star x then [x] else [].

Section FractionFst.

(** The accent table and the contextual rewrites of
    [strip_cardinal_apocope] and [shift_cardinal_gender]. *)
Variable accents : list (str * str).
Variable apocope_rule : Fst.
Variable gender_rule : Fst.

Definition plural : Fst := delete (accep "o") <+> insert "i".
Definition conjunction : Fst := insert " e ".

Definition integer : Fst :=
  delete (accep ("integer_part: " ++ [dq]))
  <+> strip_cardinal_apocope apocope_rule (closure_class NEMO_NOT_QUOTE 0)
  <+> delete (accep [dq]).

Definition numerator_one : Fst :=
  delete (accep ("numerator: " ++ [dq]))
  <+> accep "un"
  <+> delete (accep (dq :: " ")).

Definition numerator : Fst :=
  delete (accep ("numerator: " ++ [dq]))
  <+> difference (closure_class NEMO_NOT_QUOTE 0) (accep "un")
  <+> delete (accep (dq :: " ")).

Definition features (tag : str) : str :=
  dq :: " morphosyntactic_features: " ++ dq :: tag ++ [dq].

Definition denominator_add_stem : Fst :=
  delete (accep ("denominator: " ++ [dq]))
  <+> (closure_class NEMO_NOT_QUOTE 0 <+> delete (accep (features "add_root"))).

Definition denominator_ordinal : Fst :=
  delete (accep ("denominator: " ++ [dq]))
  <+> (closure_class NEMO_NOT_QUOTE 0 <+> delete (accep (features "ordinal"))).

Definition denominator_cardinal : Fst :=
  delete (accep ("denominator: " ++ [dq]))
  <+> (closure_class NEMO_NOT_QUOTE 0 <+> delete (accep [dq])).

Definition denominator_singular : Fst :=
  denominator_add_stem <|> denominator_ordinal.

Definition denominator_plural : Fst := denominator_singular <+> plural.

(** Lines 80-83: the two rewrites of [merge]. *)
Definition merge_conjunction : Fst :=
  cdrewrite (cross (accep " e ") "i") any_context any_context.

Definition merge_spaces : Fst :=
  cdrewrite delete_space any_context
            (in_context (difference NEMO_CHAR (accep "parte"))).

Definition merge : Fst := merge_conjunction @@ merge_spaces.

(** Lines 86-87 *)
Definition delete_duplicates : Fst :=
  cdrewrite (string_map [(lit "aa", lit "a"); (lit "oo", lit "o")])
            any_context any_context.

(** Lines 89-94 *)
Definition remove_accents : Fst :=
  cdrewrite (string_map accents)
            (in_context (NEMO_SPACE <+> closure_not_space)
               ++ at_boundary closure_not_space)
            (in_context (closure_not_space
                           <+> (accep "esimo" <|> accep "esima"))).

Definition merge_into_single_word : Fst :=
  merge @@ remove_accents @@ delete_duplicates.

Definition fraction_default : Fst :=
  numerator <+> delete_space <+> insert_space
  <+> (denominator_plural @@ merge_into_single_word).

(** Lines 99-101, before the rewrite of lines 108-110. *)
Definition fraction_with_one_plain : Fst :=
  numerator_one <+> delete_space <+> insert_space
  <+> (denominator_singular @@ merge_into_single_word).

Definition fraction_with_cardinal : Fst :=
  strip_cardinal_apocope apocope_rule (numerator <|> numerator_one)
  <+> (delete_space <+> insert " fratto "
       <+> strip_cardinal_apocope apocope_rule denominator_cardinal).

(** Lines 108-110 *)
Definition fraction_with_one : Fst :=
  fraction_with_one_plain
    @@ cdrewrite (cross (accep "un mezzo") "mezzo") any_context any_context.

Definition fraction : Fst :=
  fraction_with_one <|> fraction_default <|> fraction_with_cardinal.

Definition graph_masc : Fst :=
  closure01 (integer <+> delete_space <+> conjunction) <+> fraction.

Definition integer_fem : Fst := shift_cardinal_gender gender_rule integer.

(** Lines 117-122: the branch added to [fraction_default]. *)
Definition fraction_default_fem_branch : Fst :=
  shift_cardinal_gender gender_rule numerator
  <+> delete_space <+> insert_space
  <+> (denominator_plural @@ cross (accep "mezzo") "mezza").

Definition fraction_default_fem : Fst :=
  fraction_default <|> fraction_default_fem_branch.

(** Lines 123-125: the branch added to [fraction_with_one]. *)
Definition fraction_with_one_fem_branch : Fst :=
  delete numerator_one <+> delete_space
  <+> (denominator_singular @@ cross (accep "mezzo") "mezza").

Definition fraction_with_one_fem : Fst :=
  fraction_with_one <|> fraction_with_one_fem_branch.

Definition fraction_fem : Fst :=
  fraction_with_one_fem <|> fraction_default_fem <|> fraction_with_cardinal.

Definition graph_fem : Fst :=
  closure01 (integer_fem <+> delete_space <+> conjunction) <+> fraction_fem.

Definition graph : Fst := graph_masc <|> graph_fem.

End FractionFst.

End Fraction.

(** ** A sample lexicon

    A few rows of the lexical tables and of the cardinal grammar, enough to
    run the grammars on concrete inputs. *)

Module Sample.

Definition accents : list (str * str) :=
  [ (["195"; "160"]%char, lit "a"); (["195"; "168"]%char, lit "e");
    (["195"; "169"]%char, lit "e"); (["195"; "172"]%char, lit "i");
    (["195"; "178"]%char, lit "o"); (["195"; "185"]%char, lit "u") ].

Definition digit_tsv : list (str * str) :=
  [ (lit "primo", lit "uno"); (lit "secondo", lit "due");
    (lit "terzo", lit "tre"); (lit "ottavo", lit "otto") ].
Definition teens_tsv : list (str * str) :=
  [ (lit "decimo", lit "dieci"); (lit "undicesimo", lit "undici") ].
Definition twenties_tsv : list (str * str) :=
  [ (lit "ventunesimo", lit "ventuno") ].
Definition ties_tsv : list (str * str) :=
  [ (lit "ventesimo", lit "venti"); (lit "trentesimo", lit "trenta") ].
Definition hundreds_tsv : list (str * str) :=
  [ (lit "centesimo", lit "cento") ].

Definition cardinal_rows : list (str * str) :=
  [ (lit "1", lit "uno"); (lit "2", lit "due"); (lit "3", lit "tre");
    (lit "8", lit "otto"); (lit "10", lit "dieci");
    (lit "20", lit "venti"); (lit "21", lit "ventuno");
    (lit "28", lit "ventiotto");
    (lit "23", "ventitr" ++ ["195"; "169"]%char);
    (lit "100", lit "cento"); (lit "1000", lit "mille");
    (lit "2000", lit "due mille"); (lit "2008", lit "due mille otto") ].

Definition cardinal_graph : Fst := string_map cardinal_rows.

(** The deterministic ordinal grammar over the sample lexicon, and its
    outputs on every digit-string the sample cardinal grammar reads. *)
Abbreviation ordinal_graph :=
  (Ordinal.ordinal_graph cardinal_graph digit_tsv teens_tsv twenties_tsv
                         ties_tsv hundreds_tsv accents true).

Abbreviation graph :=
  (Ordinal.graph cardinal_graph digit_tsv teens_tsv twenties_tsv
                 ties_tsv hundreds_tsv accents true).





End Sample.

(** ** Tokens

    The text of a field between double quotes, and the serialised date
    token [day: ".." month: ".." year: ".."] that the verbalizer reads. *)

Definition quoted (v : str) : str := dq :: v ++ [dq].

Definition date_token (d m y : str) : str :=
  "day: " ++ quoted d ++ " month: " ++ quoted m ++ " year: " ++ quoted y.

(** The serialised fraction token with a tagged denominator,
    [numerator: ".." denominator: ".." morphosyntactic_features: ".."],
    and with a bare cardinal denominator. *)
Definition fraction_token (n d tag : str) : str :=
  "numerator: " ++ quoted n ++ " denominator: " ++ dq :: d
    ++ Fraction.features tag.

Definition fraction_token_cardinal (n d : str) : str :=
  "numerator: " ++ quoted n ++ " denominator: " ++ quoted d.

(** The tagged token written for an ordinal text and a feature. *)
Definition ordinal_token (o f : str) : str :=
  "integer: " ++ quoted o ++ " morphosyntactic_features: " ++ quoted f.

(** [ends_with_ws y]: [y] ends with a non-empty run of white space. *)
Definition ends_with_ws (y : str) : bool :=
  existsb (fun p => match snd p with [] => false | _ :: _ => ws_star (snd p) end)
          (splits y).

(** ** The apocope and gender rules, as the specification describes them *)

Module Apocope.

(** Modelled from the spec: the rewrite of [strip_cardinal_apocope], which
    lives in [it/graph_utils.py], outside the three modules embedded here.
    The specification describes it as the "contextual rewrite that deletes
    a word-final vowel from specific cardinal spellings (e.g. trims "uno"
    to "un", "ventuno" to "ventun") when that cardinal is used
    attributively before a noun-like continuation": a final "uno" in front
    of a space and a further symbol loses its "o". *)
Definition rule : Fst :=
  cdrewrite (cross (accep "uno") "un") any_context
            (in_context (NEMO_SPACE <+> NEMO_CHAR)).

End Apocope.

Module Gender.

(** Modelled from the spec: the rewrite of [shift_cardinal_gender], which
    lives in [it/graph_utils.py], outside the three modules embedded here.
    The specification describes it as the "contextual rewrite producing
    the feminine surface alternation of a cardinal/ordinal ending
    (principally the terminal vowel flip "o" to "a")". *)
Definition rule : Fst :=
  cdrewrite (cross (accep "o") "a") any_context boundary.

End Gender.

(** ** The elision in front of "ottavo", as the specification words it

    "A preceding vowel must be dropped": every "o" that stands immediately
    in front of "ottavo" is left out, everything else is kept. *)

Fixpoint drop_o_before_ottavo (s : str) : str :=
  match s with
  | [] => []
  | c :: r =>
      if Ascii.eqb c "o" && starts_with "ottavo" r
      then drop_o_before_ottavo r
      else c :: drop_o_before_ottavo r
  end.

(** [space_inside s]: some space of [s] is followed by a further symbol. *)
Fixpoint space_inside (s : str) : bool :=
  match s with
  | c :: (_ :: _) as r => Ascii.eqb c " " || space_inside r
  | _ => false
  end.

(** [space_free_rows rows]: no replacement of the table holds a space. *)
Definition space_free_rows (rows : list (str * str)) : bool :=
  forallb (fun r => negb (existsb (Ascii.eqb " ") (snd r))) rows.

(** [outs] holds the string [y] and nothing else: exactly one output. *)
Definition yields (outs : list str) (y : str) : Prop :=
  forall z, In z outs <-> z = y.

(** The relation of the left-to-right scan of [cdrewrite]: the state is
    what has been written and what remains to be read. *)
Inductive Rewrites (tau : Fst) (l r : context) : str -> str -> str -> Prop :=
| rw_end : forall done, Rewrites tau l r done [] []
| rw_site : forall done rest o rem y,
    In (o, rem) (sites tau l r done rest) ->
    Rewrites tau l r (done ++ o) rem y ->
    Rewrites tau l r done rest (o ++ y)
| rw_copy : forall done c rest y,
    sites tau l r done (c :: rest) = [] ->
    Rewrites tau l r (done ++ [c]) rest y ->
    Rewrites tau l r done (c :: rest) (c :: y).

(** ** Further tokens *)

(** The fields of the date token, and the token with any white space
    between its fields and behind the keys of the month and of the year. *)
Definition day_field (d : str) : str := "day: " ++ quoted d.
Definition month_field (v m : str) : str := "month:" ++ v ++ quoted m.
Definition year_field (v y : str) : str := "year:" ++ v ++ quoted y.

Definition date_token_spaced (d w1 v1 m w2 v2 y : str) : str :=
  day_field d ++ w1 ++ month_field v1 m ++ w2 ++ year_field v2 y.

(** The date token in month-day-year order, with the strings [s1] and [s2]
    between its fields. *)
Definition date_token_mdy (v1 m s1 d s2 v2 y : str) : str :=
  month_field v1 m ++ s1 ++ day_field d ++ s2 ++ year_field v2 y.

(** The serialised integer part in front of a fraction token. *)
Definition integer_field (i : str) : str := "integer_part: " ++ quoted i.

(** A text without its spaces. *)
Definition without_spaces (s : str) : str :=
  filter (fun c => negb (Ascii.eqb c " ")) s.

(** * Properties *)

(** ** Byte strings *)

Lemma str_eqb_eq (a b : str) : str_eqb a b = true <-> a = b.
Proof.
  unfold str_eqb. destruct (list_eq_dec ascii_dec a b); split; congruence.
Qed.

Lemma str_eqb_refl (a : str) : str_eqb a a = true.
Proof. apply str_eqb_eq. reflexivity. Qed.

Lemma str_eqb_neq (a b : str) : str_eqb a b = false <-> a <> b.
Proof.
  unfold str_eqb. destruct (list_eq_dec ascii_dec a b); split; congruence.
Qed.

Lemma strip_prefix_spec (p x r : str) : strip_prefix p x = Some r <-> x = p ++ r.
Proof.
  revert x. induction p as [|a p IH]; intros x; simpl.
  - split; congruence.
  - destruct x as [|b x].
    + split; discriminate.
    + destruct (ascii_dec a b) as [->|Hne].
      * rewrite IH. split; congruence.
      * split; [discriminate | intros H; injection H; congruence].
Qed.

Lemma starts_with_spec (p x : str) :
  starts_with p x = true <-> exists r, x = p ++ r.
Proof.
  revert x. induction p as [|a p IH]; intros x; simpl.
  - split; eauto.
  - destruct x as [|b x].
    + split; [discriminate | intros [r H]; discriminate].
    + destruct (ascii_dec a b) as [->|Hne].
      * rewrite IH. split; intros [r H]; exists r; congruence.
      * split; [discriminate | intros [r H]; injection H; congruence].
Qed.

Lemma starts_with_app (p r : str) : starts_with p (p ++ r) = true.
Proof. apply starts_with_spec. eauto. Qed.

Lemma splits_spec (x a b : str) : In (a, b) (splits x) <-> x = a ++ b.
Proof.
  revert a b. induction x as [|c x IH]; intros a b; simpl.
  - split.
    + intros [H|[]]. injection H as <- <-. reflexivity.
    + intros H. symmetry in H. apply app_eq_nil in H as [-> ->]. auto.
  - split.
    + intros [H|H].
      * injection H as <- <-. reflexivity.
      * apply in_map_iff in H as [[a' b'] [H1 H2]]. simpl in H1.
        injection H1 as <- <-. apply IH in H2. simpl. congruence.
    + intros H. destruct a as [|c' a]; simpl in H.
      * left. congruence.
      * injection H as <- ->. right. apply in_map_iff.
        exists (a, b). split; [reflexivity | apply IH; reflexivity].
Qed.

Lemma contains_spec (p x : str) :
  contains p x = true <-> exists u v, x = u ++ p ++ v.
Proof.
  induction x as [|c x IH].
  - simpl. rewrite orb_false_r, starts_with_spec. split.
    + intros [r H]. exists [], r. exact H.
    + intros [u [v H]]. destruct u; simpl in H; eauto. discriminate.
  - change (contains p (c :: x))
      with (starts_with p (c :: x) || contains p x).
    rewrite orb_true_iff, starts_with_spec, IH. split.
    + intros [[r H]|[u [v H]]].
      * exists [], r. exact H.
      * exists (c :: u), v. simpl. congruence.
    + intros [u [v H]]. destruct u as [|c' u]; simpl in H.
      * left. eauto.
      * right. injection H as _ H. eauto.
Qed.

Lemma contains_false (p x : str) :
  contains p x = false <-> forall u v, x <> u ++ p ++ v.
Proof.
  split.
  - intros H u v E. assert (C : contains p x = true)
      by (apply contains_spec; eauto). congruence.
  - intros H. destruct (contains p x) eqn:C; [|reflexivity].
    apply contains_spec in C as [u [v E]]. destruct (H u v E).
Qed.

(** ** The transducer algebra *)

Lemma accepts_true (A : Fst) (x : str) :
  accepts A x = true <-> exists y, In y (A x).
Proof.
  unfold accepts. destruct (A x) as [|y l]; split.
  - discriminate.
  - intros [y []].
  - intros _. exists y. left. reflexivity.
  - reflexivity.
Qed.

Lemma accepts_false (A : Fst) (x : str) : accepts A x = false <-> A x = [].
Proof. unfold accepts. destruct (A x); split; congruence. Qed.

Lemma in_accep (s x y : str) : In y (accep s x) <-> x = s /\ y = s.
Proof.
  unfold accep. destruct (str_eqb x s) eqn:E.
  - apply str_eqb_eq in E. simpl. intuition congruence.
  - apply str_eqb_neq in E. simpl. intuition congruence.
Qed.

Lemma accepts_accep (s x : str) : accepts (accep s) x = str_eqb x s.
Proof. unfold accepts, accep. destruct (str_eqb x s); reflexivity. Qed.

Lemma in_cross (A : Fst) (b x y : str) :
  In y (cross A b x) <-> accepts A x = true /\ y = b.
Proof.
  unfold cross. destruct (accepts A x); simpl; intuition congruence.
Qed.

Lemma in_delete (A : Fst) (x y : str) :
  In y (delete A x) <-> accepts A x = true /\ y = [].
Proof. apply in_cross. Qed.

Lemma in_delete_lit (s x y : str) :
  In y (delete (accep s) x) <-> x = s /\ y = [].
Proof. rewrite in_delete, accepts_accep, str_eqb_eq. reflexivity. Qed.

Lemma in_cross_lit (a b x y : str) :
  In y (cross (accep a) b x) <-> x = a /\ y = b.
Proof. rewrite in_cross, accepts_accep, str_eqb_eq. reflexivity. Qed.

Lemma in_insert (b x y : str) : In y (insert b x) <-> x = [] /\ y = b.
Proof. unfold insert. apply in_cross_lit. Qed.

Lemma in_concat (A B : Fst) (x y : str) :
  In y ((A <+> B) x) <->
  exists x1 x2 y1 y2,
    x = x1 ++ x2 /\ y = y1 ++ y2 /\ In y1 (A x1) /\ In y2 (B x2).
Proof.
  unfold concat. rewrite in_flat_map. split.
  - intros [[x1 x2] [Hs H]]. apply splits_spec in Hs. simpl in H.
    apply in_flat_map in H as [y1 [H1 H]].
    apply in_map_iff in H as [y2 [<- H2]].
    exists x1, x2, y1, y2. auto.
  - intros [x1 [x2 [y1 [y2 [-> [-> [H1 H2]]]]]]].
    exists (x1, x2). split; [apply splits_spec; reflexivity|].
    simpl. apply in_flat_map. exists y1. split; [exact H1|].
    apply in_map. exact H2.
Qed.

(** Concatenation is associative: a chain [A + B + C] of the source may
    be read from the right. *)
Lemma concat_assoc (A B C : Fst) (x y : str) :
  In y (((A <+> B) <+> C) x) <-> In y ((A <+> (B <+> C)) x).
Proof.
  rewrite !in_concat. split.
  - intros [x12 [x3 [y12 [y3 [-> [-> [H12 H3]]]]]]].
    apply in_concat in H12 as [x1 [x2 [y1 [y2 [-> [-> [H1 H2]]]]]]].
    exists x1, (x2 ++ x3), y1, (y2 ++ y3). rewrite <- !app_assoc.
    split; [reflexivity|]. split; [reflexivity|]. split; [exact H1|].
    apply in_concat. exists x2, x3, y2, y3. auto.
  - intros [x1 [x23 [y1 [y23 [-> [-> [H1 H23]]]]]]].
    apply in_concat in H23 as [x2 [x3 [y2 [y3 [-> [-> [H2 H3]]]]]]].
    exists (x1 ++ x2), x3, (y1 ++ y2), y3. rewrite !app_assoc.
    split; [reflexivity|]. split; [reflexivity|]. split; [|exact H3].
    apply in_concat. exists x1, x2, y1, y2. auto.
Qed.

Lemma in_union (A B : Fst) (x y : str) :
  In y ((A <|> B) x) <-> In y (A x) \/ In y (B x).
Proof. unfold union. apply in_app_iff. Qed.

Lemma in_compose (A B : Fst) (x y : str) :
  In y ((A @@ B) x) <-> exists m, In m (A x) /\ In y (B m).
Proof. unfold compose. apply in_flat_map. Qed.

Lemma in_closure01 (A : Fst) (x y : str) :
  In y (closure01 A x) <-> (x = [] /\ y = []) \/ In y (A x).
Proof.
  unfold closure01. rewrite in_union, in_accep. reflexivity.
Qed.

Lemma in_closure_class (C : ascii -> bool) (lo : nat) (x y : str) :
  In y (closure_class C lo x) <->
  forallb C x = true /\ lo <= List.length x /\ y = x.
Proof.
  unfold closure_class.
  destruct (forallb C x) eqn:E1; simpl;
    [destruct (Nat.leb lo (List.length x)) eqn:E2; simpl|].
  - apply Nat.leb_le in E2. intuition congruence.
  - apply Nat.leb_gt in E2. split; [tauto|]. intros [_ [H _]]. lia.
  - split; [tauto|]. intros [H _]. discriminate.
Qed.

Lemma in_difference (A B : Fst) (x y : str) :
  In y (difference A B x) <-> accepts B x = false /\ In y (A x).
Proof.
  unfold difference. destruct (accepts B x); simpl; intuition congruence.
Qed.

Lemma in_string_map (rows : list (str * str)) (x y : str) :
  In y (string_map rows x) <-> In (x, y) rows.
Proof.
  unfold string_map. rewrite in_map_iff. split.
  - intros [[a b] [<- H]]. apply filter_In in H as [H E]. simpl in *.
    apply str_eqb_eq in E. subst. exact H.
  - intros H. exists (x, y). split; [reflexivity|].
    apply filter_In. split; [exact H | apply str_eqb_refl].
Qed.

Lemma in_invert_rows (rows : list (str * str)) (a b : str) :
  In (a, b) (invert_rows rows) <-> In (b, a) rows.
Proof.
  unfold invert_rows. rewrite in_map_iff. split.
  - intros [[u v] [E H]]. simpl in E. injection E as <- <-. exact H.
  - intros H. exists (b, a). auto.
Qed.

Lemma in_project_output (inputs : list str) (T : Fst) (x y : str) :
  In y (project_output inputs T x) <->
  y = x /\ exists i, In i inputs /\ In x (T i).
Proof.
  unfold project_output.
  destruct (existsb (str_eqb x) (flat_map T inputs)) eqn:E.
  - apply existsb_exists in E as [x' [H E]]. apply str_eqb_eq in E. subst x'.
    apply in_flat_map in H. simpl. intuition congruence.
  - split; [intros []|]. intros [_ [i [Hi Hx]]].
    assert (existsb (str_eqb x) (flat_map T inputs) = true).
    { apply existsb_exists. exists x. split; [|apply str_eqb_refl].
      apply in_flat_map. eauto. }
    congruence.
Qed.

(** ** Context-dependent rewriting *)

Section Rewriting.

Variable tau : Fst.
Variables l r : context.

Lemma rewrites_inv (done rest y : str) :
  Rewrites tau l r done rest y ->
  (rest = [] /\ y = [])
  \/ (exists o rem y', In (o, rem) (sites tau l r done rest)
                       /\ Rewrites tau l r (done ++ o) rem y'
                       /\ y = o ++ y')
  \/ (exists c rest' y', rest = c :: rest'
                         /\ sites tau l r done rest = []
                         /\ Rewrites tau l r (done ++ [c]) rest' y'
                         /\ y = c :: y').
Proof.
  intros H. destruct H as [done|done rest o rem y Hs H|done c rest y Hs H].
  - left. auto.
  - right. left. exists o, rem, y. auto.
  - right. right. exists c, rest, y. auto.
Qed.

Lemma in_sites (done rest o rem : str) :
  In (o, rem) (sites tau l r done rest) <->
  lmatch l done = true /\
  exists m, m <> [] /\ rest = m ++ rem /\ rmatch r rem = true /\ In o (tau m).
Proof.
  unfold sites. destruct (lmatch l done); [|simpl; intuition congruence].
  rewrite in_flat_map. split.
  - intros [[m rem'] [Hs H]]. apply splits_spec in Hs. simpl in H.
    destruct m as [|c m]; [destruct H|].
    destruct (rmatch r rem') eqn:Er; [|destruct H].
    apply in_map_iff in H as [o' [E Ho]]. injection E as -> ->.
    split; [reflexivity|]. exists (c :: m). repeat split; auto. discriminate.
  - intros [_ [m [Hm [-> [Hr Ho]]]]]. exists (m, rem).
    split; [apply splits_spec; reflexivity|]. simpl.
    destruct m; [congruence|]. rewrite Hr. apply in_map_iff. eauto.
Qed.

Lemma sites_shorter (done rest o rem : str) :
  In (o, rem) (sites tau l r done rest) ->
  List.length rem < List.length rest.
Proof.
  intros H. apply in_sites in H as [_ [m [Hm [-> _]]]].
  rewrite length_app. destruct m; [congruence|]. simpl. lia.
Qed.

Lemma no_site_nil (done : str) : sites tau l r done [] = [].
Proof.
  destruct (sites tau l r done []) as [|[o rem] ss] eqn:E; [reflexivity|].
  assert (H : In (o, rem) (sites tau l r done [])) by (rewrite E; left; auto).
  apply sites_shorter in H. simpl in H. lia.
Qed.

Lemma rewrites_nil (done y : str) : Rewrites tau l r done [] y <-> y = [].
Proof.
  split.
  - intros H. apply rewrites_inv in H
      as [[_ ->]|[[o [rem [y' [Hs _]]]]|[c [rest' [y' [E _]]]]]].
    + reflexivity.
    + rewrite no_site_nil in Hs. destruct Hs.
    + discriminate.
  - intros ->. constructor.
Qed.

(** The scan with enough fuel computes the relation [Rewrites]. *)
Lemma in_rewrite_from (n : nat) (done rest y : str) :
  List.length rest <= n ->
  (In y (rewrite_from n tau l r done rest) <-> Rewrites tau l r done rest y).
Proof.
  revert done rest y.
  induction n as [|n IH]; intros done rest y Hn.
  - destruct rest; [|simpl in Hn; lia]. simpl. rewrite rewrites_nil.
    intuition congruence.
  - destruct rest as [|c rest].
    + simpl. rewrite rewrites_nil. intuition congruence.
    + simpl in Hn. cbn [rewrite_from].
      destruct (sites tau l r done (c :: rest)) as [|s ss] eqn:E.
      * rewrite in_map_iff. split.
        -- intros [y' [<- H]]. apply IH in H; [|lia].
           apply rw_copy; assumption.
        -- intros H. apply rewrites_inv in H
             as [[E' _]|[[o [rem [y' [Hs _]]]]|[c' [rest' [y' [E' [_ [H ->]]]]]]]].
           ++ discriminate.
           ++ rewrite E in Hs. destruct Hs.
           ++ injection E' as <- <-. exists y'. split; [reflexivity|].
              apply IH; [lia|assumption].
      * rewrite <- E. rewrite in_flat_map. split.
        -- intros [[o rem] [Hs H]]. simpl in H.
           apply in_map_iff in H as [y' [<- H]].
           apply IH in H; [|apply sites_shorter in Hs; simpl in Hs; lia].
           eapply rw_site; eassumption.
        -- intros H. apply rewrites_inv in H
             as [[E' _]|[[o [rem [y' [Hs [H ->]]]]]|[c' [rest' [y' [_ [E' _]]]]]]].
           ++ discriminate.
           ++ exists (o, rem). split; [assumption|]. simpl.
              apply in_map. apply IH; [|assumption].
              apply sites_shorter in Hs. simpl in Hs. lia.
           ++ rewrite E in E'. discriminate.
Qed.

Lemma in_cdrewrite (x y : str) :
  In y (cdrewrite tau l r x) <-> Rewrites tau l r [] x y.
Proof. unfold cdrewrite. apply in_rewrite_from. lia. Qed.

(** Every input has an output: the scan never blocks. *)
Lemma rewrites_total (rest done : str) : exists y, Rewrites tau l r done rest y.
Proof.
  remember (List.length rest) as n eqn:Hn. revert rest done Hn.
  induction n as [n IH] using lt_wf_ind. intros rest done Hn.
  destruct rest as [|c rest]; [exists []; constructor|].
  destruct (sites tau l r done (c :: rest)) as [|[o rem] ss] eqn:E.
  - destruct (IH (List.length rest)) with (rest := rest) (done := done ++ [c])
      as [y Hy]; [simpl in Hn; lia | reflexivity |].
    exists (c :: y). apply rw_copy; assumption.
  - assert (Hs : In (o, rem) (sites tau l r done (c :: rest)))
      by (rewrite E; left; reflexivity).
    destruct (IH (List.length rem)) with (rest := rem) (done := done ++ o)
      as [y Hy]; [apply sites_shorter in Hs; lia | reflexivity |].
    exists (o ++ y). eapply rw_site; eassumption.
Qed.

(** A stretch of input without any site is copied. *)
Lemma rewrites_copy_prefix (u v done y : str) :
  (forall u1 u2, u = u1 ++ u2 -> u2 <> [] ->
                 sites tau l r (done ++ u1) (u2 ++ v) = []) ->
  (Rewrites tau l r done (u ++ v) y <->
   exists y', y = u ++ y' /\ Rewrites tau l r (done ++ u) v y').
Proof.
  revert done y. induction u as [|c u IH]; intros done y Hno.
  - simpl. rewrite app_nil_r. split; [eauto|]. intros [y' [-> H]]. exact H.
  - assert (E : sites tau l r done ((c :: u) ++ v) = []).
    { specialize (Hno [] (c :: u) eq_refl). rewrite app_nil_r in Hno.
      apply Hno. discriminate. }
    assert (Hno' : forall u1 u2, u = u1 ++ u2 -> u2 <> [] ->
              sites tau l r ((done ++ [c]) ++ u1) (u2 ++ v) = []).
    { intros u1 u2 -> H2. rewrite <- app_assoc. simpl.
      apply (Hno (c :: u1) u2); auto. }
    split.
    + intros H. apply rewrites_inv in H
        as [[E' _]|[[o [rem [y' [Hs _]]]]|[c' [rest' [y' [E' [_ [H ->]]]]]]]].
      * discriminate.
      * rewrite E in Hs. destruct Hs.
      * simpl in E'. injection E' as <- <-.
        apply (IH _ _ Hno') in H as [y'' [-> H']].
        exists y''. split; [reflexivity|].
        rewrite <- app_assoc in H'. exact H'.
    + intros [y' [-> H]]. simpl. apply rw_copy; [exact E|].
      apply (IH _ _ Hno'). exists y'. split; [reflexivity|].
      rewrite <- app_assoc. exact H.
Qed.

(** An input without any site is its own and only output. *)
Lemma rewrites_copy (x done : str) :
  (forall u1 u2, x = u1 ++ u2 -> u2 <> [] ->
                 sites tau l r (done ++ u1) u2 = []) ->
  forall y, Rewrites tau l r done x y <-> y = x.
Proof.
  intros Hno y.
  rewrite <- (app_nil_r x) at 1. rewrite rewrites_copy_prefix.
  - split.
    + intros [y' [-> H]]. apply rewrites_nil in H. subst.
      apply app_nil_r.
    + intros ->. exists []. rewrite app_nil_r. split; [reflexivity|].
      constructor.
  - intros u1 u2 E H2. rewrite app_nil_r. auto.
Qed.

End Rewriting.

(** Contexts *)

Lemma lmatch_any (done : str) : lmatch any_context done = true.
Proof.
  unfold lmatch, any_context, in_context. simpl. rewrite orb_false_r.
  apply existsb_exists. exists (done, []). split.
  - apply splits_spec. symmetry. apply app_nil_r.
  - simpl. rewrite accepts_accep. reflexivity.
Qed.

Lemma rmatch_in_context (A : Fst) (rest : str) :
  rmatch (in_context A) rest = true <->
  exists u v, rest = u ++ v /\ accepts A u = true.
Proof.
  unfold rmatch, in_context. simpl. rewrite orb_false_r, existsb_exists. split.
  - intros [[u v] [Hs H]]. apply splits_spec in Hs. eauto.
  - intros [u [v [-> H]]]. exists (u, v). split; [|exact H].
    apply splits_spec. reflexivity.
Qed.

Lemma rmatch_any (rest : str) : rmatch any_context rest = true.
Proof.
  apply rmatch_in_context. exists [], rest. split; [reflexivity|].
  rewrite accepts_accep. reflexivity.
Qed.

Lemma rmatch_before (s rest : str) :
  rmatch (before s) rest = true <-> exists v, rest = s ++ v.
Proof.
  unfold before. rewrite rmatch_in_context. split.
  - intros [u [v [-> H]]]. rewrite accepts_accep in H.
    apply str_eqb_eq in H. subst. eauto.
  - intros [v ->]. exists s, v. split; [reflexivity|].
    rewrite accepts_accep. apply str_eqb_refl.
Qed.

Lemma lmatch_boundary (done : str) : lmatch boundary done = true <-> done = [].
Proof.
  unfold lmatch, boundary, at_boundary. simpl.
  rewrite orb_false_r, accepts_accep. apply str_eqb_eq.
Qed.

Lemma rmatch_boundary (rest : str) : rmatch boundary rest = true <-> rest = [].
Proof.
  unfold rmatch, boundary, at_boundary. simpl.
  rewrite orb_false_r, accepts_accep. apply str_eqb_eq.
Qed.

Lemma sites_empty (tau : Fst) (l r : context) (done rest : str) :
  (forall o rem, ~ In (o, rem) (sites tau l r done rest)) ->
  sites tau l r done rest = [].
Proof.
  intros H. destruct (sites tau l r done rest) as [|[o rem] ss]; [reflexivity|].
  destruct (H o rem). left. reflexivity.
Qed.

(** ** The date verbalizer *)

(** [primero] rewrites the string "uno" and no other string. *)
Lemma primero_spec (s : str) :
  yields (Date.primero s) (if str_eqb s "uno" then "primo" else s).
Proof.
  intros y. unfold Date.primero. rewrite in_cdrewrite.
  destruct (str_eqb s "uno") eqn:E.
  - apply str_eqb_eq in E. subst s.
    assert (Hs : In (lit "primo", []) (sites (cross (accep "uno") "primo")
                                          boundary boundary [] "uno")).
    { apply in_sites. split; [reflexivity|]. exists (lit "uno").
      repeat split; try discriminate. apply in_cross_lit. auto. }
    split.
    + intros H. apply rewrites_inv in H
        as [[E _]|[[o [rem [y' [Hs' [H ->]]]]]|[c [rest' [y' [_ [E _]]]]]]].
      * discriminate.
      * apply in_sites in Hs' as [_ [m [_ [Em [Hr Ho]]]]].
        apply rmatch_boundary in Hr. subst rem. rewrite app_nil_r in Em.
        apply in_cross_lit in Ho as [_ ->].
        apply rewrites_nil in H. subst. reflexivity.
      * rewrite E in Hs. destruct Hs.
    + intros ->. change (lit "primo") with (lit "primo" ++ []).
      eapply rw_site; [exact Hs|]. constructor.
  - apply str_eqb_neq in E. apply rewrites_copy.
    intros u1 u2 Hs H2. apply sites_empty. intros o rem H.
    apply in_sites in H as [Hl [m [_ [Em [Hr Ho]]]]].
    apply lmatch_boundary in Hl. apply rmatch_boundary in Hr.
    simpl in Hl. subst u1 rem. rewrite app_nil_r in Em.
    apply in_cross_lit in Ho as [-> _]. simpl in Hs. congruence.
Qed.

(** C10. In the deterministic date verbalizer the day is the
    apocope-stripped day text passed through [primero], and [primero]
    rewrites a text to "primo" only when the whole text is "uno": every
    other text, "ventuno" and "trentuno" among them, is left as it is. *)
Theorem date_primo_only_for_whole_uno :
  (forall s, yields (Date.primero s) (if str_eqb s "uno" then "primo" else s))
  /\ (forall s, s <> lit "uno" -> yields (Date.primero s) s)
  /\ (forall apocope_rule x y,
         In y (Date.day apocope_rule true x) <->
         exists d, In d (Date.day_stripped apocope_rule x)
                   /\ y = if str_eqb d "uno" then lit "primo" else d)
  /\ Date.primero "ventuno" = [lit "ventuno"]
  /\ Date.primero "trentuno" = [lit "trentuno"].
Proof.
  split; [exact primero_spec|]. split.
  { intros s Hs. generalize (primero_spec s).
    apply str_eqb_neq in Hs. rewrite Hs. auto. }
  split; [|split; vm_compute; reflexivity].
  intros apocope_rule x y. unfold Date.day. rewrite in_compose.
  split; intros [d [Hd H]]; exists d; (split; [exact Hd|]).
  - apply primero_spec in H. exact H.
  - apply primero_spec. exact H.
Qed.

Lemma date_primo_only_for_whole_uno_witness :
  lit "ventuno" <> lit "uno" /\ yields (Date.primero "ventuno") "ventuno".
Proof.
  assert (H : lit "ventuno" <> lit "uno") by discriminate.
  split; [exact H|].
  exact (proj1 (proj2 date_primo_only_for_whole_uno) "ventuno" H).
Defined.

(** Quotes and white space *)

Lemma first_quote_unique (t t' a b : str) :
  forallb NEMO_NOT_QUOTE t = true -> forallb NEMO_NOT_QUOTE t' = true ->
  t ++ dq :: a = t' ++ dq :: b -> t = t' /\ a = b.
Proof.
  revert t'. induction t as [|c t IH]; intros t' Ht Ht' E.
  - destruct t' as [|c' t']; simpl in E.
    + injection E as ->. auto.
    + injection E as <- _. simpl in Ht'. discriminate.
  - destruct t' as [|c' t']; simpl in E.
    + injection E as -> _. simpl in Ht. discriminate.
    + injection E as <- E. simpl in Ht, Ht'.
      apply andb_true_iff in Ht as [_ Ht]. apply andb_true_iff in Ht' as [_ Ht'].
      destruct (IH t' Ht Ht' E) as [-> ->]. auto.
Qed.

Lemma ws_star_head (w a : str) :
  ws_star w = true -> w <> [] -> ws_head (w ++ a) = true.
Proof.
  intros H Hw. destruct w as [|c w]; [congruence|]. simpl in *.
  destruct (is_ws_byte c); [reflexivity|]. simpl.
  destruct w as [|d w]; [discriminate|]. simpl.
  apply andb_true_iff in H as [H _]. exact H.
Qed.

Lemma ws_star_no_head (w a b : str) :
  ws_star w = true -> ws_head b = false -> w ++ a = b -> w = [] /\ a = b.
Proof.
  intros H Hb E. destruct w as [|c w]; [auto|].
  rewrite <- E, ws_star_head in Hb; [discriminate|exact H|discriminate].
Qed.

Lemma ws_star_space (w : str) : ws_star (" "%char :: w) = ws_star w.
Proof. reflexivity. Qed.

Lemma ws_star_cons_space (c : ascii) (w a b : str) :
  ws_star (c :: w) = true -> ws_head b = false ->
  (c :: w) ++ a = " "%char :: b -> c = " "%char /\ w = [] /\ a = b.
Proof.
  intros H Hb E. simpl in E. injection E as -> E.
  rewrite ws_star_space in H.
  destruct (ws_star_no_head w a b H Hb E) as [-> ->]. auto.
Qed.

Lemma in_closure_ws (lo : nat) (x y : str) :
  In y (closure_ws lo x) <-> ws_star x = true /\ lo <= List.length x /\ y = x.
Proof.
  unfold closure_ws.
  destruct (ws_star x) eqn:E1; simpl;
    [destruct (Nat.leb lo (List.length x)) eqn:E2; simpl|].
  - apply Nat.leb_le in E2. intuition congruence.
  - apply Nat.leb_gt in E2. split; [tauto|]. intros [_ [H _]]. lia.
  - split; [tauto|]. intros [H _]. discriminate.
Qed.

Lemma in_delete_space (x y : str) :
  In y (delete_space x) <-> ws_star x = true /\ y = [].
Proof.
  unfold delete_space. rewrite in_delete, accepts_true. split.
  - intros [[z H] ->]. apply in_closure_ws in H. tauto.
  - intros [H ->]. split; [|reflexivity]. exists x. apply in_closure_ws.
    repeat split; [exact H | lia].
Qed.

Lemma in_delete_extra_space (x y : str) :
  In y (delete_extra_space x) <-> ws_star x = true /\ x <> [] /\ y = lit " ".
Proof.
  unfold delete_extra_space. rewrite in_cross, accepts_true. split.
  - intros [[z H] ->]. apply in_closure_ws in H as [H [Hl _]].
    repeat split; [exact H|]. intros ->. simpl in Hl. lia.
  - intros [H [Hx ->]]. split; [|reflexivity]. exists x. apply in_closure_ws.
    repeat split; [exact H|]. destruct x; [congruence | simpl; lia].
Qed.

Lemma in_insert_space (x y : str) :
  In y (insert_space x) <-> x = [] /\ y = lit " ".
Proof. apply in_insert. Qed.

Lemma in_NEMO_SPACE (x y : str) :
  In y (NEMO_SPACE x) <-> x = lit " " /\ y = lit " ".
Proof. apply in_accep. Qed.

Lemma ends_with_ws_false (y t w : str) :
  ends_with_ws y = false -> y = t ++ w -> ws_star w = true -> w = [].
Proof.
  intros H -> Hw. destruct w as [|c w]; [reflexivity|].
  assert (E : ends_with_ws (t ++ c :: w) = true); [|congruence].
  apply existsb_exists. exists (t, c :: w). split.
  - apply splits_spec. reflexivity.
  - exact Hw.
Qed.

(** What the three fields of the date token read. *)

Lemma in_day_cardinal (x y : str) :
  In y (Date.day_cardinal x) <->
  x = "day: " ++ quoted y /\ y <> [] /\ forallb NEMO_NOT_QUOTE y = true.
Proof.
  unfold Date.day_cardinal. rewrite in_concat. split.
  - intros [x1 [x2 [y1 [y2 [-> [-> [H1 H2]]]]]]].
    apply in_delete_lit in H1 as [-> ->].
    apply in_concat in H2 as [x3 [x4 [y3 [y4 [-> [-> [H3 H4]]]]]]].
    apply in_closure_class in H3 as [Hq [Hl ->]].
    apply in_delete_lit in H4 as [-> ->].
    rewrite app_nil_r. simpl. repeat split; auto.
    intros ->. simpl in Hl. lia.
  - intros [-> [Hy Hq]]. exists ("day: " ++ [dq]), (y ++ [dq]), [], y.
    repeat split; [apply in_delete_lit; auto|].
    apply in_concat. exists y, [dq], y, []. rewrite app_nil_r.
    repeat split; [|apply in_delete_lit; auto].
    apply in_closure_class. repeat split; auto.
    destruct y; [congruence | simpl; lia].
Qed.

Lemma in_month (x y : str) :
  In y (Date.month x) <->
  exists w, ws_star w = true /\ x = "month:" ++ w ++ quoted y
            /\ y <> [] /\ forallb NEMO_NOT_QUOTE y = true.
Proof.
  unfold Date.month. rewrite in_concat. split.
  - intros [x1 [x2 [y1 [y2 [-> [-> [H1 H2]]]]]]].
    apply in_delete_lit in H1 as [-> ->].
    apply in_concat in H2 as [x3 [x4 [y3 [y4 [-> [-> [H3 H4]]]]]]].
    apply in_delete_space in H3 as [Hw ->].
    apply in_concat in H4 as [x5 [x6 [y5 [y6 [-> [-> [H5 H6]]]]]]].
    apply in_delete_lit in H5 as [-> ->].
    apply in_concat in H6 as [x7 [x8 [y7 [y8 [-> [-> [H7 H8]]]]]]].
    apply in_closure_class in H7 as [Hq [Hl ->]].
    apply in_delete_lit in H8 as [-> ->].
    exists x3. rewrite app_nil_r. simpl. repeat split; auto.
    intros ->. simpl in Hl. lia.
  - intros [w [Hw [-> [Hy Hq]]]].
    exists (lit "month:"), (w ++ quoted y), [], y.
    repeat split; [apply in_delete_lit; auto|].
    apply in_concat. exists w, (quoted y), [], y.
    repeat split; [apply in_delete_space; auto|].
    apply in_concat. exists [dq], (y ++ [dq]), [], y.
    repeat split; [apply in_delete_lit; auto|].
    apply in_concat. exists y, [dq], y, []. rewrite app_nil_r.
    repeat split; [|apply in_delete_lit; auto].
    apply in_closure_class. repeat split; auto.
    destruct y; [congruence | simpl; lia].
Qed.

Lemma in_year (x y : str) :
  In y (Date.year x) <->
  exists w w', ws_star w = true /\ ws_star w' = true
               /\ x = "year:" ++ w ++ quoted (y ++ w')
               /\ y <> [] /\ forallb NEMO_NOT_QUOTE y = true.
Proof.
  unfold Date.year. rewrite in_concat. split.
  - intros [x1 [x2 [y1 [y2 [-> [-> [H1 H2]]]]]]].
    apply in_delete_lit in H1 as [-> ->].
    apply in_concat in H2 as [x3 [x4 [y3 [y4 [-> [-> [H3 H4]]]]]]].
    apply in_delete_space in H3 as [Hw ->].
    apply in_concat in H4 as [x5 [x6 [y5 [y6 [-> [-> [H5 H6]]]]]]].
    apply in_delete_lit in H5 as [-> ->].
    apply in_concat in H6 as [x7 [x8 [y7 [y8 [-> [-> [H7 H8]]]]]]].
    apply in_closure_class in H7 as [Hq [Hl ->]].
    apply in_concat in H8 as [x9 [x10 [y9 [y10 [-> [-> [H9 H10]]]]]]].
    apply in_delete_space in H9 as [Hw' ->].
    apply in_delete_lit in H10 as [-> ->].
    exists x3, x9. rewrite app_nil_r. unfold quoted. simpl.
    rewrite <- app_assoc. repeat split; auto.
    intros ->. simpl in Hl. lia.
  - intros [w [w' [Hw [Hw' [-> [Hy Hq]]]]]].
    exists (lit "year:"), (w ++ quoted (y ++ w')), [], y.
    repeat split; [apply in_delete_lit; auto|].
    apply in_concat. exists w, (quoted (y ++ w')), [], y.
    repeat split; [apply in_delete_space; auto|].
    apply in_concat. exists [dq], (y ++ w' ++ [dq]), [], y.
    repeat split.
    { unfold quoted. simpl. rewrite <- app_assoc. reflexivity. }
    { apply in_delete_lit; auto. }
    apply in_concat. exists y, (w' ++ [dq]), y, []. rewrite app_nil_r.
    repeat split.
    { apply in_closure_class. repeat split; auto.
      destruct y; [congruence | simpl; lia]. }
    apply in_concat. exists w', [dq], [], [].
    repeat split; [apply in_delete_space | apply in_delete_lit]; auto.
Qed.

Lemma yields_singleton (y : str) : yields [y] y.
Proof. intros z. simpl. intuition congruence. Qed.

Lemma yields_only (outs : list str) (y z : str) :
  yields outs y -> In z outs -> z = y.
Proof. intros H. apply H. Qed.

Lemma yields_self (outs : list str) (y : str) : yields outs y -> In y outs.
Proof. intros H. apply H. reflexivity. Qed.

Lemma ws_split_space (w a b : str) :
  ws_star w = true -> ws_head a = false -> ws_head b = false ->
  w ++ a = " "%char :: b -> w = lit " " /\ a = b.
Proof.
  intros Hw Ha Hb E. destruct w as [|c w].
  - simpl in E. subst a. discriminate.
  - destruct (ws_star_cons_space c w a b Hw Hb E) as [-> [-> ->]]. auto.
Qed.

(** Brings an equation between strings to right-nested form. *)
Create HintDb tokens.
#[global] Hint Unfold quoted date_token fraction_token fraction_token_cardinal
  Fraction.features : tokens.

Ltac flat_in E :=
  autounfold with tokens in E; simpl in E;
  repeat (rewrite <- app_assoc in E; simpl in E).

Ltac flat_goal :=
  autounfold with tokens; simpl; repeat (rewrite <- app_assoc; simpl).

(** Splits a membership in a concatenation at the given cut. *)
Ltac concat_intro x1 x2 y1 y2 :=
  apply in_concat; exists x1, x2, y1, y2;
  split; [try (flat_goal; reflexivity)
         | split; [try (flat_goal; reflexivity) | split]].

Section DateProperties.

Variable apocope_rule : Fst.

Lemma in_day_deterministic (x z : str) :
  In z (Date.day apocope_rule true x) <->
  exists d s, x = "day: " ++ quoted d /\ d <> []
              /\ forallb NEMO_NOT_QUOTE d = true
              /\ In s (apocope_rule d)
              /\ z = if str_eqb s "uno" then lit "primo" else s.
Proof.
  unfold Date.day, Date.day_stripped, strip_cardinal_apocope.
  rewrite in_compose. split.
  - intros [s [Hs Hz]]. apply in_compose in Hs as [d [Hd Hs]].
    apply in_day_cardinal in Hd as [-> [Hd Hq]].
    apply primero_spec in Hz. exists d, s. auto.
  - intros [d [s [-> [Hd [Hq [Hs ->]]]]]]. exists s. split.
    + apply in_compose. exists d. split; [|exact Hs].
      apply in_day_cardinal. auto.
    + apply primero_spec. reflexivity.
Qed.

(** In deterministic mode the month-day-year branch ends by reading
    the order marker. *)
Lemma graph_mdy_needs_marker (x z : str) :
  In z (Date.graph_mdy apocope_rule true x) ->
  exists x', x = x' ++ Date.preserve_order.
Proof.
  unfold Date.graph_mdy. intros H.
  apply in_concat in H as [x1 [x2 [y1 [y2 [-> [_ [_ H]]]]]]].
  apply in_delete_lit in H as [-> _]. eauto.
Qed.

Hypothesis apocope_keeps_uno : yields (apocope_rule "uno") "uno".

Lemma graph_dmy_uno (m y z : str) :
  m <> [] -> y <> [] ->
  forallb NEMO_NOT_QUOTE m = true -> forallb NEMO_NOT_QUOTE y = true ->
  ends_with_ws y = false ->
  (In z (Date.graph_dmy apocope_rule true (date_token "uno" m y)) <->
   z = "primo " ++ m ++ " " ++ y).
Proof.
  intros Hm Hy Qm Qy Wy. unfold Date.graph_dmy. split.
  - intros H.
    apply in_concat in H as [x1 [x2 [y1 [y2 [E [-> [H1 H2]]]]]]].
    apply in_day_deterministic in H1 as [d [s [-> [_ [Qd [Hs ->]]]]]].
    flat_in E. injection E as E.
    apply (first_quote_unique "uno" d) in E as [<- <-];
      [|reflexivity|exact Qd].
    apply apocope_keeps_uno in Hs. subst s. simpl.
    apply in_concat in H2 as [x3 [x4 [y3 [y4 [E [-> [H3 H4]]]]]]].
    apply in_closure01 in H3 as [[-> ->]|H3].
    + (* no month is read: what is left is not a year *)
      simpl in E. subst x4.
      apply in_closure01 in H4 as [[E _]|H4]; [discriminate|].
      apply in_concat in H4 as [x5 [x6 [y5 [y6 [E [-> [H5 H6]]]]]]].
      apply in_delete_extra_space in H5 as [W5 _].
      apply in_year in H6 as [w [w' [_ [_ [-> _]]]]].
      symmetry in E. apply ws_split_space in E as [_ E];
        [discriminate E|exact W5|reflexivity|reflexivity].
    + apply in_concat in H3 as [x5 [x6 [y5 [y6 [-> [-> [H5 H6]]]]]]].
      apply in_delete_extra_space in H5 as [W5 [_ ->]].
      apply in_month in H6 as [w [Ww [-> [_ Qy6]]]].
      flat_in E. symmetry in E.
      apply ws_split_space in E as [-> E];
        [|exact W5|reflexivity|reflexivity].
      injection E as E.
      apply ws_split_space in E as [-> E];
        [|exact Ww|reflexivity|reflexivity].
      injection E as E.
      apply first_quote_unique in E as [-> ->]; [|exact Qy6|exact Qm].
      apply in_closure01 in H4 as [[E _]|H4]; [discriminate|].
      apply in_concat in H4 as [x7 [x8 [y7 [y8 [E [-> [H7 H8]]]]]]].
      apply in_delete_extra_space in H7 as [W7 [_ ->]].
      apply in_year in H8 as [w [w' [Ww8 [Ww' [-> [_ Qy8]]]]]].
      flat_in E. symmetry in E.
      apply ws_split_space in E as [-> E];
        [|exact W7|reflexivity|reflexivity].
      injection E as E.
      apply ws_split_space in E as [-> E];
        [|exact Ww8|reflexivity|reflexivity].
      injection E as E.
      rewrite (app_assoc y8 w' [dq]) in E.
      apply app_inj_tail in E as [E _].
      assert (w' = []) by (eapply ends_with_ws_false; eauto).
      subst w'. rewrite app_nil_r in E. subst y8.
      simpl. rewrite <- ?app_assoc. reflexivity.
  - intros ->.
    concat_intro ("day: " ++ quoted "uno")
                 (" month: " ++ quoted m ++ " year: " ++ quoted y)
                 (lit "primo") (" " ++ m ++ " " ++ y).
    + apply in_day_deterministic. exists (lit "uno"), (lit "uno").
      repeat split; try discriminate. apply apocope_keeps_uno. reflexivity.
    + concat_intro (" month: " ++ quoted m) (" year: " ++ quoted y)
                   (" " ++ m) (" " ++ y).
      * apply in_closure01. right.
        concat_intro (lit " ") ("month: " ++ quoted m) (lit " ") m.
        -- apply in_delete_extra_space. repeat split. discriminate.
        -- apply in_month. exists (lit " "). auto.
      * apply in_closure01. right.
        concat_intro (lit " ") ("year: " ++ quoted y) (lit " ") y.
        -- apply in_delete_extra_space. repeat split. discriminate.
        -- apply in_year. exists (lit " "), []. rewrite app_nil_r. auto.
Qed.

End DateProperties.

(** C2. With a rule that leaves a lone "uno" alone, the deterministic date
    verbalizer turns the token with day "uno", a month and a year into
    "primo", the month and the year, in that order and with nothing else;
    the month-day-year branch only reads tokens that end with the
    [preserve_order] marker, so a token without the marker can only be read
    by the day-month-year branch. *)
Theorem date_uno_day_month_year (apocope_rule : Fst) :
  yields (apocope_rule "uno") "uno" ->
  (forall m y,
      m <> [] -> y <> [] ->
      forallb NEMO_NOT_QUOTE m = true -> forallb NEMO_NOT_QUOTE y = true ->
      ends_with_ws y = false ->
      yields (Date.graph apocope_rule true (date_token "uno" m y))
             ("primo " ++ m ++ " " ++ y))
  /\ (forall x z,
         In z (Date.graph_mdy apocope_rule true x) ->
         exists x', x = x' ++ Date.preserve_order)
  /\ (forall x z,
         (forall x', x <> x' ++ Date.preserve_order) ->
         In z (Date.graph apocope_rule true x) ->
         In z (Date.graph_dmy apocope_rule true x)).
Proof.
  intros Huno. split; [|split].
  - intros m y Hm Hy Qm Qy Wy z. unfold Date.graph. rewrite in_union.
    rewrite (graph_dmy_uno apocope_rule Huno m y z Hm Hy Qm Qy Wy).
    split; [|auto]. intros [H|H]; [exact H|].
    apply graph_mdy_needs_marker in H as [x' E]. exfalso.
    unfold date_token, Date.preserve_order in E.
    change (lit " preserve_order: true")
      with (" preserve_order: tru" ++ ["e"%char]) in E.
    rewrite !app_assoc in E. unfold quoted in E.
    change (dq :: y ++ [dq]) with ((dq :: y) ++ [dq]) in E.
    rewrite !app_assoc in E.
    apply app_inj_tail in E as [_ E]. discriminate E.
  - apply graph_mdy_needs_marker.
  - intros x z Hx H. unfold Date.graph in H. apply in_union in H as [H|H].
    + exact H.
    + apply graph_mdy_needs_marker in H as [x' E]. destruct (Hx x' E).
Qed.

Lemma apocope_rule_uno : Apocope.rule "uno" = [lit "uno"].
Proof. vm_compute. reflexivity. Qed.

Lemma date_uno_day_month_year_witness :
  yields (Apocope.rule "uno") "uno"
  /\ yields (Date.graph Apocope.rule true
               (date_token "uno" "maggio" "millenovecentonovanta"))
            "primo maggio millenovecentonovanta".
Proof.
  assert (H : yields (Apocope.rule "uno") "uno")
    by (rewrite apocope_rule_uno; apply yields_singleton).
  split; [exact H|].
  apply (proj1 (date_uno_day_month_year Apocope.rule H)
               "maggio" "millenovecentonovanta");
    first [discriminate | reflexivity].
Defined.

(** ** The fraction verbalizer *)

Lemma in_delimited (C : ascii -> bool) (lo : nat) (p q x y : str) :
  In y ((delete (accep p) <+> closure_class C lo <+> delete (accep q)) x) <->
  x = p ++ y ++ q /\ forallb C y = true /\ lo <= List.length y.
Proof.
  rewrite in_concat. split.
  - intros [x1 [x2 [y1 [y2 [-> [-> [H1 H2]]]]]]].
    apply in_delete_lit in H1 as [-> ->].
    apply in_concat in H2 as [x3 [x4 [y3 [y4 [-> [-> [H3 H4]]]]]]].
    apply in_closure_class in H3 as [Hq [Hl ->]].
    apply in_delete_lit in H4 as [-> ->].
    rewrite app_nil_r. auto.
  - intros [-> [Hc Hl]]. exists p, (y ++ q), [], y.
    repeat split; [apply in_delete_lit; auto|].
    apply in_concat. exists y, q, y, []. rewrite app_nil_r.
    repeat split; [|apply in_delete_lit; auto].
    apply in_closure_class. auto.
Qed.

Lemma in_numerator_one (x y : str) :
  In y (Fraction.numerator_one x) <->
  x = "numerator: " ++ quoted "un" ++ " " /\ y = lit "un".
Proof.
  unfold Fraction.numerator_one. rewrite in_concat. split.
  - intros [x1 [x2 [y1 [y2 [-> [-> [H1 H2]]]]]]].
    apply in_delete_lit in H1 as [-> ->].
    apply in_concat in H2 as [x3 [x4 [y3 [y4 [-> [-> [H3 H4]]]]]]].
    apply in_accep in H3 as [-> ->].
    apply in_delete_lit in H4 as [-> ->]. auto.
  - intros [-> ->]. exists ("numerator: " ++ [dq]), ("un" ++ dq :: " "), [], (lit "un").
    repeat split; [apply in_delete_lit; auto|].
    apply in_concat. exists (lit "un"), (dq :: " "), (lit "un"), [].
    repeat split; [apply in_accep | apply in_delete_lit]; auto.
Qed.

Lemma in_numerator (x y : str) :
  In y (Fraction.numerator x) <->
  x = "numerator: " ++ quoted y ++ " "
  /\ forallb NEMO_NOT_QUOTE y = true /\ y <> lit "un".
Proof.
  unfold Fraction.numerator. rewrite in_concat. split.
  - intros [x1 [x2 [y1 [y2 [-> [-> [H1 H2]]]]]]].
    apply in_delete_lit in H1 as [-> ->].
    apply in_concat in H2 as [x3 [x4 [y3 [y4 [-> [-> [H3 H4]]]]]]].
    apply in_difference in H3 as [Hu H3].
    apply in_closure_class in H3 as [Hq [_ ->]].
    apply in_delete_lit in H4 as [-> ->].
    rewrite accepts_accep in Hu. apply str_eqb_neq in Hu.
    rewrite app_nil_r. unfold quoted. simpl. rewrite <- app_assoc. auto.
  - intros [-> [Hq Hu]].
    exists ("numerator: " ++ [dq]), (y ++ dq :: " "), [], y.
    split; [flat_goal; reflexivity|].
    repeat split; [apply in_delete_lit; auto|].
    apply in_concat. exists y, (dq :: " "), y, []. rewrite app_nil_r.
    repeat split; [|apply in_delete_lit; auto].
    apply in_difference. split.
    + rewrite accepts_accep. apply str_eqb_neq. exact Hu.
    + apply in_closure_class. repeat split; [exact Hq | lia].
Qed.

Lemma in_denominator_add_stem (x y : str) :
  In y (Fraction.denominator_add_stem x) <->
  x = "denominator: " ++ dq :: y ++ Fraction.features "add_root"
  /\ forallb NEMO_NOT_QUOTE y = true.
Proof.
  unfold Fraction.denominator_add_stem. rewrite in_delimited.
  rewrite <- app_assoc. simpl. intuition lia.
Qed.

Lemma in_denominator_ordinal (x y : str) :
  In y (Fraction.denominator_ordinal x) <->
  x = "denominator: " ++ dq :: y ++ Fraction.features "ordinal"
  /\ forallb NEMO_NOT_QUOTE y = true.
Proof.
  unfold Fraction.denominator_ordinal. rewrite in_delimited.
  rewrite <- app_assoc. simpl. intuition lia.
Qed.

Lemma in_denominator_cardinal (x y : str) :
  In y (Fraction.denominator_cardinal x) <->
  x = "denominator: " ++ quoted y /\ forallb NEMO_NOT_QUOTE y = true.
Proof.
  unfold Fraction.denominator_cardinal. rewrite in_delimited.
  rewrite <- app_assoc. simpl. intuition lia.
Qed.

Lemma in_denominator_singular (x y : str) :
  In y (Fraction.denominator_singular x) <->
  exists tag, (tag = lit "add_root" \/ tag = lit "ordinal")
              /\ x = "denominator: " ++ dq :: y ++ Fraction.features tag
              /\ forallb NEMO_NOT_QUOTE y = true.
Proof.
  unfold Fraction.denominator_singular.
  rewrite in_union, in_denominator_add_stem, in_denominator_ordinal. split.
  - intros [[-> H]|[-> H]]; eauto 6.
  - intros [tag [[->| ->] [-> H]]]; auto.
Qed.

Lemma in_plural (x y : str) : In y (Fraction.plural x) <-> x = lit "o" /\ y = lit "i".
Proof.
  unfold Fraction.plural. rewrite in_concat. split.
  - intros [x1 [x2 [y1 [y2 [-> [-> [H1 H2]]]]]]].
    apply in_delete_lit in H1 as [-> ->]. apply in_insert in H2 as [-> ->].
    auto.
  - intros [-> ->]. exists (lit "o"), [], [], (lit "i").
    repeat split; [apply in_delete_lit | apply in_insert]; auto.
Qed.

(** The plural denominator reads an "o" after the closing delimiter of
    the token and writes the whole denominator followed by "i". *)
Lemma in_denominator_plural (x y : str) :
  In y (Fraction.denominator_plural x) <->
  exists tag d, (tag = lit "add_root" \/ tag = lit "ordinal")
                /\ x = ("denominator: " ++ dq :: d ++ Fraction.features tag) ++ "o"
                /\ forallb NEMO_NOT_QUOTE d = true
                /\ y = d ++ "i".
Proof.
  unfold Fraction.denominator_plural. rewrite in_concat. split.
  - intros [x1 [x2 [y1 [y2 [-> [-> [H1 H2]]]]]]].
    apply in_denominator_singular in H1 as [tag [Ht [-> Hq]]].
    apply in_plural in H2 as [-> ->]. exists tag, y1. auto.
  - intros [tag [d [Ht [-> [Hq ->]]]]].
    exists ("denominator: " ++ dq :: d ++ Fraction.features tag),
           (lit "o"), d, (lit "i").
    repeat split.
    + apply in_denominator_singular. eauto.
    + apply in_plural. auto.
Qed.

(** A rule whose right context fails at every cut of the input copies it. *)
Lemma no_site_right_context (tau : Fst) (l r : context) (x : str) :
  forallb (fun p => negb (rmatch r (snd p))) (splits x) = true ->
  forall y, In y (cdrewrite tau l r x) <-> y = x.
Proof.
  intros Hall y. rewrite in_cdrewrite. apply rewrites_copy.
  intros u1 u2 -> _. apply sites_empty. intros o rem H.
  apply in_sites in H as [_ [m [_ [-> [Hr _]]]]].
  rewrite forallb_forall in Hall.
  specialize (Hall (u1 ++ m, rem)). simpl in Hall.
  rewrite Hr in Hall. discriminate Hall.
  apply splits_spec. rewrite <- app_assoc. reflexivity.
Qed.

Section FractionProperties.

Variable accents : list (str * str).
Variable apocope_rule : Fst.
Variable gender_rule : Fst.

Let merged := Fraction.merge_into_single_word accents.

Lemma in_fraction_with_one_plain (x z : str) :
  In z (Fraction.fraction_with_one_plain accents x) <->
  exists w d tag y,
    (tag = lit "add_root" \/ tag = lit "ordinal")
    /\ ws_star w = true
    /\ x = "numerator: " ++ quoted "un" ++ " " ++ w
             ++ "denominator: " ++ dq :: d ++ Fraction.features tag
    /\ forallb NEMO_NOT_QUOTE d = true
    /\ In y (merged d)
    /\ z = "un " ++ y.
Proof.
  unfold Fraction.fraction_with_one_plain. split.
  - intros H.
    apply in_concat in H as [x1 [x2 [y1 [y2 [-> [-> [H1 H2]]]]]]].
    apply in_numerator_one in H1 as [-> ->].
    apply in_concat in H2 as [x3 [x4 [y3 [y4 [-> [-> [H3 H4]]]]]]].
    apply in_delete_space in H3 as [Hw ->].
    apply in_concat in H4 as [x5 [x6 [y5 [y6 [-> [-> [H5 H6]]]]]]].
    apply in_insert_space in H5 as [-> ->].
    apply in_compose in H6 as [d [Hd Hy]].
    apply in_denominator_singular in Hd as [tag [Ht [-> Hq]]].
    exists x3, d, tag, y6. repeat split; auto; flat_goal; reflexivity.
  - intros [w [d [tag [y [Ht [Hw [-> [Hq [Hy ->]]]]]]]]].
    concat_intro ("numerator: " ++ quoted "un" ++ " ")
                 (w ++ "denominator: " ++ dq :: d ++ Fraction.features tag)
                 (lit "un") (" " ++ y).
    + apply in_numerator_one. auto.
    + concat_intro w ("denominator: " ++ dq :: d ++ Fraction.features tag)
                   (@nil ascii) (" " ++ y).
      * apply in_delete_space. auto.
      * concat_intro (@nil ascii)
                     ("denominator: " ++ dq :: d ++ Fraction.features tag)
                     (lit " ") y.
        -- apply in_insert_space. auto.
        -- apply in_compose. exists d. split; [|exact Hy].
           apply in_denominator_singular. eauto.
Qed.

Lemma in_fraction_default (x z : str) :
  In z (Fraction.fraction_default accents x) <->
  exists n w d tag y,
    (tag = lit "add_root" \/ tag = lit "ordinal")
    /\ ws_star w = true
    /\ x = "numerator: " ++ quoted n ++ " " ++ w
             ++ ("denominator: " ++ dq :: d ++ Fraction.features tag) ++ "o"
    /\ forallb NEMO_NOT_QUOTE n = true /\ n <> lit "un"
    /\ forallb NEMO_NOT_QUOTE d = true
    /\ In y (merged (d ++ "i"))
    /\ z = n ++ " " ++ y.
Proof.
  unfold Fraction.fraction_default. split.
  - intros H.
    apply in_concat in H as [x1 [x2 [y1 [y2 [-> [-> [H1 H2]]]]]]].
    apply in_numerator in H1 as [-> [Hn Hu]].
    apply in_concat in H2 as [x3 [x4 [y3 [y4 [-> [-> [H3 H4]]]]]]].
    apply in_delete_space in H3 as [Hw ->].
    apply in_concat in H4 as [x5 [x6 [y5 [y6 [-> [-> [H5 H6]]]]]]].
    apply in_insert_space in H5 as [-> ->].
    apply in_compose in H6 as [d' [Hd Hy]].
    apply in_denominator_plural in Hd as [tag [d [Ht [-> [Hq ->]]]]].
    exists y1, x3, d, tag, y6. repeat split; auto; flat_goal; reflexivity.
  - intros [n [w [d [tag [y [Ht [Hw [-> [Hn [Hu [Hq [Hy ->]]]]]]]]]]]].
    concat_intro ("numerator: " ++ quoted n ++ " ")
                 (w ++ ("denominator: " ++ dq :: d ++ Fraction.features tag)
                    ++ "o")
                 n (" " ++ y).
    + apply in_numerator. auto.
    + concat_intro w (("denominator: " ++ dq :: d ++ Fraction.features tag)
                        ++ "o")
                   (@nil ascii) (" " ++ y).
      * apply in_delete_space. auto.
      * concat_intro (@nil ascii)
                     (("denominator: " ++ dq :: d ++ Fraction.features tag)
                        ++ "o")
                     (lit " ") y.
        -- apply in_insert_space. auto.
        -- apply in_compose. exists (d ++ "i"). split; [|exact Hy].
           apply in_denominator_plural. exists tag, d. auto.
Qed.

Lemma in_fraction_with_cardinal (x z : str) :
  In z (Fraction.fraction_with_cardinal apocope_rule x) <->
  exists n w d n' d',
    ws_star w = true
    /\ x = "numerator: " ++ quoted n ++ " " ++ w
             ++ "denominator: " ++ quoted d
    /\ forallb NEMO_NOT_QUOTE n = true
    /\ forallb NEMO_NOT_QUOTE d = true
    /\ In n' (apocope_rule n) /\ In d' (apocope_rule d)
    /\ z = n' ++ " fratto " ++ d'.
Proof.
  unfold Fraction.fraction_with_cardinal, strip_cardinal_apocope. split.
  - intros H.
    apply in_concat in H as [x1 [x2 [y1 [y2 [-> [-> [H1 H2]]]]]]].
    apply in_compose in H1 as [n [Hn Hn']].
    assert (Hx1 : x1 = "numerator: " ++ quoted n ++ " "
                  /\ forallb NEMO_NOT_QUOTE n = true).
    { apply in_union in Hn as [Hn|Hn].
      - apply in_numerator in Hn. tauto.
      - apply in_numerator_one in Hn as [-> ->]. auto. }
    destruct Hx1 as [-> Qn].
    apply in_concat in H2 as [x3 [x4 [y3 [y4 [-> [-> [H3 H4]]]]]]].
    apply in_delete_space in H3 as [Hw ->].
    apply in_concat in H4 as [x5 [x6 [y5 [y6 [-> [-> [H5 H6]]]]]]].
    apply in_insert in H5 as [-> ->].
    apply in_compose in H6 as [d [Hd Hd']].
    apply in_denominator_cardinal in Hd as [-> Qd].
    exists n, x3, d, y1, y6. repeat split; auto; flat_goal; reflexivity.
  - intros [n [w [d [n' [d' [Hw [-> [Qn [Qd [Hn' [Hd' ->]]]]]]]]]]].
    concat_intro ("numerator: " ++ quoted n ++ " ")
                 (w ++ "denominator: " ++ quoted d)
                 n' (" fratto " ++ d').
    + apply in_compose. exists n. split; [|exact Hn'].
      destruct (list_eq_dec ascii_dec n "un") as [->|Hu].
      * apply in_union. right. apply in_numerator_one. auto.
      * apply in_union. left. apply in_numerator. auto.
    + concat_intro w ("denominator: " ++ quoted d)
                   (@nil ascii) (" fratto " ++ d').
      * apply in_delete_space. auto.
      * concat_intro (@nil ascii) ("denominator: " ++ quoted d)
                     (lit " fratto ") d'.
        -- apply in_insert. auto.
        -- apply in_compose. exists d. split; [|exact Hd'].
           apply in_denominator_cardinal. auto.
Qed.

Lemma in_fraction_with_one_fem_branch (x z : str) :
  In z (Fraction.fraction_with_one_fem_branch x) <->
  exists w tag,
    (tag = lit "add_root" \/ tag = lit "ordinal")
    /\ ws_star w = true
    /\ x = "numerator: " ++ quoted "un" ++ " " ++ w
             ++ "denominator: " ++ dq :: "mezzo" ++ Fraction.features tag
    /\ z = lit "mezza".
Proof.
  unfold Fraction.fraction_with_one_fem_branch. split.
  - intros H.
    apply in_concat in H as [x1 [x2 [y1 [y2 [-> [-> [H1 H2]]]]]]].
    apply in_delete in H1 as [H1 ->]. apply accepts_true in H1 as [u H1].
    apply in_numerator_one in H1 as [-> _].
    apply in_concat in H2 as [x3 [x4 [y3 [y4 [-> [-> [H3 H4]]]]]]].
    apply in_delete_space in H3 as [Hw ->].
    apply in_compose in H4 as [d [Hd Hy]].
    apply in_denominator_singular in Hd as [tag [Ht [-> Hq]]].
    apply in_cross_lit in Hy as [-> ->].
    exists x3, tag. repeat split; auto; flat_goal; reflexivity.
  - intros [w [tag [Ht [Hw [-> ->]]]]].
    concat_intro ("numerator: " ++ quoted "un" ++ " ")
                 (w ++ "denominator: " ++ dq :: "mezzo"
                    ++ Fraction.features tag)
                 (@nil ascii) (lit "mezza").
    + apply in_delete. split; [|reflexivity]. apply accepts_true.
      exists (lit "un"). apply in_numerator_one. auto.
    + concat_intro w ("denominator: " ++ dq :: "mezzo"
                        ++ Fraction.features tag)
                   (@nil ascii) (lit "mezza").
      * apply in_delete_space. auto.
      * apply in_compose. exists (lit "mezzo"). split.
        -- apply in_denominator_singular. exists tag. auto.
        -- apply in_cross_lit. auto.
Qed.

(** A plural denominator ends in "i": the feminine branch added to
    [fraction_default], which asks it to be "mezzo", has no path. *)
Lemma fraction_default_fem_branch_empty (x z : str) :
  ~ In z (Fraction.fraction_default_fem_branch gender_rule x).
Proof.
  unfold Fraction.fraction_default_fem_branch. intros H.
  apply in_concat in H as [x1 [x2 [y1 [y2 [_ [_ [_ H2]]]]]]].
  apply in_concat in H2 as [x3 [x4 [y3 [y4 [_ [_ [_ H4]]]]]]].
  apply in_concat in H4 as [x5 [x6 [y5 [y6 [_ [_ [_ H6]]]]]]].
  apply in_compose in H6 as [d' [Hd Hy]].
  apply in_denominator_plural in Hd as [tag [d [_ [_ [_ ->]]]]].
  apply in_cross_lit in Hy as [E _].
  change (lit "mezzo") with ("mezz" ++ ["o"%char]) in E.
  apply app_inj_tail in E as [_ E]. discriminate E.
Qed.

Lemma integer_prefix (x y : str) :
  In y (Fraction.integer apocope_rule x) ->
  exists rest, x = "integer_part: " ++ rest.
Proof.
  unfold Fraction.integer. intros H.
  apply in_concat in H as [x1 [x2 [y1 [y2 [-> [_ [H1 _]]]]]]].
  apply in_delete_lit in H1 as [-> _].
  exists (dq :: x2). flat_goal. reflexivity.
Qed.

End FractionProperties.

(** Reading back the numerator of a serialised token. *)
Lemma token_tail_inv (n n' w R R' : str) :
  forallb NEMO_NOT_QUOTE n = true -> forallb NEMO_NOT_QUOTE n' = true ->
  ws_star w = true -> ws_head R = false ->
  n' ++ dq :: " "%char :: w ++ R' = n ++ dq :: " "%char :: R ->
  n' = n /\ w = [] /\ R' = R.
Proof.
  intros Qn Qn' Hw HR E.
  apply first_quote_unique in E as [-> E]; [|exact Qn'|exact Qn].
  injection E as E.
  apply ws_star_no_head in E as [-> ->]; auto.
Qed.

Lemma tag_not_quote (tag : str) :
  tag = lit "add_root" \/ tag = lit "ordinal" ->
  forallb NEMO_NOT_QUOTE tag = true.
Proof. intros [->| ->]; reflexivity. Qed.

Section FractionTokens.

Variable accents : list (str * str).
Variable apocope_rule : Fst.
Variable gender_rule : Fst.

Let merged := Fraction.merge_into_single_word accents.

Variables n d tag : str.
Hypothesis n_not_quote : forallb NEMO_NOT_QUOTE n = true.
Hypothesis d_not_quote : forallb NEMO_NOT_QUOTE d = true.
Hypothesis tag_known : tag = lit "add_root" \/ tag = lit "ordinal".

Let token := fraction_token n d tag.

Lemma token_with_one_plain (z : str) :
  In z (Fraction.fraction_with_one_plain accents token) <->
  n = lit "un" /\ exists y, In y (merged d) /\ z = "un " ++ y.
Proof.
  rewrite in_fraction_with_one_plain. split.
  - intros [w [d' [tag' [y [Ht [Hw [E [Qd [Hy ->]]]]]]]]].
    unfold token in E. symmetry in E. flat_in E. injection E as E.
    apply (token_tail_inv n "un") in E as [E [-> E']];
      [|exact n_not_quote|reflexivity|exact Hw|reflexivity].
    injection E' as E'.
    apply first_quote_unique in E' as [-> _]; [|exact Qd|exact d_not_quote].
    split; [congruence|]. eauto.
  - intros [-> [y [Hy ->]]]. exists [], d, tag, y.
    repeat split; auto.
Qed.

Lemma token_with_one_fem_branch (z : str) :
  In z (Fraction.fraction_with_one_fem_branch token) <->
  n = lit "un" /\ d = lit "mezzo" /\ z = lit "mezza".
Proof.
  rewrite in_fraction_with_one_fem_branch. split.
  - intros [w [tag' [Ht [Hw [E ->]]]]].
    unfold token in E. symmetry in E. flat_in E. injection E as E.
    apply (token_tail_inv n "un") in E as [E [-> E']];
      [|exact n_not_quote|reflexivity|exact Hw|reflexivity].
    injection E' as E'.
    apply (first_quote_unique "mezzo" d) in E' as [<- _];
      [|reflexivity|exact d_not_quote].
    auto.
  - intros [-> [-> ->]]. exists [], tag. repeat split; auto.
Qed.

(** The plural branch reads past the end of the token. *)
Lemma token_default_empty (z : str) :
  ~ In z (Fraction.fraction_default accents token).
Proof.
  rewrite in_fraction_default.
  intros [n' [w [d' [tag' [y [Ht [Hw [E [Qn [_ [Qd _]]]]]]]]]]].
  unfold token in E. symmetry in E. flat_in E. injection E as E.
  apply token_tail_inv in E as [-> [-> E']];
    [|exact n_not_quote|exact Qn|exact Hw|reflexivity].
  injection E' as E'.
  apply first_quote_unique in E' as [-> E']; [|exact Qd|exact d_not_quote].
  injection E' as E'.
  apply (first_quote_unique tag' tag) in E' as [_ E'];
    [discriminate E'|apply tag_not_quote; exact Ht
     |apply tag_not_quote; exact tag_known].
Qed.

(** The bare cardinal branch does not read a tagged denominator. *)
Lemma token_with_cardinal_empty (z : str) :
  ~ In z (Fraction.fraction_with_cardinal apocope_rule token).
Proof.
  rewrite in_fraction_with_cardinal.
  intros [n' [w [d' [n'' [d'' [Hw [E [Qn [Qd _]]]]]]]]].
  unfold token in E. symmetry in E. flat_in E. injection E as E.
  apply token_tail_inv in E as [-> [-> E']];
    [|exact n_not_quote|exact Qn|exact Hw|reflexivity].
  injection E' as E'.
  apply first_quote_unique in E' as [_ E']; [|exact Qd|exact d_not_quote].
  discriminate E'.
Qed.

Lemma token_not_integer (rest : str) : token <> "integer_part: " ++ rest.
Proof. unfold token. flat_goal. discriminate. Qed.

Lemma token_graph_masc (z : str) :
  In z (Fraction.graph_masc accents apocope_rule token) <->
  In z (Fraction.fraction accents apocope_rule token).
Proof.
  unfold Fraction.graph_masc. rewrite in_concat. split.
  - intros [x1 [x2 [y1 [y2 [E [-> [H1 H2]]]]]]].
    apply in_closure01 in H1 as [[-> ->]|H1].
    + simpl in E. subst x2. exact H2.
    + apply in_concat in H1 as [x3 [x4 [y3 [y4 [-> [_ [H3 _]]]]]]].
      apply integer_prefix in H3 as [rest ->].
      rewrite <- !app_assoc in E. destruct (token_not_integer _ E).
  - intros H. exists [], token, [], z.
    split; [reflexivity|]. split; [reflexivity|]. split; [|exact H].
    apply in_closure01. left. split; reflexivity.
Qed.

Lemma token_graph_fem (z : str) :
  In z (Fraction.graph_fem accents apocope_rule gender_rule token) <->
  In z (Fraction.fraction_fem accents apocope_rule gender_rule token).
Proof.
  unfold Fraction.graph_fem. rewrite in_concat. split.
  - intros [x1 [x2 [y1 [y2 [E [-> [H1 H2]]]]]]].
    apply in_closure01 in H1 as [[-> ->]|H1].
    + simpl in E. subst x2. exact H2.
    + apply in_concat in H1 as [x3 [x4 [y3 [y4 [-> [_ [H3 _]]]]]]].
      unfold Fraction.integer_fem, shift_cardinal_gender in H3.
      apply in_compose in H3 as [u [H3 _]].
      apply integer_prefix in H3 as [rest ->].
      rewrite <- !app_assoc in E. destruct (token_not_integer _ E).
  - intros H. exists [], token, [], z.
    split; [reflexivity|]. split; [reflexivity|]. split; [|exact H].
    apply in_closure01. left. split; reflexivity.
Qed.

(** A token with a tagged denominator whose numerator is not "un" has
    no path at all. *)
Lemma token_plural_no_path (z : str) :
  n <> lit "un" ->
  ~ In z (Fraction.graph accents apocope_rule gender_rule token).
Proof.
  intros Hn H. unfold Fraction.graph in H. apply in_union in H as [H|H].
  - apply (proj1 (token_graph_masc z)) in H. unfold Fraction.fraction in H.
    apply in_union in H as [H|H].
    + unfold Fraction.fraction_with_one in H.
      apply in_compose in H as [m [H _]].
      apply (proj1 (token_with_one_plain m)) in H as [E _]. auto.
    + apply in_union in H as [H|H].
      * exact (token_default_empty z H).
      * exact (token_with_cardinal_empty z H).
  - apply (proj1 (token_graph_fem z)) in H. unfold Fraction.fraction_fem in H.
    apply in_union in H as [H|H].
    + unfold Fraction.fraction_with_one_fem in H.
      apply in_union in H as [H|H].
      * unfold Fraction.fraction_with_one in H.
        apply in_compose in H as [m [H _]].
        apply (proj1 (token_with_one_plain m)) in H as [E _]. auto.
      * apply (proj1 (token_with_one_fem_branch z)) in H as [E _]. auto.
    + apply in_union in H as [H|H].
      * unfold Fraction.fraction_default_fem in H.
        apply in_union in H as [H|H].
        -- exact (token_default_empty z H).
        -- exact (fraction_default_fem_branch_empty gender_rule _ z H).
      * exact (token_with_cardinal_empty z H).
Qed.

End FractionTokens.

(** The word "mezzo" goes through the merge pipeline unchanged, whatever
    the accent table. *)
Lemma merged_mezzo (accents : list (str * str)) :
  yields (Fraction.merge_into_single_word accents "mezzo") "mezzo".
Proof.
  intros z. unfold Fraction.merge_into_single_word.
  rewrite in_compose.
  assert (Hm : Fraction.merge "mezzo" = [lit "mezzo"])
    by (vm_compute; reflexivity).
  assert (Hd : Fraction.delete_duplicates "mezzo" = [lit "mezzo"])
    by (vm_compute; reflexivity).
  assert (Ha : forall y, In y (Fraction.remove_accents accents "mezzo")
                         <-> y = lit "mezzo").
  { unfold Fraction.remove_accents. apply no_site_right_context.
    vm_compute. reflexivity. }
  split.
  - intros [m2 [H2 Hz]]. apply in_compose in H2 as [m1 [H1 H2]].
    rewrite Hm in H1. destruct H1 as [<-|[]].
    apply (proj1 (Ha m2)) in H2. subst m2. rewrite Hd in Hz.
    destruct Hz as [<-|[]]. reflexivity.
  - intros ->. exists (lit "mezzo"). split.
    + apply in_compose. exists (lit "mezzo"). split.
      * rewrite Hm. left. reflexivity.
      * apply (proj2 (Ha _)). reflexivity.
    + rewrite Hd. left. reflexivity.
Qed.

Section UnMezzo.

Variable accents : list (str * str).
Variable apocope_rule : Fst.
Variable gender_rule : Fst.
Variable tag : str.
Hypothesis tag_known : tag = lit "add_root" \/ tag = lit "ordinal".

Let token := fraction_token "un" "mezzo" tag.

Lemma un_mezzo_plain :
  yields (Fraction.fraction_with_one_plain accents token) "un mezzo".
Proof.
  intros z. unfold token.
  rewrite (token_with_one_plain accents "un" "mezzo" tag eq_refl eq_refl
                                tag_known z).
  split.
  - intros [_ [y [Hy ->]]].
    apply (yields_only _ _ _ (merged_mezzo accents)) in Hy.
    subst y. reflexivity.
  - intros ->. split; [reflexivity|]. exists (lit "mezzo").
    split; [apply (yields_self _ _ (merged_mezzo accents))|reflexivity].
Qed.

Lemma un_mezzo_with_one :
  yields (Fraction.fraction_with_one accents token) "mezzo".
Proof.
  intros z. unfold Fraction.fraction_with_one. rewrite in_compose.
  assert (Hr : cdrewrite (cross (accep "un mezzo") "mezzo")
                         any_context any_context "un mezzo" = [lit "mezzo"])
    by (vm_compute; reflexivity).
  split.
  - intros [m [Hm Hz]]. apply (yields_only _ _ _ un_mezzo_plain) in Hm.
    subst m.
    rewrite Hr in Hz. destruct Hz as [<-|[]]. reflexivity.
  - intros ->. exists (lit "un mezzo"). split.
    + apply (yields_self _ _ un_mezzo_plain).
    + rewrite Hr. left. reflexivity.
Qed.

Lemma un_mezzo_fraction :
  yields (Fraction.fraction accents apocope_rule token) "mezzo".
Proof.
  intros z. unfold Fraction.fraction. rewrite !in_union. split.
  - intros [H|[H|H]].
    + apply (yields_only _ _ _ un_mezzo_with_one). exact H.
    + destruct (token_default_empty accents "un" "mezzo" tag eq_refl eq_refl
                                    tag_known z H).
    + destruct (token_with_cardinal_empty apocope_rule "un" "mezzo" tag
                                          eq_refl eq_refl z H).
  - intros ->. left. apply (yields_self _ _ un_mezzo_with_one).
Qed.

Lemma un_mezzo_fem_branch :
  yields (Fraction.fraction_with_one_fem_branch token) "mezza".
Proof.
  intros z. unfold token.
  rewrite (token_with_one_fem_branch "un" "mezzo" tag eq_refl eq_refl
                                     tag_known z).
  intuition.
Qed.

Lemma un_mezzo_fraction_fem (z : str) :
  In z (Fraction.fraction_fem accents apocope_rule gender_rule token) <->
  z = lit "mezzo" \/ z = lit "mezza".
Proof.
  unfold Fraction.fraction_fem, Fraction.fraction_with_one_fem,
    Fraction.fraction_default_fem.
  rewrite !in_union. split.
  - intros [[H|H]|[[H|H]|H]].
    + left. apply (yields_only _ _ _ un_mezzo_with_one). exact H.
    + right. apply (yields_only _ _ _ un_mezzo_fem_branch). exact H.
    + destruct (token_default_empty accents "un" "mezzo" tag eq_refl eq_refl
                                    tag_known z H).
    + destruct (fraction_default_fem_branch_empty gender_rule _ z H).
    + destruct (token_with_cardinal_empty apocope_rule "un" "mezzo" tag
                                          eq_refl eq_refl z H).
  - intros [->| ->].
    + left. left. apply (yields_self _ _ un_mezzo_with_one).
    + left. right. apply (yields_self _ _ un_mezzo_fem_branch).
Qed.

End UnMezzo.

(** C3. For the fraction token with numerator "un" and denominator "mezzo"
    (tagged [add_root] or [ordinal]) the masculine grammar produces the
    single word "mezzo" and nothing else, the branch added for the
    feminine produces "mezza" and nothing else, the feminine grammar
    produces these two words, and no grammar produces "un mezzo". *)
Theorem fraction_un_mezzo
        (accents : list (str * str)) (apocope_rule gender_rule : Fst)
        (tag : str) :
  tag = lit "add_root" \/ tag = lit "ordinal" ->
  yields (Fraction.graph_masc accents apocope_rule
            (fraction_token "un" "mezzo" tag)) "mezzo"
  /\ yields (Fraction.fraction_with_one_fem_branch
               (fraction_token "un" "mezzo" tag)) "mezza"
  /\ (forall z,
         In z (Fraction.graph_fem accents apocope_rule gender_rule
                 (fraction_token "un" "mezzo" tag)) <->
         z = lit "mezzo" \/ z = lit "mezza")
  /\ ~ In (lit "un mezzo")
          (Fraction.graph accents apocope_rule gender_rule
             (fraction_token "un" "mezzo" tag)).
Proof.
  intros Ht.
  assert (Hm : yields (Fraction.graph_masc accents apocope_rule
                         (fraction_token "un" "mezzo" tag)) "mezzo").
  { intros z.
    rewrite (token_graph_masc accents apocope_rule "un" "mezzo" tag z).
    apply (un_mezzo_fraction accents apocope_rule tag Ht z). }
  assert (Hf : forall z,
             In z (Fraction.graph_fem accents apocope_rule gender_rule
                     (fraction_token "un" "mezzo" tag)) <->
             z = lit "mezzo" \/ z = lit "mezza").
  { intros z.
    rewrite (token_graph_fem accents apocope_rule gender_rule
                             "un" "mezzo" tag z).
    apply (un_mezzo_fraction_fem accents apocope_rule gender_rule tag Ht z). }
  split; [exact Hm|]. split; [exact (un_mezzo_fem_branch tag Ht)|].
  split; [exact Hf|].
  unfold Fraction.graph. rewrite in_union. intros [H|H].
  - apply (proj1 (Hm _)) in H. discriminate H.
  - apply (proj1 (Hf _)) in H as [H|H]; discriminate H.
Qed.

Lemma fraction_un_mezzo_witness :
  yields (Fraction.graph_masc Sample.accents Apocope.rule
            (fraction_token "un" "mezzo" "ordinal")) "mezzo"
  /\ ~ In (lit "un mezzo")
          (Fraction.graph Sample.accents Apocope.rule Gender.rule
             (fraction_token "un" "mezzo" "ordinal")).
Proof.
  destruct (fraction_un_mezzo Sample.accents Apocope.rule Gender.rule
                              "ordinal" (or_intror eq_refl))
    as [H1 [_ [_ H4]]].
  split; [exact H1 | exact H4].
Defined.

Lemma no_output_nil (outs : list str) : (forall z, ~ In z outs) -> outs = [].
Proof.
  intros H. destruct outs as [|z outs]; [reflexivity|].
  destruct (H z). left. reflexivity.
Qed.

(** C4, evaluated on the code.  The plural ending is read after the
    closing delimiter of the token instead of replacing the last letter
    of the denominator: the plural denominator rejects the well-formed
    denominator "quinto", reads it when a stray "o" follows the token and
    then writes "quintoi"; the well-formed token with numerator "due" and
    denominator "quinto" has no path at all, whatever the accent table
    and the rules are. *)
Theorem fraction_plural_reads_past_token :
  Fraction.denominator_plural
    ("denominator: " ++ dq :: "quinto" ++ Fraction.features "ordinal")
  = []
  /\ Fraction.denominator_plural
       (("denominator: " ++ dq :: "quinto" ++ Fraction.features "ordinal")
          ++ "o")
     = [lit "quintoi"]
  /\ (forall accents apocope_rule gender_rule,
         Fraction.graph accents apocope_rule gender_rule
                        (fraction_token "due" "quinto" "ordinal") = []).
Proof.
  split; [|split].
  - vm_compute. reflexivity.
  - vm_compute. reflexivity.
  - intros accents apocope_rule gender_rule. apply no_output_nil. intros z.
    apply token_plural_no_path; [reflexivity|reflexivity|auto|discriminate].
Qed.

(** ** The ordinal tagger: the elision in front of "ottavo" *)

Lemma ottavo_sites (done rest o rem : str) :
  In (o, rem)
     (sites (delete (accep "o")) any_context (before "ottavo") done rest) <->
  rest = "o"%char :: rem /\ o = [] /\ starts_with "ottavo" rem = true.
Proof.
  rewrite in_sites, starts_with_spec. split.
  - intros [_ [m [_ [-> [Hr Ho]]]]].
    apply rmatch_before in Hr. apply in_delete_lit in Ho as [-> ->]. auto.
  - intros [-> [-> Hr]]. split; [apply lmatch_any|].
    exists (lit "o"). repeat split.
    + discriminate.
    + apply rmatch_before. exact Hr.
    + apply in_delete_lit. auto.
Qed.

(** The rewrite of line 114 is the function [drop_o_before_ottavo]. *)
Lemma ottavo_rewrites (s done y : str) :
  Rewrites (delete (accep "o")) any_context (before "ottavo") done s y <->
  y = drop_o_before_ottavo s.
Proof.
  revert done y. induction s as [|c r IH]; intros done y.
  - apply rewrites_nil.
  - cbn [drop_o_before_ottavo].
    destruct (Ascii.eqb c "o" && starts_with "ottavo" r) eqn:E.
    + apply andb_true_iff in E as [Ec Er]. apply Ascii.eqb_eq in Ec. subst c.
      assert (Hs : In ([], r) (sites (delete (accep "o")) any_context
                                     (before "ottavo") done ("o"%char :: r)))
        by (apply ottavo_sites; auto).
      split.
      * intros H. apply rewrites_inv in H
          as [[E' _]|[[o [rem [y' [Hs' [H ->]]]]]|[c' [r' [y' [_ [E' _]]]]]]].
        -- discriminate.
        -- apply ottavo_sites in Hs' as [E' [-> _]]. injection E' as <-.
           apply IH in H. exact H.
        -- rewrite E' in Hs. destruct Hs.
      * intros ->. change (drop_o_before_ottavo r)
          with ([] ++ drop_o_before_ottavo r).
        eapply rw_site; [exact Hs|]. apply IH. reflexivity.
    + assert (Hs : sites (delete (accep "o")) any_context
                         (before "ottavo") done (c :: r) = []).
      { apply sites_empty. intros o rem H.
        apply ottavo_sites in H as [E' [_ Hr]]. injection E' as -> ->.
        rewrite Hr in E. discriminate E. }
      split.
      * intros H. apply rewrites_inv in H
          as [[E' _]|[[o [rem [y' [Hs' _]]]]|[c' [r' [y' [E' [_ [H ->]]]]]]]].
        -- discriminate.
        -- rewrite Hs in Hs'. destruct Hs'.
        -- injection E' as <- <-. apply IH in H. subst y'. reflexivity.
      * intros ->. apply rw_copy; [exact Hs|]. apply IH. reflexivity.
Qed.

Lemma ottavo_elision_spec (s : str) :
  yields (Ordinal.ottavo_elision s) (drop_o_before_ottavo s).
Proof.
  intros y. unfold Ordinal.ottavo_elision. rewrite in_cdrewrite.
  apply ottavo_rewrites.
Qed.

(** How an output of [drop_o_before_ottavo] can begin. *)
Lemma drop_o_head (s y : str) (c : ascii) :
  drop_o_before_ottavo s = c :: y ->
  (exists r, s = c :: r /\ y = drop_o_before_ottavo r
             /\ (Ascii.eqb c "o" && starts_with "ottavo" r = false))
  \/ (exists v, s = "oottavo" ++ v /\ c = "o"%char
                /\ y = "ttav" ++ drop_o_before_ottavo ("o"%char :: v)).
Proof.
  destruct s as [|c' r]; [discriminate|]. cbn [drop_o_before_ottavo].
  destruct (Ascii.eqb c' "o" && starts_with "ottavo" r) eqn:E.
  - intros H. right. apply andb_true_iff in E as [Ec Er].
    apply Ascii.eqb_eq in Ec. subst c'.
    apply starts_with_spec in Er as [v ->]. exists v.
    simpl in H. injection H as <- <-. auto.
  - intros H. injection H as <- <-. left. exists r. auto.
Qed.

Lemma drop_o_starts (s : str) :
  starts_with "oottavo" (drop_o_before_ottavo s) = true ->
  starts_with "ooottavo" s = true.
Proof.
  intros H. apply starts_with_spec in H as [rest H]. simpl in H.
  apply drop_o_head in H as [[r1 [-> [H1 F1]]]|[v [_ [_ H]]]];
    [|discriminate H].
  simpl in F1. symmetry in H1.
  apply drop_o_head in H1 as [[r2 [-> [H2 _]]]|[v [-> _]]];
    [|reflexivity].
  symmetry in H2.
  apply drop_o_head in H2 as [[r3 [-> [H3 _]]]|[v [_ [E _]]]];
    [|discriminate E].
  symmetry in H3.
  apply drop_o_head in H3 as [[r4 [-> [H4 _]]]|[v [_ [E _]]]];
    [|discriminate E].
  symmetry in H4.
  apply drop_o_head in H4 as [[r5 [-> [H5 _]]]|[v [_ [E _]]]];
    [|discriminate E].
  symmetry in H5.
  apply drop_o_head in H5 as [[r6 [-> [H6 _]]]|[v [_ [E _]]]];
    [|discriminate E].
  symmetry in H6.
  apply drop_o_head in H6 as [[r7 [-> _]]|[v [-> _]]];
    simpl in F1; discriminate F1.
Qed.

Lemma drop_o_contains (p s : str) :
  contains p (drop_o_before_ottavo s) = true ->
  exists u t, s = u ++ t /\ starts_with p (drop_o_before_ottavo t) = true.
Proof.
  induction s as [|c r IH].
  - simpl. rewrite orb_false_r. intros H. exists [], []. auto.
  - cbn [drop_o_before_ottavo].
    destruct (Ascii.eqb c "o" && starts_with "ottavo" r) eqn:E.
    + intros H. destruct (IH H) as [u [t [-> Ht]]]. exists (c :: u), t. auto.
    + intros H.
      change (contains p (c :: drop_o_before_ottavo r))
        with (starts_with p (c :: drop_o_before_ottavo r)
              || contains p (drop_o_before_ottavo r)) in H.
      apply orb_true_iff in H as [H|H].
      * exists [], (c :: r). split; [reflexivity|].
        cbn [drop_o_before_ottavo]. rewrite E. exact H.
      * destruct (IH H) as [u [t [-> Ht]]]. exists (c :: u), t. auto.
Qed.

Lemma drop_o_no_o_before_ottavo (s : str) :
  contains "ooottavo" s = false ->
  contains "oottavo" (drop_o_before_ottavo s) = false.
Proof.
  intros H. destruct (contains "oottavo" (drop_o_before_ottavo s)) eqn:C;
    [|reflexivity].
  apply drop_o_contains in C as [u [t [-> Ht]]].
  apply drop_o_starts in Ht. apply starts_with_spec in Ht as [v ->].
  assert (C : contains "ooottavo" (u ++ "ooottavo" ++ v) = true)
    by (apply contains_spec; eauto).
  congruence.
Qed.

(** The output for [u ++ w] is an image of [u], no longer than [u],
    followed by the output for [w]; in front of "ottavo" the "o" is gone. *)
Lemma drop_o_app (u w : str) :
  exists a, drop_o_before_ottavo (u ++ w) = a ++ drop_o_before_ottavo w
            /\ List.length a <= List.length u.
Proof.
  induction u as [|c u [a [E Ha]]].
  - exists []. auto.
  - simpl app. cbn [drop_o_before_ottavo].
    destruct (Ascii.eqb c "o" && starts_with "ottavo" (u ++ w)).
    + exists a. simpl. split; [exact E | lia].
    + exists (c :: a). simpl. split; [congruence | lia].
Qed.

Lemma drop_o_at_ottavo (v : str) :
  drop_o_before_ottavo ("oottavo" ++ v) = drop_o_before_ottavo ("ottavo" ++ v).
Proof.
  change ("oottavo" ++ v) with ("o"%char :: "ottavo" ++ v).
  cbn [drop_o_before_ottavo]. rewrite starts_with_app. reflexivity.
Qed.

(** C9. The last rewrite of the ordinal grammar is applied to the assembled
    ordinal text and has exactly one output, in which every "o" that stood
    immediately in front of "ottavo" is left out and everything else is
    kept: the output for a text [u ++ "o" ++ "ottavo" ++ v] is an image of
    [u] followed by the output for ["ottavo" ++ v]; and when the assembled
    text has no doubled "o" in front of "ottavo", the output has no "o" in
    front of "ottavo". *)
Theorem ordinal_ottavo_elision :
  (forall cardinal_graph digit_tsv teens_tsv twenties_tsv ties_tsv
          hundreds_tsv accents deterministic x y,
      In y (Ordinal.ordinal_graph cardinal_graph digit_tsv teens_tsv
              twenties_tsv ties_tsv hundreds_tsv accents deterministic x) <->
      exists s,
        In s (Ordinal.ordinal_split cardinal_graph digit_tsv teens_tsv
                twenties_tsv ties_tsv hundreds_tsv accents deterministic x)
        /\ y = drop_o_before_ottavo s)
  /\ (forall s, yields (Ordinal.ottavo_elision s) (drop_o_before_ottavo s))
  /\ (forall u v y,
         In y (Ordinal.ottavo_elision (u ++ "oottavo" ++ v)) ->
         exists a b, y = a ++ b /\ List.length a <= List.length u
                     /\ In b (Ordinal.ottavo_elision ("ottavo" ++ v)))
  /\ (forall s y,
         In y (Ordinal.ottavo_elision s) ->
         contains "ooottavo" s = false ->
         contains "oottavo" y = false).
Proof.
  split; [|split; [|split]].
  - intros. unfold Ordinal.ordinal_graph, optimize. rewrite in_compose.
    split; intros [s [Hs H]]; exists s; (split; [exact Hs|]).
    + apply (yields_only _ _ _ (ottavo_elision_spec s)). exact H.
    + subst y. apply (yields_self _ _ (ottavo_elision_spec s)).
  - exact ottavo_elision_spec.
  - intros u v y Hy.
    apply (yields_only _ _ _ (ottavo_elision_spec _)) in Hy. subst y.
    destruct (drop_o_app u ("oottavo" ++ v)) as [a [E Ha]].
    rewrite drop_o_at_ottavo in E.
    exists a, (drop_o_before_ottavo ("ottavo" ++ v)).
    split; [exact E|]. split; [exact Ha|].
    apply (yields_self _ _ (ottavo_elision_spec _)).
  - intros s y Hy Hs.
    apply (yields_only _ _ _ (ottavo_elision_spec s)) in Hy. subst y.
    apply drop_o_no_o_before_ottavo. exact Hs.
Qed.

Lemma ordinal_ottavo_elision_witness :
  In (lit "ventesimottavo") (Ordinal.ottavo_elision "ventesimoottavo")
  /\ contains "ooottavo" "ventesimoottavo" = false
  /\ contains "oottavo" "ventesimottavo" = false.
Proof.
  assert (H : In (lit "ventesimottavo")
                 (Ordinal.ottavo_elision "ventesimoottavo"))
    by (vm_compute; left; reflexivity).
  split; [exact H|]. split; [reflexivity|].
  exact (proj2 (proj2 (proj2 ordinal_ottavo_elision))
               "ventesimoottavo" "ventesimottavo" H eq_refl).
Defined.

(** ** The ordinal tagger: the thousands *)

Lemma has_ws_false (x u1 u2 : str) :
  has_ws x = false -> x = u1 ++ u2 -> ws_head u2 = false.
Proof.
  intros H ->. destruct (ws_head u2) eqn:E; [|reflexivity].
  assert (C : has_ws (u1 ++ u2) = true); [|congruence].
  apply existsb_exists. exists (u1, u2). split; [|exact E].
  apply splits_spec. reflexivity.
Qed.

Lemma ws_head_before_space (u v : str) :
  u <> [] -> ws_head u = false -> ws_head (u ++ " "%char :: v) = false.
Proof.
  intros Hu H. destruct u as [|c u]; [congruence|]. simpl in *.
  apply orb_false_iff in H as [H1 H2]. rewrite H1. simpl.
  destruct u as [|d u]; simpl in *.
  - rewrite andb_false_r. reflexivity.
  - exact H2.
Qed.

(** The sites of a rule that deletes white space begin with white space. *)
Lemma delete_space_sites (l r : context) (done rest o rem : str) :
  In (o, rem) (sites delete_space l r done rest) ->
  ws_head rest = true /\ o = [].
Proof.
  intros H. apply in_sites in H as [_ [m [Hm [-> [_ Ho]]]]].
  apply in_delete_space in Ho as [Hw ->]. split; [|reflexivity].
  apply ws_star_head; assumption.
Qed.

Lemma delete_space_copy (l r : context) (x done : str) :
  has_ws x = false ->
  forall y, Rewrites delete_space l r done x y <-> y = x.
Proof.
  intros Hx. apply rewrites_copy. intros u1 u2 E _.
  apply sites_empty. intros o rem H. apply delete_space_sites in H as [H _].
  rewrite (has_ws_false x u1 u2 Hx E) in H. discriminate H.
Qed.

(** Line 92 on a one-word prefix: the space in front of "millesimo" goes. *)
Lemma thousands_merge_rule (c : str) :
  has_ws c = false ->
  yields (cdrewrite delete_space any_context (before "millesimo")
                    (c ++ " millesimo"))
         (c ++ "millesimo").
Proof.
  intros Hc y. rewrite in_cdrewrite, rewrites_copy_prefix.
  - assert (Hs : In ([], lit "millesimo")
                    (sites delete_space any_context (before "millesimo")
                           ([] ++ c) " millesimo")).
    { apply in_sites. split; [apply lmatch_any|]. exists (lit " ").
      split; [discriminate|]. split; [reflexivity|]. split.
      - apply rmatch_before. exists []. reflexivity.
      - apply in_delete_space. auto. }
    split.
    + intros [y' [-> H]]. f_equal.
      apply rewrites_inv in H
        as [[E _]|[[o [rem [y'' [Hs' [H ->]]]]]|[c' [r' [y'' [_ [E _]]]]]]].
      * discriminate.
      * assert (Ho := Hs'). apply delete_space_sites in Ho as [_ ->].
        apply in_sites in Hs' as [_ [m [Hm [E [_ Hd]]]]].
        apply in_delete_space in Hd as [Hw _].
        destruct m as [|a m]; [congruence|]. simpl in E.
        injection E as <- E.
        assert (m = [] /\ rem = lit "millesimo") as [-> ->].
        { apply (ws_star_no_head m rem "millesimo"); auto. }
        apply delete_space_copy in H; [|reflexivity]. subst y''. reflexivity.
      * rewrite E in Hs. destruct Hs.
    + intros ->. exists (lit "millesimo"). split; [reflexivity|].
      change (lit "millesimo") with ([] ++ lit "millesimo") at 2.
      eapply rw_site; [exact Hs|].
      apply delete_space_copy; reflexivity.
  - intros u1 u2 E H2. apply sites_empty. intros o rem H.
    apply delete_space_sites in H as [H _].
    assert (F : ws_head (u2 ++ " millesimo") = false).
    { apply (ws_head_before_space u2 "millesimo"); [exact H2|].
      exact (has_ws_false c u1 u2 Hc E). }
    rewrite F in H. discriminate H.
Qed.

Lemma in_thousands (x y : str) :
  In y (Ordinal.thousands x) <-> x = lit "mille" /\ y = lit "millesimo".
Proof. apply in_cross_lit. Qed.

Section Thousands.

Variable cardinal_graph : Fst.
Variables digit_tsv teens_tsv twenties_tsv ties_tsv hundreds_tsv
  : list (str * str).
Variable accents : list (str * str).

Let accent_rule : Fst :=
  cdrewrite (string_map accents) any_context any_context.
Let merge_rule : Fst :=
  cdrewrite delete_space any_context (before "millesimo").
Let hundred_component : Fst :=
  Ordinal.graph_hundred_component digit_tsv teens_tsv twenties_tsv ties_tsv
                                  hundreds_tsv.
Let series : bool -> Fst :=
  Ordinal.graph_thousands_series cardinal_graph digit_tsv teens_tsv
                                 twenties_tsv ties_tsv hundreds_tsv accents.

Lemma in_one_to_one_thousand (x y : str) :
  In y (Ordinal.one_to_one_thousand cardinal_graph x) <->
  y = x /\ exists n, 1 <= n <= 999 /\ In x (cardinal_graph (str_of_nat n)).
Proof.
  unfold Ordinal.one_to_one_thousand, Ordinal.get_one_to_one_thousand,
    optimize.
  rewrite in_project_output. split.
  - intros [-> [i [Hi Hx]]]. split; [reflexivity|].
    apply in_map_iff in Hi as [n [<- Hn]]. apply in_seq in Hn.
    exists n. split; [lia | exact Hx].
  - intros [-> [n [Hn Hx]]]. split; [reflexivity|].
    exists (str_of_nat n). split; [|exact Hx].
    apply in_map. apply in_seq. lia.
Qed.

Lemma in_graph_thousands_spaced (x z : str) :
  In z (Ordinal.graph_thousands_spaced cardinal_graph accents x) <->
  exists c c', x = c ++ " mille"
               /\ (exists n, 1 <= n <= 999
                             /\ In c (cardinal_graph (str_of_nat n)))
               /\ In c' (accent_rule c)
               /\ z = c' ++ " millesimo".
Proof.
  unfold Ordinal.graph_thousands_spaced, strip_accent. split.
  - intros H. apply in_concat in H as [x1 [x2 [y1 [y2 [-> [-> [H1 H2]]]]]]].
    apply in_compose in H1 as [c [Hc Hc']].
    apply in_one_to_one_thousand in Hc as [-> Hn].
    apply in_concat in H2 as [x3 [x4 [y3 [y4 [-> [-> [H3 H4]]]]]]].
    apply in_NEMO_SPACE in H3 as [-> ->].
    apply in_thousands in H4 as [-> ->].
    exists x1, y1. auto.
  - intros [c [c' [-> [Hn [Hc' ->]]]]].
    concat_intro c (lit " mille") c' (lit " millesimo").
    + apply in_compose. exists c. split; [|exact Hc'].
      apply in_one_to_one_thousand. auto.
    + concat_intro (lit " ") (lit "mille") (lit " ") (lit "millesimo").
      * apply in_NEMO_SPACE. auto.
      * apply in_thousands. auto.
Qed.

Variables (n : nat) (c : str).
Hypothesis n_range : 1 <= n <= 999.
Hypothesis c_cardinal : In c (cardinal_graph (str_of_nat n)).

Lemma thousands_prefix_outputs (y : str) :
  In y (Ordinal.graph_thousands_prefix cardinal_graph accents
                                       (c ++ " mille")) <->
  exists c', In c' (accent_rule c) /\ In y (merge_rule (c' ++ " millesimo")).
Proof.
  unfold Ordinal.graph_thousands_prefix, Ordinal.graph_thousands_merged.
  rewrite in_union, in_compose. split.
  - intros [[z [Hz Hy]]|H].
    + apply in_graph_thousands_spaced in Hz as [c0 [c' [E [_ [Hc' ->]]]]].
      apply app_inv_tail in E. subst c0. eauto.
    + apply in_thousands in H as [E _]. exfalso.
      apply (f_equal (@List.length ascii)) in E.
      rewrite length_app in E. simpl in E. lia.
  - intros [c' [Hc' Hy]]. left. exists (c' ++ " millesimo").
    split; [|exact Hy]. apply in_graph_thousands_spaced.
    exists c, c'. repeat split; eauto.
Qed.

Lemma thousands_series_added (y : str) (x : str) :
  In y (series true x) -> In y (series false x).
Proof.
  unfold series, Ordinal.graph_thousands_series. intros H.
  apply in_union. left. exact H.
Qed.

Lemma thousands_series_boundary (p : str) :
  In p (hundred_component c) ->
  In (p ++ " millesimo") (series false (c ++ " mille")).
Proof.
  intros Hp. unfold series, Ordinal.graph_thousands_series.
  apply in_union. right. unfold Ordinal.graph_thousands_boundary.
  concat_intro c (lit " mille") p (lit " millesimo").
  - apply in_compose. exists c. split; [|exact Hp].
    apply in_one_to_one_thousand. eauto.
  - concat_intro (lit " ") (lit "mille") (lit " ") (lit "millesimo").
    + apply in_NEMO_SPACE. auto.
    + apply in_thousands. auto.
Qed.

End Thousands.

(** C6, as the code has it.  For the cardinal text [c] of a number from 1
    to 999, the thousand ordinal read from [c ++ " mille"] is made of an
    accent-stripped image [c'] of [c], the word "millesimo" and the
    rewrite that deletes white space in front of "millesimo": for a
    one-word [c'] that is exactly [c' ++ "millesimo"].  In
    non-deterministic mode every deterministic output stays and a
    spelling with a word boundary is added: [p ++ " millesimo"] for each
    rendering [p] of [c] by the hundred component, that is, with the
    prefix in the ordinal words of the tables. *)
Theorem thousand_ordinal_formation
        (cardinal_graph : Fst)
        (digit_tsv teens_tsv twenties_tsv ties_tsv hundreds_tsv
           accents : list (str * str))
        (n : nat) (c : str) :
  1 <= n <= 999 ->
  In c (cardinal_graph (str_of_nat n)) ->
  (forall y,
      In y (Ordinal.graph_thousands_prefix cardinal_graph accents
                                           (c ++ " mille")) <->
      exists c',
        In c' (cdrewrite (string_map accents) any_context any_context c)
        /\ In y (cdrewrite delete_space any_context (before "millesimo")
                           (c' ++ " millesimo")))
  /\ (forall c',
         In c' (cdrewrite (string_map accents) any_context any_context c) ->
         has_ws c' = false ->
         yields (cdrewrite delete_space any_context (before "millesimo")
                           (c' ++ " millesimo"))
                (c' ++ "millesimo")
         /\ In (c' ++ "millesimo")
               (Ordinal.graph_thousands_prefix cardinal_graph accents
                                               (c ++ " mille")))
  /\ (forall x y,
         In y (Ordinal.graph_thousands_series
                 cardinal_graph digit_tsv teens_tsv twenties_tsv ties_tsv
                 hundreds_tsv accents true x) ->
         In y (Ordinal.graph_thousands_series
                 cardinal_graph digit_tsv teens_tsv twenties_tsv ties_tsv
                 hundreds_tsv accents false x))
  /\ (forall p,
         In p (Ordinal.graph_hundred_component
                 digit_tsv teens_tsv twenties_tsv ties_tsv hundreds_tsv c) ->
         In (p ++ " millesimo")
            (Ordinal.graph_thousands_series
               cardinal_graph digit_tsv teens_tsv twenties_tsv ties_tsv
               hundreds_tsv accents false (c ++ " mille"))).
Proof.
  intros Hn Hc. split; [|split; [|split]].
  - intros y. exact (thousands_prefix_outputs cardinal_graph accents n c
                                              Hn Hc y).
  - intros c' Hc' Hw. split; [exact (thousands_merge_rule c' Hw)|].
    apply (thousands_prefix_outputs cardinal_graph accents n c Hn Hc).
    exists c'. split; [exact Hc'|].
    apply (yields_self _ _ (thousands_merge_rule c' Hw)).
  - intros x y. apply thousands_series_added.
  - intros p. apply thousands_series_boundary with (n := n); assumption.
Qed.

Lemma thousand_ordinal_formation_witness :
  1 <= 23 <= 999
  /\ In ("ventitr" ++ ["195"; "169"]%char)
        (Sample.cardinal_graph (str_of_nat 23))
  /\ In (lit "ventitremillesimo")
        (Ordinal.graph_thousands_prefix
           Sample.cardinal_graph Sample.accents
           (("ventitr" ++ ["195"; "169"]%char) ++ " mille")).
Proof.
  assert (Hn : 1 <= 23 <= 999) by lia.
  assert (Hc : In ("ventitr" ++ ["195"; "169"]%char)
                  (Sample.cardinal_graph (str_of_nat 23)))
    by (vm_compute; left; reflexivity).
  split; [exact Hn|]. split; [exact Hc|].
  destruct (thousand_ordinal_formation
              Sample.cardinal_graph Sample.digit_tsv Sample.teens_tsv
              Sample.twenties_tsv Sample.ties_tsv Sample.hundreds_tsv
              Sample.accents 23 ("ventitr" ++ ["195"; "169"]%char) Hn Hc)
    as [_ [H _]].
  apply (H (lit "ventitre")).
  - vm_compute. left. reflexivity.
  - reflexivity.
Defined.

(** ** The ordinal tagger: abbreviation and tagged token *)

Lemma in_delete_period (x y : str) :
  In y (Ordinal.delete_period x) <-> (x = [] \/ x = lit ".") /\ y = [].
Proof.
  unfold Ordinal.delete_period. rewrite in_closure01, in_delete_lit. tauto.
Qed.

Lemma in_abbreviation (sign tag a f : str) :
  In f ((Ordinal.delete_period <+> cross (accep sign) tag) a) <->
  (a = sign \/ a = "." ++ sign) /\ f = tag.
Proof.
  rewrite in_concat. split.
  - intros [x1 [x2 [y1 [y2 [-> [-> [H1 H2]]]]]]].
    apply in_delete_period in H1 as [[->| ->] ->];
      apply in_cross_lit in H2 as [-> ->]; auto.
  - intros [[->| ->] ->].
    + exists [], sign, [], tag. repeat split.
      * apply in_delete_period. auto.
      * apply in_cross_lit. auto.
    + exists (lit "."), sign, [], tag. repeat split.
      * apply in_delete_period. auto.
      * apply in_cross_lit. auto.
Qed.

(** The three markers, with or without a period in front, and their tags. *)
Lemma in_convert_abbreviation (a f : str) :
  In f (Ordinal.convert_abbreviation a) <->
  exists sign,
    (a = sign \/ a = "." ++ sign)
    /\ ((sign = Ordinal.ordinal_masc_sign /\ f = Ordinal.masc)
        \/ (sign = Ordinal.ordinal_fem_sign /\ f = Ordinal.fem)
        \/ (sign = Ordinal.ordinal_apocope_sign /\ f = Ordinal.apocope)).
Proof.
  unfold Ordinal.convert_abbreviation, Ordinal.accept_masc, Ordinal.accep_fem,
    Ordinal.accep_apocope.
  rewrite !in_union, !in_abbreviation. split.
  - intros [[Ha ->]|[[Ha ->]|[Ha ->]]]; eexists; split; eauto.
  - intros [sign [Ha [[-> ->]|[[-> ->]|[-> ->]]]]]; auto.
Qed.



Section TaggedOrdinal.

Variable cardinal_graph : Fst.
Variables digit_tsv teens_tsv twenties_tsv ties_tsv hundreds_tsv
  : list (str * str).
Variable accents : list (str * str).
Variable deterministic : bool.

Let ordinal_graph : Fst :=
  Ordinal.ordinal_graph cardinal_graph digit_tsv teens_tsv twenties_tsv
                        ties_tsv hundreds_tsv accents deterministic.
Let graph : Fst :=
  Ordinal.graph cardinal_graph digit_tsv teens_tsv twenties_tsv
                ties_tsv hundreds_tsv accents deterministic.

Lemma in_ordinal_graph_tagged (x t : str) :
  In t (graph x) <->
  exists n a o f, x = n ++ a /\ In o (ordinal_graph n)
                  /\ In f (Ordinal.convert_abbreviation a)
                  /\ t = ordinal_token o f.
Proof.
  unfold graph, Ordinal.graph. fold ordinal_graph. split.
  - intros H.
    apply in_concat in H as [x1 [x2 [y1 [y2 [-> [-> [H1 H2]]]]]]].
    apply in_insert in H1 as [-> ->].
    apply in_concat in H2 as [x3 [x4 [y3 [y4 [-> [-> [H3 H4]]]]]]].
    apply in_concat in H4 as [x5 [x6 [y5 [y6 [-> [-> [H5 H6]]]]]]].
    apply in_insert in H5 as [-> ->].
    apply in_concat in H6 as [x7 [x8 [y7 [y8 [-> [-> [H7 H8]]]]]]].
    apply in_insert in H7 as [-> ->].
    apply in_concat in H8 as [x9 [x10 [y9 [y10 [-> [-> [H9 H10]]]]]]].
    apply in_insert in H10 as [-> ->].
    exists x3, x9, y3, y9. rewrite app_nil_r. simpl.
    split; [reflexivity|]. split; [exact H3|]. split; [exact H9|].
    unfold ordinal_token. flat_goal. reflexivity.
  - intros [n [a [o [f [-> [Ho [Hf ->]]]]]]].
    concat_intro (@nil ascii) (n ++ a) ("integer: " ++ [dq])
                 (o ++ dq :: " morphosyntactic_features: " ++ quoted f).
    { unfold ordinal_token. flat_goal. reflexivity. }
    { apply in_insert. auto. }
    concat_intro n a o (dq :: " morphosyntactic_features: " ++ quoted f).
    { exact Ho. }
    concat_intro (@nil ascii) a [dq] (" morphosyntactic_features: " ++ quoted f).
    { apply in_insert. auto. }
    concat_intro (@nil ascii) a (" morphosyntactic_features: " ++ [dq])
                 (f ++ [dq]).
    { apply in_insert. auto. }
    concat_intro a (@nil ascii) f [dq].
    { rewrite app_nil_r. reflexivity. }
    { exact Hf. }
    apply in_insert. auto.
Qed.

Hypothesis ordinal_graph_injective :
  forall x x' y, In y (ordinal_graph x) -> In y (ordinal_graph x') -> x = x'.
Hypothesis ordinal_graph_no_quote :
  forall x y, In y (ordinal_graph x) -> forallb NEMO_NOT_QUOTE y = true.


End TaggedOrdinal.


(** The sample grammar satisfies the two conditions. *)








(** ** The apocope rule and the fraction numerator *)

Lemma apocope_sites (done rest o rem : str) :
  In (o, rem) (sites (cross (accep "uno") "un") any_context
                     (in_context (NEMO_SPACE <+> NEMO_CHAR)) done rest) ->
  rest = "uno" ++ rem /\ o = lit "un" /\ exists ch v, rem = " "%char :: ch :: v.
Proof.
  intros H. apply in_sites in H as [_ [m [_ [-> [Hr Ho]]]]].
  apply in_cross_lit in Ho as [-> ->].
  apply rmatch_in_context in Hr as [u [v [-> Hu]]].
  apply accepts_true in Hu as [y Hu].
  apply in_concat in Hu as [x1 [x2 [y1 [y2 [-> [_ [H1 H2]]]]]]].
  apply in_NEMO_SPACE in H1 as [-> _].
  unfold NEMO_CHAR in H2.
  destruct x2 as [|ch [|ch' x2]]; [destruct H2| |destruct H2].
  split; [reflexivity|]. split; [reflexivity|].
  exists ch, v. reflexivity.
Qed.



(** Without a following word nothing is rewritten. *)
Lemma apocope_single_word (n : str) :
  has_ws n = false -> yields (Apocope.rule n) n.
Proof.
  intros Hn y. unfold Apocope.rule. rewrite in_cdrewrite.
  apply rewrites_copy. intros u1 u2 E _. apply sites_empty. intros o rem H.
  apply apocope_sites in H as [-> [_ [ch [v ->]]]].
  rewrite app_assoc in E.
  assert (F := has_ws_false n _ _ Hn E). discriminate F.
Qed.

Section NumeratorApocope.

Variable accents : list (str * str).
Variables n rest : str.
Hypothesis n_not_quote : forallb NEMO_NOT_QUOTE n = true.
Hypothesis n_not_un : n <> lit "un".

Let token := "numerator: " ++ quoted n ++ " " ++ rest.


End NumeratorApocope.



(** ** The merge pipeline of the fraction verbalizer *)

Lemma space_inside_cons (c : ascii) (s : str) :
  space_inside (c :: s) = false ->
  space_inside s = false /\ (s <> [] -> Ascii.eqb c " " = false).
Proof.
  destruct s as [|d s]; [intros _; split; [reflexivity|congruence]|].
  cbn [space_inside]. intros H. apply orb_false_iff in H as [H1 H2]. auto.
Qed.

Lemma space_inside_cons_intro (c : ascii) (s : str) :
  space_inside s = false -> (s <> [] -> Ascii.eqb c " " = false) ->
  space_inside (c :: s) = false.
Proof.
  intros H1 H2. destruct s as [|d s]; [reflexivity|].
  cbn [space_inside]. apply orb_false_iff. split; [|exact H1].
  apply H2. discriminate.
Qed.

Lemma space_inside_suffix (a b : str) :
  space_inside (a ++ b) = false -> space_inside b = false.
Proof.
  induction a as [|c a IH]; [auto|]. simpl app. intros H.
  apply space_inside_cons in H as [H _]. auto.
Qed.

Lemma space_inside_app_free (o y : str) :
  existsb (Ascii.eqb " ") o = false -> space_inside y = false ->
  space_inside (o ++ y) = false.
Proof.
  induction o as [|c o IH]; [auto|]. simpl. intros Ho Hy.
  apply orb_false_iff in Ho as [Hc Ho].
  apply space_inside_cons_intro; [auto|]. intros _.
  rewrite Ascii.eqb_sym. exact Hc.
Qed.

Lemma space_inside_contains (p : str) (s : str) :
  space_inside s = false -> contains (" "%char :: "e"%char :: p) s = false.
Proof.
  intros H. apply contains_false. intros u v E. subst s.
  apply space_inside_suffix in H. simpl in H. discriminate H.
Qed.

(** A rule with the empty left context does not look at what it wrote. *)
Lemma sites_any_left (tau : Fst) (r : context) (done done' rest : str) :
  sites tau any_context r done rest = sites tau any_context r done' rest.
Proof. unfold sites. rewrite !lmatch_any. reflexivity. Qed.

Lemma rewrites_any_left (tau : Fst) (r : context) (done done' rest y : str) :
  Rewrites tau any_context r done rest y ->
  Rewrites tau any_context r done' rest y.
Proof.
  intros H. revert done'.
  induction H as [done|done rest o rem y Hs H IH|done c rest y Hs H IH];
    intros done'.
  - constructor.
  - eapply rw_site; [|apply IH].
    rewrite (sites_any_left tau r done' done). exact Hs.
  - apply rw_copy; [|apply IH].
    rewrite (sites_any_left tau r done' done). exact Hs.
Qed.

(** Stage (i): the conjunction becomes the linking letter. *)
Lemma conjunction_sites (done rest o rem : str) :
  In (o, rem) (sites (cross (accep " e ") "i") any_context any_context
                     done rest) <->
  rest = " e " ++ rem /\ o = lit "i".
Proof.
  rewrite in_sites. split.
  - intros [_ [m [_ [-> [_ Ho]]]]]. apply in_cross_lit in Ho as [-> ->]. auto.
  - intros [-> ->]. split; [apply lmatch_any|]. exists (lit " e ").
    split; [discriminate|]. split; [reflexivity|].
    split; [apply rmatch_any|]. apply in_cross_lit. auto.
Qed.

Lemma merge_conjunction_at (u v y : str) :
  existsb (Ascii.eqb " ") u = false ->
  (In y (Fraction.merge_conjunction (u ++ " e " ++ v)) <->
   exists y', y = u ++ "i" ++ y' /\ In y' (Fraction.merge_conjunction v)).
Proof.
  intros Hu. unfold Fraction.merge_conjunction.
  rewrite in_cdrewrite, rewrites_copy_prefix.
  - assert (Hs : In (lit "i", v)
                    (sites (cross (accep " e ") "i") any_context any_context
                           ([] ++ u) (" e " ++ v)))
      by (apply conjunction_sites; auto).
    split.
    + intros [y1 [-> H]].
      apply rewrites_inv in H
        as [[E _]|[[o [rem [y2 [Hs' [H ->]]]]]|[c [r' [y2 [_ [E _]]]]]]].
      * discriminate.
      * apply conjunction_sites in Hs' as [E ->].
        apply app_inv_head in E. subst rem.
        exists y2. split; [reflexivity|]. apply in_cdrewrite.
        eapply rewrites_any_left. exact H.
      * rewrite E in Hs. destruct Hs.
    + intros [y' [-> H]]. exists ("i" ++ y'). split; [reflexivity|].
      eapply rw_site; [exact Hs|]. apply in_cdrewrite in H.
      eapply rewrites_any_left. exact H.
  - intros u1 u2 -> H2. apply sites_empty. intros o rem H.
    apply conjunction_sites in H as [E _].
    destruct u2 as [|c u2]; [congruence|]. simpl in E. injection E as -> _.
    rewrite existsb_app in Hu. simpl in Hu.
    rewrite orb_true_r in Hu. discriminate Hu.
Qed.

(** Stage (ii): white space in front of a symbol is deleted. *)
Lemma merge_spaces_site_at (done : str) (d : ascii) (rest : str) :
  In ([], d :: rest)
     (sites delete_space any_context
            (in_context (difference NEMO_CHAR (accep "parte")))
            done (" "%char :: d :: rest)).
Proof.
  apply in_sites. split; [apply lmatch_any|]. exists (lit " ").
  split; [discriminate|]. split; [reflexivity|]. split.
  - apply rmatch_in_context. exists [d], rest. split; [reflexivity|].
    apply accepts_true. exists [d]. apply in_difference. split.
    + rewrite accepts_accep. apply str_eqb_neq. discriminate.
    + left. reflexivity.
  - apply in_delete_space. auto.
Qed.

Lemma merge_spaces_no_space_inside (done rest y : str) :
  Rewrites delete_space any_context
           (in_context (difference NEMO_CHAR (accep "parte"))) done rest y ->
  space_inside y = false.
Proof.
  intros H.
  induction H as [done|done rest o rem y Hs H IH|done c rest y Hs H IH].
  - reflexivity.
  - apply delete_space_sites in Hs as [_ ->]. exact IH.
  - apply space_inside_cons_intro; [exact IH|]. intros Hy.
    destruct rest as [|d rest].
    + apply rewrites_nil in H. congruence.
    + destruct (Ascii.eqb c " ") eqn:E; [|reflexivity].
      apply Ascii.eqb_eq in E. subst c.
      generalize (merge_spaces_site_at done d rest). rewrite Hs. intros [].
Qed.

(** Rules that write no space keep every space at the end. *)
Lemma rewrites_keep_space_last (tau : Fst) (l r : context)
      (done rest y : str) :
  (forall m o, In o (tau m) -> existsb (Ascii.eqb " ") o = false) ->
  Rewrites tau l r done rest y ->
  space_inside rest = false -> space_inside y = false.
Proof.
  intros Hfree H.
  induction H as [done|done rest o rem y Hs H IH|done c rest y Hs H IH];
    intros Hrest.
  - reflexivity.
  - apply in_sites in Hs as [_ [m [_ [-> [_ Ho]]]]].
    apply space_inside_suffix in Hrest.
    apply space_inside_app_free; eauto.
  - apply space_inside_cons in Hrest as [Hrest Hc].
    apply space_inside_cons_intro; [auto|]. intros Hy. apply Hc.
    intros ->. apply rewrites_nil in H. congruence.
Qed.

Lemma string_map_space_free (rows : list (str * str)) (m o : str) :
  space_free_rows rows = true ->
  In o (string_map rows m) -> existsb (Ascii.eqb " ") o = false.
Proof.
  intros H Ho. apply in_string_map in Ho. unfold space_free_rows in H.
  rewrite forallb_forall in H. specialize (H _ Ho). simpl in H.
  apply negb_true_iff in H. exact H.
Qed.

(** Stage (iii): doubled vowels are contracted pair by pair. *)
Lemma duplicate_sites (done rest o rem : str) :
  In (o, rem)
     (sites (string_map [(lit "aa", lit "a"); (lit "oo", lit "o")])
            any_context any_context done rest) <->
  (rest = "aa" ++ rem /\ o = lit "a") \/ (rest = "oo" ++ rem /\ o = lit "o").
Proof.
  rewrite in_sites. split.
  - intros [_ [m [_ [-> [_ Ho]]]]]. apply in_string_map in Ho.
    destruct Ho as [E|[E|[]]]; injection E as <- <-; auto.
  - intros [[-> ->]|[-> ->]]; (split; [apply lmatch_any|]).
    + exists (lit "aa"). split; [discriminate|]. split; [reflexivity|].
      split; [apply rmatch_any|]. apply in_string_map. left. reflexivity.
    + exists (lit "oo"). split; [discriminate|]. split; [reflexivity|].
      split; [apply rmatch_any|]. apply in_string_map. right. left.
      reflexivity.
Qed.

Lemma contains_suffix (p a b : str) :
  contains p (a ++ b) = false -> contains p b = false.
Proof.
  intros H. apply contains_false. intros u v ->.
  apply (proj1 (contains_false p _) H (a ++ u) v).
  rewrite <- app_assoc. reflexivity.
Qed.

Lemma contains_head (p s : str) : contains p (p ++ s) = true.
Proof. apply contains_spec. exists [], s. reflexivity. Qed.

Lemma contains_cons (p : str) (c : ascii) (s : str) :
  contains p (c :: s) = starts_with p (c :: s) || contains p s.
Proof. reflexivity. Qed.

Lemma duplicates_contracted (done rest y : str) :
  Rewrites (string_map [(lit "aa", lit "a"); (lit "oo", lit "o")])
           any_context any_context done rest y ->
  contains "aaa" rest = false -> contains "ooo" rest = false ->
  contains "aa" y = false /\ contains "oo" y = false
  /\ (forall c y', y = c :: y' -> exists rest', rest = c :: rest').
Proof.
  intros H.
  induction H as [done|done rest o rem y Hs H IH|done c rest y Hs H IH];
    intros Ha Ho.
  - repeat split. intros c y' E. discriminate E.
  - apply duplicate_sites in Hs as [[-> ->]|[-> ->]].
    + destruct (IH (contains_suffix _ _ _ Ha) (contains_suffix _ _ _ Ho))
        as [Ia [Io Ih]].
      split; [|split].
      * change ("a" ++ y) with ("a"%char :: y).
        rewrite contains_cons, Ia, orb_false_r.
        destruct (starts_with "aa" ("a"%char :: y)) eqn:S; [|reflexivity].
        exfalso. apply starts_with_spec in S as [v E]. injection E as ->.
        destruct (Ih _ _ eq_refl) as [rest' ->].
        change ("aa" ++ "a"%char :: rest') with ("aaa" ++ rest') in Ha.
        rewrite contains_head in Ha. discriminate Ha.
      * change ("a" ++ y) with ("a"%char :: y). rewrite contains_cons, Io.
        reflexivity.
      * intros c y' E. injection E as <- _. eexists. reflexivity.
    + destruct (IH (contains_suffix _ _ _ Ha) (contains_suffix _ _ _ Ho))
        as [Ia [Io Ih]].
      split; [|split].
      * change ("o" ++ y) with ("o"%char :: y). rewrite contains_cons, Ia.
        reflexivity.
      * change ("o" ++ y) with ("o"%char :: y).
        rewrite contains_cons, Io, orb_false_r.
        destruct (starts_with "oo" ("o"%char :: y)) eqn:S; [|reflexivity].
        exfalso. apply starts_with_spec in S as [v E]. injection E as ->.
        destruct (Ih _ _ eq_refl) as [rest' ->].
        change ("oo" ++ "o"%char :: rest') with ("ooo" ++ rest') in Ho.
        rewrite contains_head in Ho. discriminate Ho.
      * intros c y' E. injection E as <- _. eexists. reflexivity.
  - destruct (IH (contains_suffix _ [c] _ Ha) (contains_suffix _ [c] _ Ho))
      as [Ia [Io Ih]].
    split; [|split].
    + rewrite contains_cons, Ia, orb_false_r.
      destruct (starts_with "aa" (c :: y)) eqn:S; [|reflexivity].
      exfalso. apply starts_with_spec in S as [v E]. injection E as -> ->.
      destruct (Ih _ _ eq_refl) as [rest' ->].
      assert (F : In (lit "a", rest')
                     (sites (string_map [(lit "aa", lit "a");
                                         (lit "oo", lit "o")])
                            any_context any_context done
                            ("a"%char :: "a"%char :: rest')))
        by (apply duplicate_sites; auto).
      rewrite Hs in F. destruct F.
    + rewrite contains_cons, Io, orb_false_r.
      destruct (starts_with "oo" (c :: y)) eqn:S; [|reflexivity].
      exfalso. apply starts_with_spec in S as [v E]. injection E as -> ->.
      destruct (Ih _ _ eq_refl) as [rest' ->].
      assert (F : In (lit "o", rest')
                     (sites (string_map [(lit "aa", lit "a");
                                         (lit "oo", lit "o")])
                            any_context any_context done
                            ("o"%char :: "o"%char :: rest')))
        by (apply duplicate_sites; auto).
      rewrite Hs in F. destruct F.
    + intros d y' E. injection E as <- _. eexists. reflexivity.
Qed.

Section MergePipeline.

Variable accents : list (str * str).
Hypothesis accents_space_free : space_free_rows accents = true.

Lemma merge_into_single_word_total (d : str) :
  exists out, In out (Fraction.merge_into_single_word accents d).
Proof.
  unfold Fraction.merge_into_single_word, Fraction.merge,
    Fraction.merge_conjunction, Fraction.merge_spaces,
    Fraction.remove_accents, Fraction.delete_duplicates.
  destruct (rewrites_total (cross (accep " e ") "i") any_context any_context
                           d []) as [m1 H1].
  destruct (rewrites_total delete_space any_context
                           (in_context (difference NEMO_CHAR (accep "parte")))
                           m1 []) as [m2 H2].
  destruct (rewrites_total (string_map accents)
              (in_context (NEMO_SPACE <+> Fraction.closure_not_space)
                 ++ at_boundary Fraction.closure_not_space)
              (in_context (Fraction.closure_not_space
                             <+> (accep "esimo" <|> accep "esima")))
              m2 []) as [m3 H3].
  destruct (rewrites_total
              (string_map [(lit "aa", lit "a"); (lit "oo", lit "o")])
              any_context any_context m3 []) as [out H4].
  exists out. apply in_compose. exists m3. split; [|apply in_cdrewrite, H4].
  apply in_compose. exists m2. split; [|apply in_cdrewrite, H3].
  apply in_compose. exists m1. split; apply in_cdrewrite; assumption.
Qed.

Lemma merge_into_single_word_spaces (d out : str) :
  In out (Fraction.merge_into_single_word accents d) ->
  space_inside out = false.
Proof.
  unfold Fraction.merge_into_single_word, Fraction.merge. intros H.
  apply in_compose in H as [m3 [H H4]].
  apply in_compose in H as [m2 [H H3]].
  apply in_compose in H as [m1 [_ H2]].
  unfold Fraction.merge_spaces in H2. apply in_cdrewrite in H2.
  apply merge_spaces_no_space_inside in H2.
  unfold Fraction.remove_accents in H3. apply in_cdrewrite in H3.
  apply rewrites_keep_space_last in H3;
    [|intros m o; apply string_map_space_free; exact accents_space_free
     |exact H2].
  unfold Fraction.delete_duplicates in H4. apply in_cdrewrite in H4.
  apply rewrites_keep_space_last in H4;
    [exact H4|intros m o; apply string_map_space_free; reflexivity|exact H3].
Qed.

End MergePipeline.

(** C5, as the code has it.  With an accent table that writes no space,
    the merge pipeline has an output for every denominator; it replaces a
    conjunction " e " by the letter "i"; no output holds a conjunction
    " e "; and the doubled vowels of the text that reaches the last stage
    are contracted pair by pair in one pass from the left, so that the
    output holds no "aa" and no "oo" whenever that text holds no "aaa"
    and no "ooo". *)
Theorem merge_pipeline_properties (accents : list (str * str)) :
  space_free_rows accents = true ->
  (forall d, exists out, In out (Fraction.merge_into_single_word accents d))
  /\ (forall u v y,
         existsb (Ascii.eqb " ") u = false ->
         (In y (Fraction.merge_conjunction (u ++ " e " ++ v)) <->
          exists y', y = u ++ "i" ++ y'
                     /\ In y' (Fraction.merge_conjunction v)))
  /\ (forall d out,
         In out (Fraction.merge_into_single_word accents d) ->
         contains " e " out = false)
  /\ (forall m out,
         In out (Fraction.delete_duplicates m) ->
         contains "aaa" m = false -> contains "ooo" m = false ->
         contains "aa" out = false /\ contains "oo" out = false).
Proof.
  intros Hacc. split; [|split; [|split]].
  - apply merge_into_single_word_total.
  - apply merge_conjunction_at.
  - intros d out H.
    apply (space_inside_contains " " out).
    exact (merge_into_single_word_spaces accents Hacc d out H).
  - intros m out H Ha Ho. unfold Fraction.delete_duplicates in H.
    apply in_cdrewrite in H.
    destruct (duplicates_contracted _ _ _ H Ha Ho) as [Ia [Io _]]. auto.
Qed.

Lemma merge_pipeline_properties_witness :
  space_free_rows Sample.accents = true
  /\ In (lit "trentaitre")
        (Fraction.merge_into_single_word Sample.accents "trenta e tre")
  /\ contains " e " "trentaitre" = false.
Proof.
  assert (Hacc : space_free_rows Sample.accents = true) by reflexivity.
  assert (H : In (lit "trentaitre")
                 (Fraction.merge_into_single_word Sample.accents
                                                  "trenta e tre"))
    by (vm_compute; left; reflexivity).
  split; [exact Hacc|]. split; [exact H|].
  exact (proj1 (proj2 (proj2 (merge_pipeline_properties Sample.accents Hacc)))
               _ _ H).
Defined.

(** C5, as stated, fails on the code: a run of three equal vowels leaves a
    doubled vowel in the output, and the space in front of "parte" is
    deleted like every other space. *)
Lemma merge_pipeline_counterexample :
  Fraction.merge_into_single_word Sample.accents "venti e aaa"
  = [lit "ventiiaa"]
  /\ contains "aa" "ventiiaa" = true
  /\ Fraction.merge_into_single_word Sample.accents "trenta e tre parte"
     = [lit "trentaitreparte"]
  /\ contains " parte" "trentaitreparte" = false.
Proof. vm_compute. repeat split. Qed.

(** C6, as stated, fails on the code: the spelling with a word boundary
    does not keep the cardinal prefix.  For the cardinal "due" the
    non-deterministic thousands read "due mille" as "duemillesimo" and as
    "secondo millesimo", never as "due millesimo". *)
Lemma thousands_boundary_counterexample :
  Ordinal.graph_thousands_series
    Sample.cardinal_graph Sample.digit_tsv Sample.teens_tsv
    Sample.twenties_tsv Sample.ties_tsv Sample.hundreds_tsv Sample.accents
    false "due mille"
  = [lit "duemillesimo"; lit "secondo millesimo"]
  /\ ~ In (lit "due millesimo")
          (Ordinal.graph_thousands_series
             Sample.cardinal_graph Sample.digit_tsv Sample.teens_tsv
             Sample.twenties_tsv Sample.ties_tsv Sample.hundreds_tsv
             Sample.accents false "due mille").
Proof.
  assert (E : Ordinal.graph_thousands_series
                Sample.cardinal_graph Sample.digit_tsv Sample.teens_tsv
                Sample.twenties_tsv Sample.ties_tsv Sample.hundreds_tsv
                Sample.accents false "due mille"
              = [lit "duemillesimo"; lit "secondo millesimo"])
    by (vm_compute; reflexivity).
  split; [exact E|]. rewrite E. intros [H|[H|[]]]; discriminate H.
Qed.

(** ** The ordinal tagger: the two modes *)

Lemma concat_monotone (A A' B B' : Fst) (x y : str) :
  (forall x y, In y (A x) -> In y (A' x)) ->
  (forall x y, In y (B x) -> In y (B' x)) ->
  In y ((A <+> B) x) -> In y ((A' <+> B') x).
Proof.
  intros HA HB H. apply in_concat in H as [x1 [x2 [y1 [y2 [-> [-> [H1 H2]]]]]]].
  apply in_concat. exists x1, x2, y1, y2. auto.
Qed.

(** Every output of the deterministic ordinal grammar is an output of the
    non-deterministic one. *)
Lemma ordinal_graph_modes
      (cardinal_graph : Fst)
      (digit_tsv teens_tsv twenties_tsv ties_tsv hundreds_tsv
         accents : list (str * str))
      (x y : str) :
  In y (Ordinal.ordinal_graph cardinal_graph digit_tsv teens_tsv twenties_tsv
          ties_tsv hundreds_tsv accents true x) ->
  In y (Ordinal.ordinal_graph cardinal_graph digit_tsv teens_tsv twenties_tsv
          ties_tsv hundreds_tsv accents false x).
Proof.
  unfold Ordinal.ordinal_graph, optimize, Ordinal.ordinal_split,
    Ordinal.ordinal_assembly. intros H.
  apply in_compose in H as [s [Hs Hy]]. apply in_compose. exists s.
  split; [|exact Hy]. apply in_union. left.
  apply in_compose in Hs as [c [Hc Hs]]. apply in_compose. exists c.
  split; [exact Hc|]. apply in_union in Hs as [Hs|Hs]; apply in_union;
    [left|right; exact Hs].
  unfold Ordinal.graph_thousands in *.
  eapply concat_monotone; [| |exact Hs]; [|auto].
  intros x' y' H'. unfold Ordinal.graph_thousands_series in *.
  apply in_union. left. exact H'.
Qed.

(** The ordinal grammar reads nothing that the cardinal grammar rejects:
    its range is the range of the cardinal grammar and of the tables. *)
Lemma ordinal_graph_needs_cardinal
      (cardinal_graph : Fst)
      (digit_tsv teens_tsv twenties_tsv ties_tsv hundreds_tsv
         accents : list (str * str))
      (deterministic : bool) (x : str) :
  cardinal_graph x = [] ->
  Ordinal.ordinal_graph cardinal_graph digit_tsv teens_tsv twenties_tsv
                        ties_tsv hundreds_tsv accents deterministic x = [].
Proof.
  intros Hc. apply no_output_nil. intros y H.
  assert (Ha : forall d s,
             ~ In s (Ordinal.ordinal_assembly cardinal_graph digit_tsv
                       teens_tsv twenties_tsv ties_tsv hundreds_tsv accents
                       d x)).
  { intros d s Hs. unfold Ordinal.ordinal_assembly in Hs.
    apply in_compose in Hs as [c [Hs _]]. rewrite Hc in Hs. destruct Hs. }
  unfold Ordinal.ordinal_graph, optimize, Ordinal.ordinal_split in H.
  apply in_compose in H as [s [Hs _]].
  destruct deterministic.
  - exact (Ha _ _ Hs).
  - apply in_union in Hs as [Hs|Hs]; [exact (Ha _ _ Hs)|].
    apply in_compose in Hs as [s' [Hs _]]. exact (Ha _ _ Hs).
Qed.

(** The grammars on the sample lexicon. *)

Example sample_ordinal_2008 :
  Sample.ordinal_graph "2008" = [lit "duemillesimo ottavo"].
Proof. vm_compute. reflexivity. Qed.

Example sample_ordinal_28 :
  Sample.ordinal_graph "28" = [lit "ventesimottavo"].
Proof. vm_compute. reflexivity. Qed.

Example sample_date :
  Date.graph Apocope.rule true
             (date_token "uno" "maggio" "millenovecentonovanta")
  = [lit "primo maggio millenovecentonovanta"].
Proof. vm_compute. reflexivity. Qed.

Example sample_date_preserve_order :
  Date.graph Apocope.rule true
             ("month: " ++ quoted "maggio" ++ " day: " ++ quoted "uno"
                ++ Date.preserve_order)
  = [lit "maggio primo"].
Proof. vm_compute. reflexivity. Qed.

Example sample_fraction_fem :
  Fraction.graph_fem Sample.accents Apocope.rule Gender.rule
                     (fraction_token "un" "mezzo" "ordinal")
  = [lit "mezzo"; lit "mezza"].
Proof. vm_compute. reflexivity. Qed.

(** ** White space runs and quoted fields *)

Lemma ws_byte_not_quote (c : ascii) :
  is_ws_byte c = true -> NEMO_NOT_QUOTE c = true.
Proof.
  intros H. unfold NEMO_NOT_QUOTE. destruct (Ascii.eqb c dq) eqn:E.
  - apply Ascii.eqb_eq in E. subst c. discriminate H.
  - reflexivity.
Qed.

Lemma ws_run_unique_fuel (n : nat) (w w' a b : str) :
  List.length w <= n ->
  ws_star w = true -> ws_star w' = true ->
  ws_head a = false -> ws_head b = false ->
  w ++ a = w' ++ b -> w = w' /\ a = b.
Proof.
  revert w w'. induction n as [|n IH]; intros w w' Hn Hw Hw' Ha Hb E.
  - destruct w; [|simpl in Hn; lia]. simpl in E. symmetry in E.
    destruct (ws_star_no_head w' b a Hw' Ha E) as [-> ->]. auto.
  - destruct w as [|c w].
    + simpl in E. symmetry in E.
      destruct (ws_star_no_head w' b a Hw' Ha E) as [-> ->]. auto.
    + destruct w' as [|c' w'].
      * simpl in E.
        destruct (ws_star_no_head (c :: w) a b Hw Hb E) as [E' _].
        discriminate E'.
      * simpl in E. injection E as <- E. simpl in Hn.
        cbn [ws_star] in Hw, Hw'. destruct (is_ws_byte c).
        -- destruct (IH w w') as [-> ->]; auto. lia.
        -- destruct w as [|d w]; [discriminate|].
           destruct w' as [|d' w']; [discriminate|].
           simpl in E. injection E as <- E. simpl in Hn.
           apply andb_true_iff in Hw as [_ Hw].
           apply andb_true_iff in Hw' as [_ Hw'].
           destruct (IH w w') as [-> ->]; auto. lia.
Qed.

(** Two white space runs in front of texts that start with no white space
    are the same run. *)
Lemma ws_run_unique (w w' a b : str) :
  ws_star w = true -> ws_star w' = true ->
  ws_head a = false -> ws_head b = false ->
  w ++ a = w' ++ b -> w = w' /\ a = b.
Proof. apply (ws_run_unique_fuel (List.length w)). lia. Qed.

Lemma ws_not_quote_fuel (n : nat) (w : str) :
  List.length w <= n -> ws_star w = true -> forallb NEMO_NOT_QUOTE w = true.
Proof.
  revert w. induction n as [|n IH]; intros w Hn Hw.
  - destruct w; [reflexivity | simpl in Hn; lia].
  - destruct w as [|c w]; [reflexivity|]. simpl in Hn.
    cbn [ws_star] in Hw. destruct (is_ws_byte c) eqn:Ec.
    + cbn [forallb]. rewrite (ws_byte_not_quote c Ec). apply IH; [lia|exact Hw].
    + destruct w as [|d w]; [discriminate|]. simpl in Hn.
      apply andb_true_iff in Hw as [Hcd Hw].
      apply andb_true_iff in Hcd as [Hc Hd].
      apply Ascii.eqb_eq in Hc, Hd. subst c d.
      cbn [forallb]. rewrite (IH w); [reflexivity|lia|exact Hw].
Qed.

Lemma ws_not_quote (w : str) :
  ws_star w = true -> forallb NEMO_NOT_QUOTE w = true.
Proof. apply (ws_not_quote_fuel (List.length w)). lia. Qed.

(** ** The date verbalizer: fields and separators *)

Lemma quoted_inj (t t' a b : str) :
  forallb NEMO_NOT_QUOTE t = true -> forallb NEMO_NOT_QUOTE t' = true ->
  quoted t ++ a = quoted t' ++ b -> t = t' /\ a = b.
Proof.
  intros Qt Qt' E. unfold quoted in E. simpl in E. injection E as E.
  rewrite <- !app_assoc in E. simpl in E.
  apply (first_quote_unique t t' a b Qt Qt' E).
Qed.

Lemma month_field_parse (w v m R w' v' m' R' : str) :
  ws_star w = true -> ws_star w' = true ->
  ws_star v = true -> ws_star v' = true ->
  forallb NEMO_NOT_QUOTE m = true -> forallb NEMO_NOT_QUOTE m' = true ->
  w ++ month_field v m ++ R = w' ++ month_field v' m' ++ R' ->
  w = w' /\ v = v' /\ m = m' /\ R = R'.
Proof.
  intros Hw Hw' Hv Hv' Qm Qm' E.
  apply ws_run_unique in E as [-> E];
    [|exact Hw|exact Hw'|reflexivity|reflexivity].
  unfold month_field in E. rewrite <- !app_assoc in E.
  apply app_inv_head in E.
  apply ws_run_unique in E as [-> E];
    [|exact Hv|exact Hv'|reflexivity|reflexivity].
  apply quoted_inj in E as [-> ->]; auto.
Qed.

Lemma year_field_parse (w v y R w' v' y' R' : str) :
  ws_star w = true -> ws_star w' = true ->
  ws_star v = true -> ws_star v' = true ->
  forallb NEMO_NOT_QUOTE y = true -> forallb NEMO_NOT_QUOTE y' = true ->
  w ++ year_field v y ++ R = w' ++ year_field v' y' ++ R' ->
  w = w' /\ v = v' /\ y = y' /\ R = R'.
Proof.
  intros Hw Hw' Hv Hv' Qy Qy' E.
  apply ws_run_unique in E as [-> E];
    [|exact Hw|exact Hw'|reflexivity|reflexivity].
  unfold year_field in E. rewrite <- !app_assoc in E.
  apply app_inv_head in E.
  apply ws_run_unique in E as [-> E];
    [|exact Hv|exact Hv'|reflexivity|reflexivity].
  apply quoted_inj in E as [-> ->]; auto.
Qed.

Lemma month_is_no_year (w v m R w' v' y R' : str) :
  ws_star w = true -> ws_star w' = true ->
  w ++ month_field v m ++ R <> w' ++ year_field v' y ++ R'.
Proof.
  intros Hw Hw' E.
  apply ws_run_unique in E as [_ E];
    [|exact Hw|exact Hw'|reflexivity|reflexivity].
  discriminate E.
Qed.

(** A separator and a month; a separator and a year, whose text may lose
    white space at its end. *)
Lemma in_sep_month (x z : str) :
  In z ((delete_extra_space <+> Date.month) x) <->
  exists w v m, ws_star w = true /\ w <> [] /\ ws_star v = true
                /\ x = w ++ month_field v m
                /\ m <> [] /\ forallb NEMO_NOT_QUOTE m = true
                /\ z = " " ++ m.
Proof.
  rewrite in_concat. split.
  - intros [x1 [x2 [y1 [y2 [-> [-> [H1 H2]]]]]]].
    apply in_delete_extra_space in H1 as [W1 [N1 ->]].
    apply in_month in H2 as [v [Wv [-> [Hm Qm]]]].
    exists x1, v, y2. auto 10.
  - intros [w [v [m [Hw [Nw [Hv [-> [Hm [Qm ->]]]]]]]]].
    exists w, (month_field v m), (lit " "), m.
    split; [reflexivity|]. split; [reflexivity|]. split.
    + apply in_delete_extra_space. auto.
    + apply in_month. exists v. auto.
Qed.

Lemma in_sep_year (x z : str) :
  In z ((delete_extra_space <+> Date.year) x) <->
  exists w v y w', ws_star w = true /\ w <> [] /\ ws_star v = true
                   /\ ws_star w' = true
                   /\ x = w ++ year_field v (y ++ w')
                   /\ y <> [] /\ forallb NEMO_NOT_QUOTE y = true
                   /\ z = " " ++ y.
Proof.
  rewrite in_concat. split.
  - intros [x1 [x2 [y1 [y2 [-> [-> [H1 H2]]]]]]].
    apply in_delete_extra_space in H1 as [W1 [N1 ->]].
    apply in_year in H2 as [v [w' [Wv [Ww' [-> [Hy Qy]]]]]].
    exists x1, v, y2, w'. auto 10.
  - intros [w [v [y [w' [Hw [Nw [Hv [Hw' [-> [Hy [Qy ->]]]]]]]]]]].
    exists w, (year_field v (y ++ w')), (lit " "), y.
    split; [reflexivity|]. split; [reflexivity|]. split.
    + apply in_delete_extra_space. auto.
    + apply in_year. exists v, w'. auto.
Qed.

Lemma text_and_ws_not_quote (y w : str) :
  forallb NEMO_NOT_QUOTE y = true -> ws_star w = true ->
  forallb NEMO_NOT_QUOTE (y ++ w) = true.
Proof.
  intros Qy Hw. rewrite forallb_app, Qy. apply ws_not_quote. exact Hw.
Qed.

Section DateFields.

Variable apocope_rule : Fst.
Variable deterministic : bool.

Let day : Fst := Date.day apocope_rule deterministic.
Let opt_month : Fst := closure01 (delete_extra_space <+> Date.month).
Let opt_year : Fst := closure01 (delete_extra_space <+> Date.year).

(** The day in either mode: the stripped text, with "primo" for "uno"; in
    non-deterministic mode the stripped text itself as well. *)
Lemma in_day (x z : str) :
  In z (day x) <->
  exists d s, x = day_field d /\ d <> []
              /\ forallb NEMO_NOT_QUOTE d = true
              /\ In s (apocope_rule d)
              /\ (z = (if str_eqb s "uno" then lit "primo" else s)
                  \/ (deterministic = false /\ z = s)).
Proof.
  unfold day, Date.day. destruct deterministic.
  - fold (Date.day apocope_rule true). rewrite in_day_deterministic. split.
    + intros [d [s [-> [Hd [Qd [Hs ->]]]]]]. exists d, s. auto 10.
    + intros [d [s [-> [Hd [Qd [Hs [->|[E _]]]]]]]]; [|discriminate E].
      exists d, s. auto 10.
  - rewrite in_union. split.
    + intros [H|H].
      * unfold Date.day_stripped, strip_cardinal_apocope in H.
        apply in_compose in H as [d [Hd Hs]].
        apply in_day_cardinal in Hd as [-> [Hd Qd]].
        exists d, z. auto 10.
      * apply in_compose in H as [s [Hs Hz]].
        unfold Date.day_stripped, strip_cardinal_apocope in Hs.
        apply in_compose in Hs as [d [Hd Hs]].
        apply in_day_cardinal in Hd as [-> [Hd Qd]].
        apply primero_spec in Hz. exists d, s. auto 10.
    + intros [d [s [-> [Hd [Qd [Hs [->|[_ ->]]]]]]]].
      * right. apply in_compose. exists s. split.
        -- apply in_compose. exists d. split; [|exact Hs].
           apply in_day_cardinal. auto.
        -- apply primero_spec. reflexivity.
      * left. apply in_compose. exists d. split; [|exact Hs].
        apply in_day_cardinal. auto.
Qed.

(** The day field is read up to its closing quote. *)
Lemma in_graph_dmy_fields (d R z : str) :
  forallb NEMO_NOT_QUOTE d = true ->
  (In z (Date.graph_dmy apocope_rule deterministic (day_field d ++ R)) <->
   exists d' zr, In d' (day (day_field d))
                 /\ In zr ((opt_month <+> opt_year) R) /\ z = d' ++ zr).
Proof.
  intros Qd. unfold Date.graph_dmy. fold day opt_month opt_year.
  rewrite in_concat. split.
  - intros [x1 [x2 [y1 [y2 [E [-> [H1 H2]]]]]]].
    destruct (proj1 (in_day x1 y1) H1) as [d0 [s [-> [_ [Qd0 _]]]]].
    unfold day_field in E. rewrite <- !app_assoc in E.
    apply app_inv_head in E.
    apply quoted_inj in E as [-> ->]; [|exact Qd|exact Qd0].
    exists y1, y2. auto.
  - intros [d' [zr [H1 [H2 ->]]]].
    exists (day_field d), R, d', zr. auto.
Qed.

Lemma in_opt_month (x z : str) :
  In z (opt_month x) <->
  (x = [] /\ z = [])
  \/ exists w v m, ws_star w = true /\ w <> [] /\ ws_star v = true
                   /\ x = w ++ month_field v m
                   /\ m <> [] /\ forallb NEMO_NOT_QUOTE m = true
                   /\ z = " " ++ m.
Proof. unfold opt_month. rewrite in_closure01, in_sep_month. reflexivity. Qed.

Lemma in_opt_year (x z : str) :
  In z (opt_year x) <->
  (x = [] /\ z = [])
  \/ exists w v y w', ws_star w = true /\ w <> [] /\ ws_star v = true
                      /\ ws_star w' = true
                      /\ x = w ++ year_field v (y ++ w')
                      /\ y <> [] /\ forallb NEMO_NOT_QUOTE y = true
                      /\ z = " " ++ y.
Proof. unfold opt_year. rewrite in_closure01, in_sep_year. reflexivity. Qed.

(** What follows the day is cut in one way only between the optional
    month and the optional year. *)
Lemma month_year_split (r1 r2 z : str) :
  (r1 = [] \/ exists w v m, ws_star w = true /\ ws_star v = true
                            /\ forallb NEMO_NOT_QUOTE m = true
                            /\ r1 = w ++ month_field v m) ->
  (r2 = [] \/ exists w v y, ws_star w = true /\ ws_star v = true
                            /\ forallb NEMO_NOT_QUOTE y = true
                            /\ r2 = w ++ year_field v y) ->
  (In z ((opt_month <+> opt_year) (r1 ++ r2)) <->
   exists z1 z2, In z1 (opt_month r1) /\ In z2 (opt_year r2) /\ z = z1 ++ z2).
Proof.
  intros S1 S2. rewrite in_concat. split.
  - intros [a1 [a2 [z1 [z2 [E [-> [H1 H2]]]]]]].
    assert (Ea : a1 = r1 /\ a2 = r2); [|destruct Ea as [-> ->]; eauto].
    apply in_opt_month in H1. apply in_opt_year in H2.
    destruct H1 as [[-> _]|[w [v [m [Hw [_ [Hv [-> [_ [Qm _]]]]]]]]]].
    + (* no month is read *)
      simpl in E. subst a2.
      destruct S1 as [->|[w1 [v1 [m1 [Hw1 [Hv1 [Qm1 ->]]]]]]]; [auto|].
      exfalso.
      destruct H2 as [[E _]|[w [v [y [w' [Hw [_ [_ [_ [E _]]]]]]]]]].
      * apply app_eq_nil in E as [E _]. apply app_eq_nil in E as [_ E].
        discriminate E.
      * rewrite <- (app_nil_r (w ++ _)) in E. rewrite <- !app_assoc in E.
        apply month_is_no_year in E; auto.
    + (* a month is read *)
      destruct S1 as [->|[w1 [v1 [m1 [Hw1 [Hv1 [Qm1 ->]]]]]]].
      * exfalso. simpl in E.
        destruct S2 as [->|[w2 [v2 [y2 [Hw2 [Hv2 [Qy2 ->]]]]]]].
        -- symmetry in E. apply app_eq_nil in E as [E _].
           apply app_eq_nil in E as [_ E]. discriminate E.
        -- rewrite <- (app_nil_r (w2 ++ _)) in E. rewrite <- !app_assoc in E.
           symmetry in E. apply month_is_no_year in E; auto.
      * rewrite <- !app_assoc in E.
        apply month_field_parse in E as [-> [-> [-> ->]]]; auto.
  - intros [z1 [z2 [H1 [H2 ->]]]]. exists r1, r2, z1, z2. auto.
Qed.

Lemma opt_month_field (w v m z : str) :
  ws_star w = true -> ws_star v = true ->
  forallb NEMO_NOT_QUOTE m = true ->
  (In z (opt_month (w ++ month_field v m)) <->
   w <> [] /\ m <> [] /\ z = " " ++ m).
Proof.
  intros Hw Hv Qm. rewrite in_opt_month. split.
  - intros [[E _]|[w0 [v0 [m0 [Hw0 [Nw0 [Hv0 [E [Hm0 [Qm0 ->]]]]]]]]]].
    + apply app_eq_nil in E as [_ E]. discriminate E.
    + rewrite <- (app_nil_r (w ++ _)), <- (app_nil_r (w0 ++ _)) in E.
      rewrite <- !app_assoc in E.
      apply month_field_parse in E as [-> [-> [-> _]]]; auto.
  - intros [Nw [Hm ->]]. right. exists w, v, m. auto 10.
Qed.

Lemma opt_year_field (w v y z : str) :
  ws_star w = true -> ws_star v = true ->
  forallb NEMO_NOT_QUOTE y = true ->
  (In z (opt_year (w ++ year_field v y)) <->
   w <> [] /\ exists y' w', y = y' ++ w' /\ ws_star w' = true
                            /\ y' <> [] /\ z = " " ++ y').
Proof.
  intros Hw Hv Qy. rewrite in_opt_year. split.
  - intros [[E _]|[w0 [v0 [y0 [w' H]]]]];
      [|destruct H as [Hw0 [Nw0 [Hv0 [Hw' [E [Hy0 [Qy0 ->]]]]]]]].
    + apply app_eq_nil in E as [_ E]. discriminate E.
    + rewrite <- (app_nil_r (w ++ _)), <- (app_nil_r (w0 ++ _)) in E.
      rewrite <- !app_assoc in E.
      apply year_field_parse in E as [-> [-> [-> _]]]; auto.
      * split; [exact Nw0|]. exists y0, w'. auto.
      * apply text_and_ws_not_quote; assumption.
  - intros [Nw [y' [w' [-> [Hw' [Hy' ->]]]]]]. right.
    exists w, v, y', w'. rewrite forallb_app in Qy.
    apply andb_true_iff in Qy as [Qy _]. auto 10.
Qed.

(** The day-month-year branch on a token with its three fields. *)
Lemma in_graph_dmy_spaced (d w1 v1 m w2 v2 y z : str) :
  forallb NEMO_NOT_QUOTE d = true ->
  forallb NEMO_NOT_QUOTE m = true ->
  forallb NEMO_NOT_QUOTE y = true ->
  ws_star w1 = true -> ws_star v1 = true ->
  ws_star w2 = true -> ws_star v2 = true ->
  (In z (Date.graph_dmy apocope_rule deterministic
           (date_token_spaced d w1 v1 m w2 v2 y)) <->
   w1 <> [] /\ w2 <> [] /\ m <> []
   /\ exists d' y' w', In d' (day (day_field d))
                       /\ y = y' ++ w' /\ ws_star w' = true /\ y' <> []
                       /\ z = d' ++ " " ++ m ++ " " ++ y').
Proof.
  intros Qd Qm Qy W1 V1 W2 V2.
  assert (E : date_token_spaced d w1 v1 m w2 v2 y
              = day_field d ++ (w1 ++ month_field v1 m)
                  ++ (w2 ++ year_field v2 y)).
  { unfold date_token_spaced. rewrite <- !app_assoc. reflexivity. }
  rewrite E, (in_graph_dmy_fields d _ z Qd). clear E. split.
  - intros [d' [zr [Hd [Hr ->]]]].
    apply month_year_split in Hr as [z1 [z2 [H1 [H2 ->]]]].
    + apply opt_month_field in H1 as [N1 [Hm ->]]; auto.
      apply opt_year_field in H2 as [N2 [y' [w' [-> [Hw' [Hy' ->]]]]]]; auto.
      split; [exact N1|]. split; [exact N2|]. split; [exact Hm|].
      exists d', y', w'. rewrite <- !app_assoc. auto 10.
    + right. exists w1, v1, m. auto.
    + right. exists w2, v2, y. auto.
  - intros [N1 [N2 [Hm [d' [y' [w' [Hd [-> [Hw' [Hy' ->]]]]]]]]]].
    exists d', (" " ++ m ++ " " ++ y'). split; [exact Hd|].
    split; [|reflexivity].
    apply month_year_split.
    + right. exists w1, v1, m. auto.
    + right. exists w2, v2, (y' ++ w'). auto.
    + exists (" " ++ m), (" " ++ y'). split; [|split].
      * apply opt_month_field; auto.
      * apply opt_year_field; auto. split; [exact N2|].
        exists y', w'. auto.
      * rewrite <- !app_assoc. reflexivity.
Qed.

(** The month-day-year branch reads tokens that begin with the month. *)
Lemma graph_mdy_starts_with_month (x z : str) :
  In z (Date.graph_mdy apocope_rule deterministic x) ->
  exists r, x = "month:" ++ r.
Proof.
  unfold Date.graph_mdy. cbv zeta. intros H.
  assert (H' : exists x1 x2 y1, x = x1 ++ x2 /\ In y1 (Date.month x1)).
  { destruct deterministic.
    - apply in_concat in H as [a1 [a2 [b1 [b2 [-> [_ [H _]]]]]]].
      apply in_concat in H as [x1 [x2 [y1 [y2 [-> [_ [H _]]]]]]].
      exists x1, (x2 ++ a2), y1. rewrite <- app_assoc. auto.
    - apply in_concat in H as [x1 [x2 [y1 [y2 [-> [_ [H _]]]]]]].
      exists x1, x2, y1. auto. }
  destruct H' as [x1 [x2 [y1 [-> H1]]]].
  apply in_month in H1 as [w [_ [-> _]]].
  exists ((w ++ quoted y1) ++ x2). rewrite <- !app_assoc. reflexivity.
Qed.

(** A token that begins with the day is read by the day-month-year branch
    alone. *)
Lemma graph_on_day_first (R z : str) :
  In z (Date.graph apocope_rule deterministic ("day: " ++ R)) <->
  In z (Date.graph_dmy apocope_rule deterministic ("day: " ++ R)).
Proof.
  unfold Date.graph. rewrite in_union. split; [|auto].
  intros [H|H]; [exact H|].
  apply graph_mdy_starts_with_month in H as [r E]. discriminate E.
Qed.

Lemma in_opt_month_nil (z : str) : In z (opt_month []) <-> z = [].
Proof.
  rewrite in_opt_month. split.
  - intros [[_ ->]|[w [v [m [_ [_ [_ [E _]]]]]]]]; [reflexivity|].
    symmetry in E. apply app_eq_nil in E as [_ E]. discriminate E.
  - intros ->. left. auto.
Qed.

Lemma in_opt_year_nil (z : str) : In z (opt_year []) <-> z = [].
Proof.
  rewrite in_opt_year. split.
  - intros [[_ ->]|[w [v [y [w' [_ [_ [_ [_ [E _]]]]]]]]]]; [reflexivity|].
    symmetry in E. apply app_eq_nil in E as [_ E]. discriminate E.
  - intros ->. left. auto.
Qed.

(** The day alone, the day and the month, the day and the year. *)
Lemma in_graph_dmy_day_only (d z : str) :
  forallb NEMO_NOT_QUOTE d = true ->
  (In z (Date.graph_dmy apocope_rule deterministic (day_field d)) <->
   In z (day (day_field d))).
Proof.
  intros Qd. rewrite <- (app_nil_r (day_field d)) at 1.
  rewrite (in_graph_dmy_fields d [] z Qd). split.
  - intros [d' [zr [Hd [Hr ->]]]].
    apply (month_year_split [] []) in Hr as [z1 [z2 [H1 [H2 ->]]]]; auto.
    apply in_opt_month_nil in H1. apply in_opt_year_nil in H2. subst.
    rewrite app_nil_r. exact Hd.
  - intros Hd. exists z, []. rewrite app_nil_r. split; [exact Hd|].
    split; [|reflexivity]. apply (month_year_split [] []); auto.
    exists [], []. split; [apply in_opt_month_nil; reflexivity|].
    split; [apply in_opt_year_nil|]; reflexivity.
Qed.

Lemma in_graph_dmy_day_month (d w v m z : str) :
  forallb NEMO_NOT_QUOTE d = true -> forallb NEMO_NOT_QUOTE m = true ->
  ws_star w = true -> ws_star v = true ->
  (In z (Date.graph_dmy apocope_rule deterministic
           (day_field d ++ w ++ month_field v m)) <->
   w <> [] /\ m <> [] /\ exists d', In d' (day (day_field d))
                                   /\ z = d' ++ " " ++ m).
Proof.
  intros Qd Qm Hw Hv.
  rewrite (in_graph_dmy_fields d _ z Qd).
  assert (S1 : w ++ month_field v m = []
               \/ exists w0 v0 m0, ws_star w0 = true /\ ws_star v0 = true
                     /\ forallb NEMO_NOT_QUOTE m0 = true
                     /\ w ++ month_field v m = w0 ++ month_field v0 m0).
  { right. exists w, v, m. auto. }
  split.
  - intros [d' [zr [Hd [Hr ->]]]].
    rewrite <- (app_nil_r (w ++ _)) in Hr.
    apply month_year_split in Hr as [z1 [z2 [H1 [H2 ->]]]]; auto.
    apply opt_month_field in H1 as [Nw [Hm ->]]; auto.
    apply in_opt_year_nil in H2. subst z2. rewrite app_nil_r. eauto.
  - intros [Nw [Hm [d' [Hd ->]]]]. exists d', (" " ++ m).
    split; [exact Hd|]. split; [|reflexivity].
    rewrite <- (app_nil_r (w ++ _)). apply month_year_split; auto.
    exists (" " ++ m), []. rewrite app_nil_r. split; [|split].
    + apply opt_month_field; auto.
    + apply in_opt_year_nil. reflexivity.
    + reflexivity.
Qed.

Lemma in_graph_dmy_day_year (d w v y z : str) :
  forallb NEMO_NOT_QUOTE d = true -> forallb NEMO_NOT_QUOTE y = true ->
  ws_star w = true -> ws_star v = true ->
  (In z (Date.graph_dmy apocope_rule deterministic
           (day_field d ++ w ++ year_field v y)) <->
   w <> [] /\ exists d' y' w', In d' (day (day_field d))
                               /\ y = y' ++ w' /\ ws_star w' = true
                               /\ y' <> [] /\ z = d' ++ " " ++ y').
Proof.
  intros Qd Qy Hw Hv.
  rewrite (in_graph_dmy_fields d _ z Qd).
  assert (S2 : w ++ year_field v y = []
               \/ exists w0 v0 y0, ws_star w0 = true /\ ws_star v0 = true
                     /\ forallb NEMO_NOT_QUOTE y0 = true
                     /\ w ++ year_field v y = w0 ++ year_field v0 y0).
  { right. exists w, v, y. auto. }
  split.
  - intros [d' [zr [Hd [Hr ->]]]].
    apply (month_year_split [] (w ++ year_field v y))
      in Hr as [z1 [z2 [H1 [H2 ->]]]]; auto.
    apply in_opt_month_nil in H1. subst z1.
    apply opt_year_field in H2 as [Nw [y' [w' [-> [Hw' [Hy' ->]]]]]]; auto.
    split; [exact Nw|]. exists d', y', w'. auto 10.
  - intros [Nw [d' [y' [w' [Hd [-> [Hw' [Hy' ->]]]]]]]].
    exists d', (" " ++ y'). split; [exact Hd|]. split; [|reflexivity].
    apply (month_year_split [] (w ++ year_field v (y' ++ w'))); auto.
    exists [], (" " ++ y'). split; [|split].
    + apply in_opt_month_nil. reflexivity.
    + apply opt_year_field; auto. split; [exact Nw|]. exists y', w'. auto.
    + reflexivity.
Qed.

End DateFields.

Lemma date_token_canonical (d m y : str) :
  date_token d m y = date_token_spaced d " " " " m " " " " y.
Proof.
  unfold date_token, date_token_spaced, day_field, month_field, year_field.
  rewrite <- !app_assoc. reflexivity.
Qed.

(** The whole grammar on a token with its three fields. *)
Lemma in_graph_spaced (apocope_rule : Fst) (deterministic : bool)
      (d w1 v1 m w2 v2 y z : str) :
  forallb NEMO_NOT_QUOTE d = true ->
  forallb NEMO_NOT_QUOTE m = true ->
  forallb NEMO_NOT_QUOTE y = true ->
  ws_star w1 = true -> ws_star v1 = true ->
  ws_star w2 = true -> ws_star v2 = true ->
  (In z (Date.graph apocope_rule deterministic
           (date_token_spaced d w1 v1 m w2 v2 y)) <->
   w1 <> [] /\ w2 <> [] /\ m <> []
   /\ exists d' y' w', In d' (Date.day apocope_rule deterministic (day_field d))
                       /\ y = y' ++ w' /\ ws_star w' = true /\ y' <> []
                       /\ z = d' ++ " " ++ m ++ " " ++ y').
Proof.
  intros Qd Qm Qy W1 V1 W2 V2.
  rewrite <- (in_graph_dmy_spaced apocope_rule deterministic
                d w1 v1 m w2 v2 y z Qd Qm Qy W1 V1 W2 V2).
  unfold date_token_spaced, day_field. rewrite <- !app_assoc.
  apply graph_on_day_first.
Qed.

Lemma in_graph_token (apocope_rule : Fst) (deterministic : bool)
      (d m y z : str) :
  forallb NEMO_NOT_QUOTE d = true ->
  forallb NEMO_NOT_QUOTE m = true ->
  forallb NEMO_NOT_QUOTE y = true ->
  (In z (Date.graph apocope_rule deterministic (date_token d m y)) <->
   m <> []
   /\ exists d' y' w', In d' (Date.day apocope_rule deterministic (day_field d))
                       /\ y = y' ++ w' /\ ws_star w' = true /\ y' <> []
                       /\ z = d' ++ " " ++ m ++ " " ++ y').
Proof.
  intros Qd Qm Qy. rewrite date_token_canonical.
  rewrite (in_graph_spaced apocope_rule deterministic d " " " " m " " " " y z);
    auto.
  split.
  - intros [_ [_ H]]. exact H.
  - intros H. split; [discriminate|]. split; [discriminate|]. exact H.
Qed.

(** A text that ends with no white space is cut in one way only into a
    text and a white space run. *)
Lemma no_trailing_ws_split (y y' w' : str) :
  ends_with_ws y = false -> y = y' ++ w' -> ws_star w' = true ->
  w' = [] /\ y' = y.
Proof.
  intros Wy E Hw'.
  assert (w' = []) by (eapply ends_with_ws_false; eauto).
  subst w'. rewrite app_nil_r in E. auto.
Qed.

(** X1. Between the fields of a date token, and behind the keys [month:]
    and [year:], any run of white space reads like a single space: with
    non-empty runs between the fields the outputs are those of the token
    written with single spaces.  Fields that touch (an empty run between
    two fields) have no output; and behind the key [day:] exactly one
    space is read: with any other run of white space there is no output. *)
Theorem date_fields_white_space
        (apocope_rule : Fst) (deterministic : bool)
        (d m y w1 v1 w2 v2 : str) :
  forallb NEMO_NOT_QUOTE d = true ->
  forallb NEMO_NOT_QUOTE m = true ->
  forallb NEMO_NOT_QUOTE y = true ->
  ws_star w1 = true -> ws_star v1 = true ->
  ws_star w2 = true -> ws_star v2 = true ->
  (w1 <> [] -> w2 <> [] ->
   forall z,
     In z (Date.graph apocope_rule deterministic
             (date_token_spaced d w1 v1 m w2 v2 y)) <->
     In z (Date.graph apocope_rule deterministic (date_token d m y)))
  /\ (w1 = [] \/ w2 = [] ->
      Date.graph apocope_rule deterministic
                 (date_token_spaced d w1 v1 m w2 v2 y) = [])
  /\ (forall w R,
         ws_star w = true -> w <> lit " " ->
         Date.graph apocope_rule deterministic
                    ("day:" ++ w ++ quoted d ++ R) = []).
Proof.
  intros Qd Qm Qy W1 V1 W2 V2. split; [|split].
  - intros N1 N2 z.
    rewrite (in_graph_spaced apocope_rule deterministic d w1 v1 m w2 v2 y z);
      auto.
    rewrite (in_graph_token apocope_rule deterministic d m y z); auto.
    split.
    + intros [_ [_ H]]. exact H.
    + intros H. auto.
  - intros Hw. apply no_output_nil. intros z H.
    apply (in_graph_spaced apocope_rule deterministic d w1 v1 m w2 v2 y z)
      in H as [N1 [N2 _]]; auto.
    destruct Hw; contradiction.
  - intros w R Hw Nw. apply no_output_nil. intros z H.
    unfold Date.graph in H. apply in_union in H as [H|H].
    + unfold Date.graph_dmy in H.
      apply in_concat in H as [x1 [x2 [y1 [y2 [E [_ [H _]]]]]]].
      apply in_day in H as [d0 [s [-> _]]].
      unfold day_field in E.
      change (lit "day: ") with ("day:" ++ " ") in E.
      rewrite <- !app_assoc in E. apply app_inv_head in E.
      apply ws_run_unique in E as [E _];
        [|exact Hw|reflexivity|reflexivity|reflexivity].
      exact (Nw E).
    + apply graph_mdy_starts_with_month in H as [r E]. discriminate E.
Qed.

Lemma date_fields_white_space_witness :
  In (lit "due maggio duemila")
     (Date.graph Apocope.rule true
        (date_token_spaced "due" "  " "" "maggio" ["009"%char] "   "
                           "duemila")).
Proof.
  apply (proj1 (date_fields_white_space
                  Apocope.rule true "due" "maggio" "duemila"
                  "  " "" ["009"%char] "   "
                  eq_refl eq_refl eq_refl eq_refl eq_refl eq_refl eq_refl));
    [discriminate | discriminate |].
  vm_compute. left. reflexivity.
Defined.

(** X2. A date token with an empty day, month or year text has no output,
    in either mode and whatever the apocope rule: each field holds at
    least one symbol. *)
Theorem date_empty_field_no_path
        (apocope_rule : Fst) (deterministic : bool) (d m y : str) :
  forallb NEMO_NOT_QUOTE d = true ->
  forallb NEMO_NOT_QUOTE m = true ->
  forallb NEMO_NOT_QUOTE y = true ->
  d = [] \/ m = [] \/ y = [] ->
  Date.graph apocope_rule deterministic (date_token d m y) = [].
Proof.
  intros Qd Qm Qy He. apply no_output_nil. intros z H.
  apply (in_graph_token apocope_rule deterministic d m y z)
    in H as [Hm [d' [y' [w' [Hd [Ey [Hw' [Hy' _]]]]]]]]; auto.
  destruct He as [-> | [-> | ->]].
  - apply in_day in Hd as [d0 [s [E [Hd0 [Qd0 _]]]]].
    unfold day_field in E. apply app_inv_head in E.
    rewrite <- (app_nil_r (quoted [])), <- (app_nil_r (quoted d0)) in E.
    apply quoted_inj in E as [<- _]; auto.
  - apply Hm. reflexivity.
  - symmetry in Ey. apply app_eq_nil in Ey as [Ey _]. auto.
Qed.

Lemma date_empty_field_no_path_witness :
  Date.graph Apocope.rule false (date_token "uno" "" "duemila") = [].
Proof.
  apply (date_empty_field_no_path Apocope.rule false "uno" "" "duemila"
           eq_refl eq_refl eq_refl).
  right. left. reflexivity.
Defined.

(** X3. In deterministic mode a date token with a day, a month and a year
    has exactly one output when the apocope rule has exactly one output on
    the day and the year ends with no white space: the stripped day, with
    "primo" in place of "uno", then the month and the year, each after one
    space. *)
Theorem date_day_month_year_deterministic
        (apocope_rule : Fst) (d d' m y : str) :
  forallb NEMO_NOT_QUOTE d = true ->
  forallb NEMO_NOT_QUOTE m = true ->
  forallb NEMO_NOT_QUOTE y = true ->
  d <> [] -> m <> [] -> y <> [] ->
  ends_with_ws y = false ->
  yields (apocope_rule d) d' ->
  yields (Date.graph apocope_rule true (date_token d m y))
         ((if str_eqb d' "uno" then lit "primo" else d')
            ++ " " ++ m ++ " " ++ y).
Proof.
  intros Qd Qm Qy Hd Hm Hy Wy Hr z.
  rewrite (in_graph_token apocope_rule true d m y z); auto. split.
  - intros [_ [d1 [y' [w' [H1 [Ey [Hw' [_ ->]]]]]]]].
    destruct (no_trailing_ws_split y y' w' Wy Ey Hw') as [_ ->].
    apply in_day in H1 as [d0 [s [E [_ [Qd0 [Hs Hz]]]]]].
    unfold day_field in E. apply app_inv_head in E.
    rewrite <- (app_nil_r (quoted d)), <- (app_nil_r (quoted d0)) in E.
    apply quoted_inj in E as [<- _]; auto.
    apply (yields_only _ _ _ Hr) in Hs. subst s.
    destruct Hz as [->|[E _]]; [reflexivity | discriminate E].
  - intros ->. split; [exact Hm|].
    exists (if str_eqb d' "uno" then lit "primo" else d'), y, [].
    rewrite app_nil_r. split; [|auto].
    apply in_day. exists d, d'. split; [reflexivity|].
    split; [exact Hd|]. split; [exact Qd|].
    split; [apply (yields_self _ _ Hr) | left; reflexivity].
Qed.

Lemma date_day_month_year_deterministic_witness :
  yields (Date.graph Apocope.rule true
            (date_token "ventuno" "marzo" "duemila"))
         ("ventuno" ++ " " ++ "marzo" ++ " " ++ "duemila").
Proof.
  apply (date_day_month_year_deterministic
           Apocope.rule "ventuno" "ventuno" "marzo" "duemila"
           eq_refl eq_refl eq_refl);
    [discriminate | discriminate | discriminate | reflexivity |].
  apply apocope_single_word. reflexivity.
Defined.

(** X4. In non-deterministic mode the same token has the reading of the
    deterministic mode and, beside it, the reading that keeps the stripped
    day as it is: for the day "uno" both "uno" and "primo" come out. *)
Theorem date_day_non_deterministic
        (apocope_rule : Fst) (d d' m y : str) :
  forallb NEMO_NOT_QUOTE d = true ->
  forallb NEMO_NOT_QUOTE m = true ->
  forallb NEMO_NOT_QUOTE y = true ->
  d <> [] -> m <> [] -> y <> [] ->
  ends_with_ws y = false ->
  yields (apocope_rule d) d' ->
  forall z,
    In z (Date.graph apocope_rule false (date_token d m y)) <->
    z = d' ++ " " ++ m ++ " " ++ y
    \/ z = (if str_eqb d' "uno" then lit "primo" else d')
             ++ " " ++ m ++ " " ++ y.
Proof.
  intros Qd Qm Qy Hd Hm Hy Wy Hr z.
  rewrite (in_graph_token apocope_rule false d m y z); auto. split.
  - intros [_ [d1 [y' [w' [H1 [Ey [Hw' [_ ->]]]]]]]].
    destruct (no_trailing_ws_split y y' w' Wy Ey Hw') as [_ ->].
    apply in_day in H1 as [d0 [s [E [_ [Qd0 [Hs Hz]]]]]].
    unfold day_field in E. apply app_inv_head in E.
    rewrite <- (app_nil_r (quoted d)), <- (app_nil_r (quoted d0)) in E.
    apply quoted_inj in E as [<- _]; auto.
    apply (yields_only _ _ _ Hr) in Hs. subst s.
    destruct Hz as [->|[_ ->]]; auto.
  - intros Hz. split; [exact Hm|].
    assert (Hin : forall v, v = d' \/ v = (if str_eqb d' "uno"
                                           then lit "primo" else d') ->
                            In v (Date.day apocope_rule false (day_field d))).
    { intros v Hv. apply in_day. exists d, d'. split; [reflexivity|].
      split; [exact Hd|]. split; [exact Qd|].
      split; [apply (yields_self _ _ Hr)|].
      destruct Hv as [->| ->]; auto. }
    destruct Hz as [->| ->].
    + exists d', y, []. rewrite app_nil_r. split; [apply Hin|]; auto.
    + exists (if str_eqb d' "uno" then lit "primo" else d'), y, [].
      rewrite app_nil_r. split; [apply Hin|]; auto.
Qed.

Lemma date_day_non_deterministic_witness :
  In (lit "uno maggio duemila")
     (Date.graph Apocope.rule false (date_token "uno" "maggio" "duemila"))
  /\ In (lit "primo maggio duemila")
        (Date.graph Apocope.rule false (date_token "uno" "maggio" "duemila")).
Proof.
  assert (H := date_day_non_deterministic
                 Apocope.rule "uno" "uno" "maggio" "duemila"
                 eq_refl eq_refl eq_refl).
  split; apply H;
    first [ discriminate | reflexivity
          | apply apocope_single_word; reflexivity
          | left; reflexivity | right; reflexivity ].
Defined.

(** X5. White space at the end of the year text is deleted, and it is kept
    as well: for a year text followed by a run of white space inside the
    quotes, the output with the bare year and the output with the year and
    its white space are both produced, also in deterministic mode; every
    output ends with the year text less some white space at its end. *)
Theorem date_year_trailing_white_space
        (apocope_rule : Fst) (deterministic : bool) (d d' m y w : str) :
  forallb NEMO_NOT_QUOTE d = true ->
  forallb NEMO_NOT_QUOTE m = true ->
  forallb NEMO_NOT_QUOTE y = true ->
  m <> [] -> y <> [] -> ws_star w = true ->
  In d' (Date.day apocope_rule deterministic (day_field d)) ->
  In (d' ++ " " ++ m ++ " " ++ y)
     (Date.graph apocope_rule deterministic (date_token d m (y ++ w)))
  /\ In (d' ++ " " ++ m ++ " " ++ y ++ w)
        (Date.graph apocope_rule deterministic (date_token d m (y ++ w)))
  /\ (forall z,
         In z (Date.graph apocope_rule deterministic
                 (date_token d m (y ++ w))) ->
         exists p y' w', z = p ++ " " ++ y' /\ y ++ w = y' ++ w'
                         /\ ws_star w' = true).
Proof.
  intros Qd Qm Qy Hm Hy Hw Hd.
  assert (Qyw : forallb NEMO_NOT_QUOTE (y ++ w) = true)
    by (apply text_and_ws_not_quote; assumption).
  split; [|split].
  - apply (in_graph_token apocope_rule deterministic d m (y ++ w)); auto.
    split; [exact Hm|]. exists d', y, w. auto 10.
  - apply (in_graph_token apocope_rule deterministic d m (y ++ w)); auto.
    split; [exact Hm|]. exists d', (y ++ w), []. rewrite app_nil_r.
    split; [exact Hd|]. split; [reflexivity|]. split; [reflexivity|].
    split; [|reflexivity]. destruct y; [congruence | discriminate].
  - intros z Hz.
    apply (in_graph_token apocope_rule deterministic d m (y ++ w))
      in Hz as [_ [d1 [y' [w' [_ [Ey [Hw' [_ ->]]]]]]]]; auto.
    exists (d1 ++ " " ++ m), y', w'. rewrite <- !app_assoc. auto.
Qed.

Lemma date_year_trailing_white_space_witness :
  In (lit "due maggio duemila")
     (Date.graph Apocope.rule true (date_token "due" "maggio" "duemila  "))
  /\ In (lit "due maggio duemila  ")
        (Date.graph Apocope.rule true
           (date_token "due" "maggio" "duemila  ")).
Proof.
  assert (H : In (lit "due") (Date.day Apocope.rule true (day_field "due")))
    by (vm_compute; left; reflexivity).
  destruct (date_year_trailing_white_space
              Apocope.rule true "due" "due" "maggio" "duemila" "  "
              eq_refl eq_refl eq_refl) as [H1 [H2 _]];
    [discriminate | discriminate | reflexivity | exact H |].
  split; [exact H1 | exact H2].
Defined.

(** X6. The month and the year are optional: the day alone reads as the
    day, the day and a month as "day month", the day and a year as
    "day year"; what is present comes out in the order of the token. *)
Theorem date_optional_month_year
        (apocope_rule : Fst) (deterministic : bool) (d m y w v : str) :
  forallb NEMO_NOT_QUOTE d = true ->
  forallb NEMO_NOT_QUOTE m = true ->
  forallb NEMO_NOT_QUOTE y = true ->
  ws_star w = true -> ws_star v = true ->
  (forall z,
      In z (Date.graph apocope_rule deterministic (day_field d)) <->
      In z (Date.day apocope_rule deterministic (day_field d)))
  /\ (forall z,
         In z (Date.graph apocope_rule deterministic
                 (day_field d ++ w ++ month_field v m)) <->
         w <> [] /\ m <> []
         /\ exists d', In d' (Date.day apocope_rule deterministic
                                (day_field d))
                       /\ z = d' ++ " " ++ m)
  /\ (forall z,
         In z (Date.graph apocope_rule deterministic
                 (day_field d ++ w ++ year_field v y)) <->
         w <> []
         /\ exists d' y' w',
             In d' (Date.day apocope_rule deterministic (day_field d))
             /\ y = y' ++ w' /\ ws_star w' = true /\ y' <> []
             /\ z = d' ++ " " ++ y').
Proof.
  intros Qd Qm Qy Hw Hv. split; [|split]; intros z.
  - rewrite <- (in_graph_dmy_day_only apocope_rule deterministic d z Qd).
    unfold day_field. apply graph_on_day_first.
  - rewrite <- (in_graph_dmy_day_month apocope_rule deterministic
                  d w v m z Qd Qm Hw Hv).
    unfold day_field. rewrite <- !app_assoc. apply graph_on_day_first.
  - rewrite <- (in_graph_dmy_day_year apocope_rule deterministic
                  d w v y z Qd Qy Hw Hv).
    unfold day_field. rewrite <- !app_assoc. apply graph_on_day_first.
Qed.

Lemma date_optional_month_year_witness :
  In (lit "primo")
     (Date.graph Apocope.rule true (day_field "uno")).
Proof.
  apply (proj1 (date_optional_month_year
                  Apocope.rule true "uno" "maggio" "duemila" " " " "
                  eq_refl eq_refl eq_refl eq_refl eq_refl)).
  vm_compute. left. reflexivity.
Defined.

(** ** The date verbalizer: month-day-year order *)

Section DateMonthFirst.

Variable apocope_rule : Fst.
Variable deterministic : bool.

Let day : Fst := Date.day apocope_rule deterministic.
Let core : Fst :=
  Date.month <+> NEMO_SPACE <+> day <+> closure01 (NEMO_SPACE <+> Date.year).

Lemma graph_dmy_starts_with_day (x z : str) :
  In z (Date.graph_dmy apocope_rule deterministic x) ->
  exists r, x = "day: " ++ r.
Proof.
  unfold Date.graph_dmy. intros H.
  apply in_concat in H as [x1 [x2 [y1 [y2 [-> [_ [H _]]]]]]].
  apply in_day in H as [d [s [-> _]]].
  exists (quoted d ++ x2). unfold day_field. rewrite <- !app_assoc.
  reflexivity.
Qed.

Lemma in_mdy_core (v1 m s1 d s2 v2 y z : str) :
  forallb NEMO_NOT_QUOTE m = true ->
  forallb NEMO_NOT_QUOTE d = true ->
  forallb NEMO_NOT_QUOTE y = true ->
  ws_star v1 = true -> ws_star s1 = true ->
  ws_star s2 = true -> ws_star v2 = true ->
  (In z (core (date_token_mdy v1 m s1 d s2 v2 y)) <->
   s1 = lit " " /\ s2 = lit " " /\ m <> []
   /\ exists d' y' w', In d' (day (day_field d))
                       /\ y = y' ++ w' /\ ws_star w' = true /\ y' <> []
                       /\ z = m ++ " " ++ d' ++ " " ++ y').
Proof.
  intros Qm Qd Qy V1 S1 S2 V2. unfold core. split.
  - intros H.
    apply in_concat in H as [x1 [r1 [z1 [t1 [E [-> [H1 H]]]]]]].
    apply in_month in H1 as [w [Hw [-> [Hm Qz1]]]].
    unfold date_token_mdy, month_field in E. rewrite <- !app_assoc in E.
    apply app_inv_head in E.
    apply ws_run_unique in E as [<- E]; [|auto|auto|reflexivity|reflexivity].
    apply quoted_inj in E as [<- <-]; auto.
    apply in_concat in H as [x2 [r2 [z2 [t2 [E [-> [H2 H]]]]]]].
    apply in_NEMO_SPACE in H2 as [-> ->].
    apply in_concat in H as [x3 [r3 [z3 [t3 [-> [-> [H3 H]]]]]]].
    destruct (proj1 (in_day apocope_rule deterministic x3 z3) H3)
      as [d0 [s [-> [_ [Qd0 _]]]]].
    unfold day_field in E. rewrite <- !app_assoc in E.
    apply ws_run_unique in E as [-> E];
      [|auto|reflexivity|reflexivity|reflexivity].
    apply app_inv_head in E.
    apply quoted_inj in E as [<- <-]; auto.
    apply in_closure01 in H as [[E _]|H].
    { apply app_eq_nil in E as [_ E]. discriminate E. }
    apply in_concat in H as [x4 [r4 [z4 [t4 [E [-> [H4 H]]]]]]].
    apply in_NEMO_SPACE in H4 as [-> ->].
    apply in_year in H as [u [w' [Hu [Hw' [-> [Hy Qt4]]]]]].
    apply ws_run_unique in E as [-> E];
      [|auto|reflexivity|reflexivity|reflexivity].
    unfold year_field in E. apply app_inv_head in E.
    apply ws_run_unique in E as [<- E]; [|auto|auto|reflexivity|reflexivity].
    rewrite <- (app_nil_r (quoted y)), <- (app_nil_r (quoted (t4 ++ w'))) in E.
    apply quoted_inj in E as [-> _];
      [|exact Qy|apply text_and_ws_not_quote; assumption].
    split; [reflexivity|]. split; [reflexivity|]. split; [exact Hm|].
    exists z3, t4, w'. auto 10.
  - intros [-> [-> [Hm [d' [y' [w' [Hd [-> [Hw' [Hy' ->]]]]]]]]]].
    rewrite forallb_app in Qy. apply andb_true_iff in Qy as [Qy' _].
    apply in_concat.
    exists (month_field v1 m),
           (" " ++ day_field d ++ " " ++ year_field v2 (y' ++ w')),
           m, (" " ++ d' ++ " " ++ y').
    split; [reflexivity|]. split; [reflexivity|]. split.
    { apply in_month. exists v1. auto. }
    apply in_concat.
    exists (lit " "), (day_field d ++ " " ++ year_field v2 (y' ++ w')),
           (lit " "), (d' ++ " " ++ y').
    split; [reflexivity|]. split; [reflexivity|]. split.
    { apply in_NEMO_SPACE. auto. }
    apply in_concat.
    exists (day_field d), (" " ++ year_field v2 (y' ++ w')),
           d', (" " ++ y').
    split; [reflexivity|]. split; [reflexivity|]. split; [exact Hd|].
    apply in_closure01. right. apply in_concat.
    exists (lit " "), (year_field v2 (y' ++ w')), (lit " "), y'.
    split; [reflexivity|]. split; [reflexivity|]. split.
    { apply in_NEMO_SPACE. auto. }
    apply in_year. exists v2, w'. auto 10.
Qed.

(** A token that begins with the month is read by the month-day-year
    branch alone, which in deterministic mode ends with the marker. *)
Lemma in_graph_month_first (R z : str) :
  In z (Date.graph apocope_rule deterministic ("month:" ++ R)) <->
  if deterministic
  then exists R', R = R' ++ Date.preserve_order /\ In z (core ("month:" ++ R'))
  else In z (core ("month:" ++ R)).
Proof.
  unfold Date.graph. rewrite in_union.
  assert (Hd : ~ In z (Date.graph_dmy apocope_rule deterministic
                         ("month:" ++ R))).
  { intros H. apply graph_dmy_starts_with_day in H as [r E]. discriminate E. }
  unfold Date.graph_mdy. cbv zeta. fold day. fold core.
  destruct deterministic.
  - rewrite in_concat. split.
    + intros [H|H]; [destruct (Hd H)|].
      destruct H as [x1 [x2 [y1 [y2 [E [-> [H1 H2]]]]]]].
      apply in_delete_lit in H2 as [-> ->]. rewrite app_nil_r.
      assert (S : exists r, x1 = "month:" ++ r).
      { unfold core in H1.
        apply in_concat in H1 as [a [b [u1 [u2 [E1 [_ [H1 _]]]]]]].
        apply in_month in H1 as [w [_ [-> _]]]. rewrite E1.
        exists ((w ++ quoted u1) ++ b). rewrite <- !app_assoc. reflexivity. }
      destruct S as [r ->].
      rewrite <- app_assoc in E. apply app_inv_head in E.
      exists r. auto.
    + intros [R' [-> H]]. right.
      exists ("month:" ++ R'), Date.preserve_order, z, [].
      rewrite app_nil_r, <- app_assoc. split; [reflexivity|].
      split; [reflexivity|]. split; [exact H|].
      apply in_delete_lit. auto.
  - split; [|auto]. intros [H|H]; [destruct (Hd H) | exact H].
Qed.

End DateMonthFirst.

Lemma date_token_mdy_month_first (v1 m s1 d s2 v2 y : str) :
  date_token_mdy v1 m s1 d s2 v2 y
  = "month:" ++ (v1 ++ quoted m ++ s1 ++ day_field d ++ s2
                    ++ year_field v2 y).
Proof.
  unfold date_token_mdy, month_field. rewrite <- !app_assoc. reflexivity.
Qed.

(** X7. A token in month-day-year order is read in that order.  In
    deterministic mode it is read only with the [preserve_order] marker at
    its end, and its fields have to be separated by exactly one space: the
    output is the month, the day (with "primo" for "uno") and the year;
    with any other white space between the fields, or without the marker,
    there is no output.  In non-deterministic mode the token is read
    without the marker. *)
Theorem date_month_day_year
        (apocope_rule : Fst) (d d' m y v1 s1 s2 v2 : str) :
  forallb NEMO_NOT_QUOTE m = true ->
  forallb NEMO_NOT_QUOTE d = true ->
  forallb NEMO_NOT_QUOTE y = true ->
  d <> [] -> m <> [] -> y <> [] ->
  ends_with_ws y = false ->
  ws_star v1 = true -> ws_star s1 = true ->
  ws_star s2 = true -> ws_star v2 = true ->
  yields (apocope_rule d) d' ->
  (s1 = lit " " -> s2 = lit " " ->
   yields (Date.graph apocope_rule true
             (date_token_mdy v1 m s1 d s2 v2 y ++ Date.preserve_order))
          (m ++ " " ++ (if str_eqb d' "uno" then lit "primo" else d')
             ++ " " ++ y))
  /\ (s1 <> lit " " \/ s2 <> lit " " ->
      Date.graph apocope_rule true
                 (date_token_mdy v1 m s1 d s2 v2 y ++ Date.preserve_order)
      = [])
  /\ Date.graph apocope_rule true (date_token_mdy v1 m s1 d s2 v2 y) = []
  /\ (s1 = lit " " -> s2 = lit " " ->
      In (m ++ " " ++ d' ++ " " ++ y)
         (Date.graph apocope_rule false (date_token_mdy v1 m s1 d s2 v2 y))).
Proof.
  intros Qm Qd Qy Hd Hm Hy Wy V1 S1 S2 V2 Hr.
  assert (Hmarked : forall z,
             In z (Date.graph apocope_rule true
                     (date_token_mdy v1 m s1 d s2 v2 y
                        ++ Date.preserve_order)) <->
             s1 = lit " " /\ s2 = lit " "
             /\ z = m ++ " " ++ (if str_eqb d' "uno" then lit "primo" else d')
                      ++ " " ++ y).
  { intros z. rewrite date_token_mdy_month_first, <- app_assoc.
    rewrite (in_graph_month_first apocope_rule true). split.
    - intros [R' [E H]]. apply app_inv_tail in E. subst R'.
      rewrite <- date_token_mdy_month_first in H.
      apply (in_mdy_core apocope_rule true) in H
        as [E1 [E2 [_ [d1 [y' [w' [H1 [Ey [Hw' [_ ->]]]]]]]]]]; auto.
      destruct (no_trailing_ws_split y y' w' Wy Ey Hw') as [_ ->].
      split; [exact E1|]. split; [exact E2|].
      apply in_day in H1 as [d0 [s [E [_ [Qd0 [Hs Hz]]]]]].
      unfold day_field in E. apply app_inv_head in E.
      rewrite <- (app_nil_r (quoted d)), <- (app_nil_r (quoted d0)) in E.
      apply quoted_inj in E as [<- _]; auto.
      apply (yields_only _ _ _ Hr) in Hs. subst s.
      destruct Hz as [->|[E _]]; [reflexivity | discriminate E].
    - intros [E1 [E2 ->]]. eexists. split; [reflexivity|].
      rewrite <- date_token_mdy_month_first.
      apply (in_mdy_core apocope_rule true); auto.
      split; [exact E1|]. split; [exact E2|]. split; [exact Hm|].
      exists (if str_eqb d' "uno" then lit "primo" else d'), y, [].
      rewrite app_nil_r. split; [|auto].
      apply in_day. exists d, d'. split; [reflexivity|].
      split; [exact Hd|]. split; [exact Qd|].
      split; [apply (yields_self _ _ Hr) | left; reflexivity]. }
  split; [|split; [|split]].
  - intros E1 E2 z. rewrite Hmarked. split; [intros [_ [_ H]]; exact H|auto].
  - intros Hs. apply no_output_nil. intros z H.
    apply Hmarked in H as [E1 [E2 _]]. destruct Hs; contradiction.
  - apply no_output_nil. intros z H.
    rewrite date_token_mdy_month_first in H.
    apply (in_graph_month_first apocope_rule true) in H as [R' [E _]].
    unfold year_field, quoted, Date.preserve_order in E.
    change (lit " preserve_order: true")
      with (" preserve_order: tru" ++ ["e"%char]) in E.
    change (dq :: y ++ [dq]) with ((dq :: y) ++ [dq]) in E.
    rewrite !app_assoc in E.
    apply app_inj_tail in E as [_ E]. discriminate E.
  - intros E1 E2. rewrite date_token_mdy_month_first.
    apply (in_graph_month_first apocope_rule false).
    rewrite <- date_token_mdy_month_first.
    apply (in_mdy_core apocope_rule false); auto.
    split; [exact E1|]. split; [exact E2|]. split; [exact Hm|].
    exists d', y, []. rewrite app_nil_r. split; [|auto].
    apply in_day. exists d, d'. split; [reflexivity|].
    split; [exact Hd|]. split; [exact Qd|].
    split; [apply (yields_self _ _ Hr) | right; auto].
Qed.

Lemma date_month_day_year_witness :
  yields (Date.graph Apocope.rule true
            (date_token_mdy " " "maggio" " " "uno" " " " " "duemila"
               ++ Date.preserve_order))
         ("maggio" ++ " " ++ "primo" ++ " " ++ "duemila").
Proof.
  assert (Hu : yields (Apocope.rule "uno") "uno")
    by (apply apocope_single_word; reflexivity).
  destruct (date_month_day_year
              Apocope.rule "uno" "uno" "maggio" "duemila" " " " " " " " "
              eq_refl eq_refl eq_refl
              ltac:(discriminate) ltac:(discriminate) ltac:(discriminate)
              eq_refl eq_refl eq_refl eq_refl eq_refl Hu) as [H _].
  exact (H eq_refl eq_refl).
Defined.

(** ** The fraction verbalizer: integer part and branches *)

Section FractionBranches.

Variable accents : list (str * str).
Variable apocope_rule : Fst.
Variable gender_rule : Fst.

Lemma in_integer (x y : str) :
  In y (Fraction.integer apocope_rule x) <->
  exists i, x = integer_field i /\ forallb NEMO_NOT_QUOTE i = true
            /\ In y (apocope_rule i).
Proof.
  unfold Fraction.integer, strip_cardinal_apocope. rewrite in_concat. split.
  - intros [x1 [x2 [y1 [y2 [-> [-> [H1 H2]]]]]]].
    apply in_delete_lit in H1 as [-> ->].
    apply in_concat in H2 as [x3 [x4 [y3 [y4 [-> [-> [H3 H4]]]]]]].
    apply in_compose in H3 as [i [Hi Hy]].
    apply in_closure_class in Hi as [Qi [_ ->]].
    apply in_delete_lit in H4 as [-> ->].
    exists x3. rewrite app_nil_r. simpl. split; [|auto].
    unfold integer_field, quoted. simpl. rewrite <- ?app_assoc. reflexivity.
  - intros [i [-> [Qi Hy]]].
    exists ("integer_part: " ++ [dq]), (i ++ [dq]), [], y.
    split.
    { unfold integer_field, quoted. simpl. rewrite <- ?app_assoc.
      reflexivity. }
    split; [reflexivity|]. split; [apply in_delete_lit; auto|].
    apply in_concat. exists i, [dq], y, []. rewrite app_nil_r.
    split; [reflexivity|]. split; [reflexivity|]. split.
    + apply in_compose. exists i. split; [|exact Hy].
      apply in_closure_class. split; [exact Qi|]. split; [lia|reflexivity].
    + apply in_delete_lit. auto.
Qed.

Lemma fraction_starts_with_numerator (x z : str) :
  In z (Fraction.fraction accents apocope_rule x) ->
  exists r, x = "numerator: " ++ r.
Proof.
  unfold Fraction.fraction. rewrite !in_union. intros [H|[H|H]].
  - unfold Fraction.fraction_with_one in H. apply in_compose in H as [m [H _]].
    apply in_fraction_with_one_plain in H as [w [d [tag [y [_ [_ [-> _]]]]]]].
    eauto.
  - apply in_fraction_default in H as [n [w [d [tag [y [_ [_ [-> _]]]]]]]].
    eauto.
  - apply in_fraction_with_cardinal in H as [n [w [d [n' [d' [_ [-> _]]]]]]].
    eauto.
Qed.

Lemma fraction_fem_starts_with_numerator (x z : str) :
  In z (Fraction.fraction_fem accents apocope_rule gender_rule x) ->
  exists r, x = "numerator: " ++ r.
Proof.
  unfold Fraction.fraction_fem, Fraction.fraction_with_one_fem,
    Fraction.fraction_default_fem.
  rewrite !in_union. intros [[H|H]|[[H|H]|H]].
  - unfold Fraction.fraction_with_one in H. apply in_compose in H as [m [H _]].
    apply in_fraction_with_one_plain in H as [w [d [tag [y [_ [_ [-> _]]]]]]].
    eauto.
  - apply in_fraction_with_one_fem_branch in H as [w [tag [_ [_ [-> _]]]]].
    eauto.
  - apply in_fraction_default in H as [n [w [d [tag [y [_ [_ [-> _]]]]]]]].
    eauto.
  - destruct (fraction_default_fem_branch_empty gender_rule x z H).
  - apply in_fraction_with_cardinal in H as [n [w [d [n' [d' [_ [-> _]]]]]]].
    eauto.
Qed.

(** Without an integer part the two grammars are their fraction parts. *)
Lemma graph_masc_on_numerator (R z : str) :
  In z (Fraction.graph_masc accents apocope_rule ("numerator: " ++ R)) <->
  In z (Fraction.fraction accents apocope_rule ("numerator: " ++ R)).
Proof.
  unfold Fraction.graph_masc. rewrite in_concat. split.
  - intros [x1 [x2 [y1 [y2 [E [-> [H1 H2]]]]]]].
    apply in_closure01 in H1 as [[-> ->]|H1].
    + simpl in E. subst x2. exact H2.
    + apply in_concat in H1 as [x3 [x4 [y3 [y4 [-> [_ [H3 _]]]]]]].
      apply integer_prefix in H3 as [rest ->].
      rewrite <- !app_assoc in E. discriminate E.
  - intros H. exists [], ("numerator: " ++ R), [], z.
    split; [reflexivity|]. split; [reflexivity|]. split; [|exact H].
    apply in_closure01. left. split; reflexivity.
Qed.

Lemma graph_fem_on_numerator (R z : str) :
  In z (Fraction.graph_fem accents apocope_rule gender_rule
          ("numerator: " ++ R)) <->
  In z (Fraction.fraction_fem accents apocope_rule gender_rule
          ("numerator: " ++ R)).
Proof.
  unfold Fraction.graph_fem. rewrite in_concat. split.
  - intros [x1 [x2 [y1 [y2 [E [-> [H1 H2]]]]]]].
    apply in_closure01 in H1 as [[-> ->]|H1].
    + simpl in E. subst x2. exact H2.
    + apply in_concat in H1 as [x3 [x4 [y3 [y4 [-> [_ [H3 _]]]]]]].
      unfold Fraction.integer_fem, shift_cardinal_gender in H3.
      apply in_compose in H3 as [u [H3 _]].
      apply integer_prefix in H3 as [rest ->].
      rewrite <- !app_assoc in E. discriminate E.
  - intros H. exists [], ("numerator: " ++ R), [], z.
    split; [reflexivity|]. split; [reflexivity|]. split; [|exact H].
    apply in_closure01. left. split; reflexivity.
Qed.

(** An integer part, any white space and what a fraction part [F] reads
    from a text that begins with the numerator. *)
Lemma in_integer_then (I F : Fst) (i w t z : str) :
  (forall x y, In y (I x) ->
               exists i0, x = integer_field i0
                          /\ forallb NEMO_NOT_QUOTE i0 = true) ->
  (forall x y, In y (F x) -> exists r, x = "numerator: " ++ r) ->
  forallb NEMO_NOT_QUOTE i = true -> ws_star w = true ->
  ws_head t = false ->
  (In z ((closure01 (I <+> delete_space <+> Fraction.conjunction) <+> F)
           (integer_field i ++ w ++ t)) <->
   exists i' f, In i' (I (integer_field i)) /\ In f (F t)
                /\ z = i' ++ " e " ++ f).
Proof.
  intros HI HF Qi Hw Ht. rewrite in_concat. split.
  - intros [x1 [x2 [y1 [y2 [E [-> [H1 H2]]]]]]].
    apply in_closure01 in H1 as [[-> ->]|H1].
    + simpl in E. subst x2. apply HF in H2 as [r E]. discriminate E.
    + apply in_concat in H1 as [x3 [x4 [y3 [y4 [-> [-> [H3 H4]]]]]]].
      apply in_concat in H4 as [x5 [x6 [y5 [y6 [-> [-> [H5 H6]]]]]]].
      apply in_delete_space in H5 as [W5 ->].
      apply in_insert in H6 as [-> ->].
      destruct (HI _ _ H3) as [i0 [-> Qi0]].
      destruct (HF _ _ H2) as [r ->].
      unfold integer_field in E. rewrite app_nil_r, <- !app_assoc in E.
      apply app_inv_head in E.
      apply quoted_inj in E as [<- E]; auto.
      apply ws_run_unique in E as [<- E]; auto.
      exists y3, y2. rewrite <- E in H2. simpl.
      rewrite <- !app_assoc. auto.
  - intros [i' [f [Hi [Hf ->]]]].
    exists (integer_field i ++ w), t, (i' ++ " e "), f.
    rewrite <- !app_assoc. split; [reflexivity|]. split; [reflexivity|].
    split; [|exact Hf].
    apply in_closure01. right. apply in_concat.
    exists (integer_field i), w, i', (lit " e ").
    split; [reflexivity|]. split; [reflexivity|]. split; [exact Hi|].
    apply in_concat. exists w, [], [], (lit " e ").
    rewrite app_nil_r. split; [reflexivity|]. split; [reflexivity|].
    split; [apply in_delete_space; auto|]. apply in_insert. auto.
Qed.

End FractionBranches.

Section CardinalToken.

Variable accents : list (str * str).
Variable apocope_rule : Fst.
Variable gender_rule : Fst.
Variables n d : str.
Hypothesis n_not_quote : forallb NEMO_NOT_QUOTE n = true.
Hypothesis d_not_quote : forallb NEMO_NOT_QUOTE d = true.

Let token := fraction_token_cardinal n d.

(** The branches that ask for a feature tag do not read a bare
    denominator. *)
Lemma cardinal_token_with_one_plain (z : str) :
  ~ In z (Fraction.fraction_with_one_plain accents token).
Proof.
  rewrite in_fraction_with_one_plain.
  intros [w [d' [tag [y [Ht [Hw [E [Qd _]]]]]]]].
  unfold token in E. symmetry in E. flat_in E. injection E as E.
  apply (token_tail_inv n "un") in E as [_ [-> E']];
    [|exact n_not_quote|reflexivity|exact Hw|reflexivity].
  injection E' as E'.
  apply first_quote_unique in E' as [_ E']; [|exact Qd|exact d_not_quote].
  discriminate E'.
Qed.

Lemma cardinal_token_fem_branch (z : str) :
  ~ In z (Fraction.fraction_with_one_fem_branch token).
Proof.
  rewrite in_fraction_with_one_fem_branch.
  intros [w [tag [Ht [Hw [E _]]]]].
  unfold token in E. symmetry in E. flat_in E. injection E as E.
  apply (token_tail_inv n "un") in E as [_ [-> E']];
    [|exact n_not_quote|reflexivity|exact Hw|reflexivity].
  injection E' as E'.
  apply (first_quote_unique "mezzo" d) in E' as [_ E'];
    [|reflexivity|exact d_not_quote].
  discriminate E'.
Qed.

Lemma cardinal_token_default (z : str) :
  ~ In z (Fraction.fraction_default accents token).
Proof.
  rewrite in_fraction_default.
  intros [n' [w [d' [tag [y [Ht [Hw [E [Qn [_ [Qd _]]]]]]]]]]].
  unfold token in E. symmetry in E. flat_in E. injection E as E.
  apply token_tail_inv in E as [_ [-> E']];
    [|exact n_not_quote|exact Qn|exact Hw|reflexivity].
  injection E' as E'.
  apply first_quote_unique in E' as [_ E']; [|exact Qd|exact d_not_quote].
  discriminate E'.
Qed.

Lemma cardinal_token_with_cardinal (z : str) :
  In z (Fraction.fraction_with_cardinal apocope_rule token) <->
  exists n' d', In n' (apocope_rule n) /\ In d' (apocope_rule d)
                /\ z = n' ++ " fratto " ++ d'.
Proof.
  rewrite in_fraction_with_cardinal. split.
  - intros [n0 [w [d0 [n' [d' [Hw [E [Qn [Qd [Hn [Hd ->]]]]]]]]]]].
    unfold token in E. symmetry in E. flat_in E. injection E as E.
    apply token_tail_inv in E as [-> [-> E']];
      [|exact n_not_quote|exact Qn|exact Hw|reflexivity].
    injection E' as E'.
    apply first_quote_unique in E' as [-> _]; [|exact Qd|exact d_not_quote].
    eauto.
  - intros [n' [d' [Hn [Hd ->]]]]. exists n, [], d, n', d'.
    repeat split; auto.
Qed.

Lemma cardinal_token_graph (z : str) :
  In z (Fraction.graph accents apocope_rule gender_rule token) <->
  exists n' d', In n' (apocope_rule n) /\ In d' (apocope_rule d)
                /\ z = n' ++ " fratto " ++ d'.
Proof.
  rewrite <- cardinal_token_with_cardinal.
  unfold Fraction.graph. rewrite in_union.
  unfold token, fraction_token_cardinal.
  rewrite graph_masc_on_numerator, graph_fem_on_numerator.
  fold (fraction_token_cardinal n d). fold token.
  unfold Fraction.fraction, Fraction.fraction_fem,
    Fraction.fraction_with_one_fem, Fraction.fraction_default_fem,
    Fraction.fraction_with_one.
  rewrite !in_union, !in_compose. split.
  - intros [[[m [H _]]|[H|H]]|[[[m [H _]]|H]|[[H|H]|H]]].
    + destruct (cardinal_token_with_one_plain m H).
    + destruct (cardinal_token_default z H).
    + exact H.
    + destruct (cardinal_token_with_one_plain m H).
    + destruct (cardinal_token_fem_branch z H).
    + destruct (cardinal_token_default z H).
    + destruct (fraction_default_fem_branch_empty gender_rule _ z H).
    + exact H.
  - intros H. left. right. right. exact H.
Qed.

End CardinalToken.

(** X8. A fraction token whose denominator carries no feature tag is read
    by the cardinal branch alone, in the masculine and in the feminine
    grammar alike: the outputs are the numerator and the denominator, each
    through the apocope rule, around the word "fratto". *)
Theorem fraction_cardinal_denominator
        (accents : list (str * str)) (apocope_rule gender_rule : Fst)
        (n d : str) :
  forallb NEMO_NOT_QUOTE n = true ->
  forallb NEMO_NOT_QUOTE d = true ->
  forall z,
    In z (Fraction.graph accents apocope_rule gender_rule
            (fraction_token_cardinal n d)) <->
    exists n' d', In n' (apocope_rule n) /\ In d' (apocope_rule d)
                  /\ z = n' ++ " fratto " ++ d'.
Proof.
  intros Qn Qd z.
  apply (cardinal_token_graph accents apocope_rule gender_rule n d Qn Qd z).
Qed.

Lemma fraction_cardinal_denominator_witness :
  In (lit "un fratto otto")
     (Fraction.graph Sample.accents Apocope.rule Gender.rule
        (fraction_token_cardinal "un" "otto")).
Proof.
  apply (fraction_cardinal_denominator
           Sample.accents Apocope.rule Gender.rule "un" "otto"
           eq_refl eq_refl).
  exists (lit "un"), (lit "otto").
  split; [vm_compute; left; reflexivity|].
  split; [vm_compute; left; reflexivity | reflexivity].
Defined.

(** X9. The branch added to [fraction_default] for the feminine has no
    output on any input: it asks a plural denominator, which ends in "i",
    to be the word "mezzo".  The feminine default fraction is the
    masculine one. *)
Theorem fraction_feminine_plural_branch_dead
        (accents : list (str * str)) (gender_rule : Fst) (x : str) :
  Fraction.fraction_default_fem_branch gender_rule x = []
  /\ (forall z,
         In z (Fraction.fraction_default_fem accents gender_rule x) <->
         In z (Fraction.fraction_default accents x)).
Proof.
  split.
  - apply no_output_nil. intros z.
    apply fraction_default_fem_branch_empty.
  - intros z. unfold Fraction.fraction_default_fem. rewrite in_union.
    split; [|auto]. intros [H|H]; [exact H|].
    destruct (fraction_default_fem_branch_empty gender_rule x z H).
Qed.

Lemma integer_on_field (apocope_rule : Fst) (i y : str) :
  forallb NEMO_NOT_QUOTE i = true ->
  (In y (Fraction.integer apocope_rule (integer_field i)) <->
   In y (apocope_rule i)).
Proof.
  intros Qi. rewrite in_integer. split.
  - intros [i0 [E [Qi0 Hy]]]. unfold integer_field in E.
    apply app_inv_head in E.
    rewrite <- (app_nil_r (quoted i)), <- (app_nil_r (quoted i0)) in E.
    apply quoted_inj in E as [-> _]; auto.
  - intros Hy. exists i. auto.
Qed.

(** X10. An integer part in front of the fraction is read through the
    apocope rule (and, in the feminine grammar, through the gender rule
    after it) and joined to the fraction by the conjunction " e "; the
    white space between the integer part and the numerator is dropped. *)
Theorem fraction_integer_part
        (accents : list (str * str)) (apocope_rule gender_rule : Fst)
        (i w t : str) :
  forallb NEMO_NOT_QUOTE i = true ->
  ws_star w = true -> ws_head t = false ->
  (forall z,
      In z (Fraction.graph_masc accents apocope_rule
              (integer_field i ++ w ++ t)) <->
      exists i' f, In i' (apocope_rule i)
                   /\ In f (Fraction.fraction accents apocope_rule t)
                   /\ z = i' ++ " e " ++ f)
  /\ (forall z,
         In z (Fraction.graph_fem accents apocope_rule gender_rule
                 (integer_field i ++ w ++ t)) <->
         exists i' i'' f,
           In i' (apocope_rule i) /\ In i'' (gender_rule i')
           /\ In f (Fraction.fraction_fem accents apocope_rule gender_rule t)
           /\ z = i'' ++ " e " ++ f).
Proof.
  intros Qi Hw Ht. split; intros z.
  - unfold Fraction.graph_masc.
    rewrite (in_integer_then (Fraction.integer apocope_rule)
               (Fraction.fraction accents apocope_rule) i w t z); auto.
    + split.
      * intros [i' [f [Hi [Hf ->]]]].
        apply (integer_on_field apocope_rule i i' Qi) in Hi. eauto.
      * intros [i' [f [Hi [Hf ->]]]]. exists i', f.
        split; [apply (integer_on_field apocope_rule i i' Qi); exact Hi|].
        auto.
    + intros x y H. apply in_integer in H as [i0 [-> [Qi0 _]]]. eauto.
    + apply fraction_starts_with_numerator.
  - unfold Fraction.graph_fem.
    rewrite (in_integer_then (Fraction.integer_fem apocope_rule gender_rule)
               (Fraction.fraction_fem accents apocope_rule gender_rule)
               i w t z); auto.
    + unfold Fraction.integer_fem, shift_cardinal_gender. split.
      * intros [i'' [f [Hi [Hf ->]]]].
        apply in_compose in Hi as [i' [Hi Hg]].
        apply (integer_on_field apocope_rule i i' Qi) in Hi.
        exists i', i'', f. auto.
      * intros [i' [i'' [f [Hi [Hg [Hf ->]]]]]]. exists i'', f.
        split; [|auto]. apply in_compose. exists i'. split; [|exact Hg].
        apply (integer_on_field apocope_rule i i' Qi). exact Hi.
    + intros x y H. unfold Fraction.integer_fem, shift_cardinal_gender in H.
      apply in_compose in H as [u [H _]].
      apply in_integer in H as [i0 [-> [Qi0 _]]]. eauto.
    + apply fraction_fem_starts_with_numerator.
Qed.

Lemma fraction_integer_part_witness :
  In (lit "tre e mezzo")
     (Fraction.graph_masc Sample.accents Apocope.rule
        (integer_field "tre" ++ "  "
           ++ fraction_token "un" "mezzo" "ordinal")).
Proof.
  apply (proj1 (fraction_integer_part
                  Sample.accents Apocope.rule Gender.rule
                  "tre" "  " (fraction_token "un" "mezzo" "ordinal")
                  eq_refl eq_refl eq_refl)).
  exists (lit "tre"), (lit "mezzo").
  split; [vm_compute; left; reflexivity|].
  split; [vm_compute; left; reflexivity | reflexivity].
Defined.

(** ** The fraction verbalizer: the stages of the merge on one word *)

Lemma contains_app_r (p a b : str) :
  contains p b = true -> contains p (a ++ b) = true.
Proof.
  intros H. destruct (contains p (a ++ b)) eqn:E; [reflexivity|].
  apply contains_suffix in E. congruence.
Qed.

Lemma contains_intro (p u v : str) : contains p (u ++ p ++ v) = true.
Proof. apply contains_spec. eauto. Qed.

(** The right context of [remove_accents] asks for "esimo" or "esima"
    behind symbols that are no white space. *)
Lemma esimo_context (rem : str) :
  rmatch (in_context (Fraction.closure_not_space
                        <+> (accep "esimo" <|> accep "esima"))) rem = true ->
  exists ns e v, rem = ns ++ e ++ v /\ has_ws ns = false
                 /\ (e = lit "esimo" \/ e = lit "esima").
Proof.
  intros H. apply rmatch_in_context in H as [u [v [-> H]]].
  apply accepts_true in H as [y H].
  apply in_concat in H as [ns [e [y1 [y2 [-> [_ [H1 H2]]]]]]].
  exists ns, e, v. rewrite <- app_assoc. split; [reflexivity|]. split.
  - unfold Fraction.closure_not_space, not_space_star in H1.
    destruct (has_ws ns); [destruct H1 | reflexivity].
  - apply in_union in H2 as [H2|H2]; apply in_accep in H2 as [-> _]; auto.
Qed.

Lemma remove_accents_copy (accents : list (str * str)) (x : str) :
  contains "esimo" x = false -> contains "esima" x = false ->
  yields (Fraction.remove_accents accents x) x.
Proof.
  intros Ho Ha y. unfold Fraction.remove_accents.
  rewrite in_cdrewrite. apply rewrites_copy.
  intros u1 u2 -> _. apply sites_empty. intros o rem H.
  apply in_sites in H as [_ [m [_ [-> [Hr _]]]]].
  apply esimo_context in Hr as [ns [e [v [-> [_ He]]]]].
  assert (C : contains e (u1 ++ m ++ ns ++ e ++ v) = true).
  { rewrite !app_assoc. rewrite <- (app_assoc _ e v).
    apply contains_intro. }
  destruct He as [-> | ->]; congruence.
Qed.

Lemma no_space_in_word (ns : str) :
  has_ws ns = false -> ~ In " "%char ns.
Proof.
  intros H Hin. apply in_split in Hin as [a [b ->]].
  assert (E := has_ws_false _ a (" "%char :: b) H eq_refl).
  discriminate E.
Qed.

Lemma no_space_in_suffix (e : str) :
  e = lit "esimo" \/ e = lit "esima" -> ~ In " "%char e.
Proof.
  intros [-> | ->] H; simpl in H;
    repeat (destruct H as [H|H]; [discriminate H|]); exact H.
Qed.

(** In front of a space, a word without "esimo" and "esima" holds no site
    of [remove_accents], when no key of the accent table holds a space. *)
Lemma remove_accents_no_site (accents : list (str * str))
      (a b done u1 u2 : str) :
  (forall k v, In (k, v) accents -> ~ In " "%char k) ->
  contains "esimo" a = false -> contains "esima" a = false ->
  a ++ [" "%char] = u1 ++ u2 -> u2 <> [] ->
  sites (string_map accents)
        (in_context (NEMO_SPACE <+> Fraction.closure_not_space)
           ++ at_boundary Fraction.closure_not_space)
        (in_context (Fraction.closure_not_space
                       <+> (accep "esimo" <|> accep "esima")))
        done (u2 ++ b) = [].
Proof.
  intros Hk Ho Ha E N2. apply sites_empty. intros o rem H.
  apply in_sites in H as [_ [m [Nm [Em [Hr Hm]]]]].
  apply in_string_map in Hm. apply Hk in Hm.
  destruct (exists_last N2) as [u2' [c E2]]. subst u2.
  rewrite app_assoc in E. apply app_inj_tail in E as [-> <-].
  rewrite <- app_assoc in Em. simpl in Em.
  assert (Hin : forall e w t, e = lit "esimo" \/ e = lit "esima" ->
                              u2' = w ++ e ++ t -> False).
  { intros e w t He ->.
    assert (C : contains e (u1 ++ w ++ e ++ t) = true).
    { rewrite (app_assoc u1 w). apply contains_intro. }
    destruct He as [-> | ->]; congruence. }
  apply esimo_context in Hr as [ns [e [v [-> [Hns He]]]]].
  apply app_eq_app in Em as [l [[El Em]|[El Em]]].
  - (* the match lies inside the word *)
    apply app_eq_app in Em as [k [[Ek Em]|[Ek Em]]].
    + destruct k as [|c k].
      * simpl in Em. destruct He as [-> | ->]; discriminate Em.
      * simpl in Em. injection Em as <- _.
        apply (no_space_in_word ns Hns). rewrite Ek.
        apply in_or_app. right. left. reflexivity.
    + symmetry in Em. apply app_eq_app in Em as [j [[Ej Em]|[Ej Em]]].
      * apply (Hin e (m ++ ns) j He).
        rewrite El, Ek, Ej, <- !app_assoc. reflexivity.
      * destruct j as [|c j].
        -- rewrite app_nil_r in Ej. apply (Hin e (m ++ ns) [] He).
           rewrite El, Ek, Ej, app_nil_r, <- !app_assoc. reflexivity.
        -- simpl in Em. injection Em as <- _.
           apply (no_space_in_suffix e He). rewrite Ej.
           apply in_or_app. right. left. reflexivity.
  - (* the match reaches the space *)
    destruct l as [|c l].
    + simpl in Em. destruct ns as [|c ns].
      * simpl in Em. destruct He as [-> | ->]; discriminate Em.
      * simpl in Em. injection Em as <- _.
        apply (no_space_in_word (" "%char :: ns) Hns). left. reflexivity.
    + simpl in Em. injection Em as <- _.
      apply Hm. rewrite El. apply in_or_app. right. left. reflexivity.
Qed.

(** X11. [remove_accents] rewrites an accented symbol only where "esimo"
    or "esima" follows in the same word.  A text that holds neither is
    its own and only output; and when no key of the accent table holds a
    space, a first word that holds neither is kept as it is, whatever
    follows the space behind it. *)
Theorem remove_accents_scope (accents : list (str * str)) :
  (forall x,
      contains "esimo" x = false -> contains "esima" x = false ->
      yields (Fraction.remove_accents accents x) x)
  /\ ((forall k v, In (k, v) accents -> ~ In " "%char k) ->
      forall a b y,
        contains "esimo" a = false -> contains "esima" a = false ->
        In y (Fraction.remove_accents accents (a ++ " " ++ b)) ->
        exists y', y = a ++ " " ++ y').
Proof.
  split.
  - intros x Ho Ha. apply remove_accents_copy; assumption.
  - intros Hk a b y Ho Ha H. unfold Fraction.remove_accents in H.
    apply in_cdrewrite in H.
    change (a ++ " " ++ b) with (a ++ [" "%char] ++ b) in H.
    rewrite app_assoc in H.
    apply rewrites_copy_prefix in H as [y' [-> _]].
    + exists y'. rewrite <- app_assoc. reflexivity.
    + intros u1 u2 E N2.
      apply (remove_accents_no_site accents a b ([] ++ u1) u1 u2); auto.
Qed.

Lemma remove_accents_scope_witness :
  yields (Fraction.remove_accents Sample.accents
            ("ventitr" ++ ["195"; "169"]%char))
         ("ventitr" ++ ["195"; "169"]%char)
  /\ Fraction.remove_accents Sample.accents
       ("ventitr" ++ ["195"; "169"]%char ++ "esimo")
     = [lit "ventitreesimo"].
Proof.
  split.
  - apply (proj1 (remove_accents_scope Sample.accents)); reflexivity.
  - vm_compute. reflexivity.
Defined.

(** A word without white space, doubled "a" or "o", "esimo" and "esima"
    goes through the merge unchanged. *)
Lemma merge_plain_word (accents : list (str * str)) (d : str) :
  has_ws d = false ->
  contains "aa" d = false -> contains "oo" d = false ->
  contains "esimo" d = false -> contains "esima" d = false ->
  yields (Fraction.merge_into_single_word accents d) d.
Proof.
  intros Hw Haa Hoo Ho Ha.
  assert (H1 : yields (Fraction.merge_conjunction d) d).
  { intros y. unfold Fraction.merge_conjunction. rewrite in_cdrewrite.
    apply rewrites_copy. intros u1 u2 E _. apply sites_empty.
    intros o rem H. apply conjunction_sites in H as [-> _].
    assert (W := has_ws_false d u1 _ Hw E). discriminate W. }
  assert (H2 : yields (Fraction.merge_spaces d) d).
  { intros y. unfold Fraction.merge_spaces. rewrite in_cdrewrite.
    apply delete_space_copy. exact Hw. }
  assert (H3 : yields (Fraction.remove_accents accents d) d)
    by (apply remove_accents_copy; assumption).
  assert (H4 : yields (Fraction.delete_duplicates d) d).
  { intros y. unfold Fraction.delete_duplicates. rewrite in_cdrewrite.
    apply rewrites_copy. intros u1 u2 E _. apply sites_empty.
    intros o rem H. apply duplicate_sites in H as [[-> _]|[-> _]].
    - assert (C : contains "aa" d = true)
        by (rewrite E; apply contains_intro).
      congruence.
    - assert (C : contains "oo" d = true)
        by (rewrite E; apply contains_intro).
      congruence. }
  intros y. unfold Fraction.merge_into_single_word, Fraction.merge. split.
  - intros H. apply in_compose in H as [m3 [H M4]].
    apply in_compose in H as [m2 [H M3]].
    apply in_compose in H as [m1 [M1 M2]].
    apply (yields_only _ _ _ H1) in M1. subst m1.
    apply (yields_only _ _ _ H2) in M2. subst m2.
    apply (yields_only _ _ _ H3) in M3. subst m3.
    apply (yields_only _ _ _ H4) in M4. exact M4.
  - intros ->. apply in_compose. exists d.
    split; [|apply (yields_self _ _ H4)].
    apply in_compose. exists d. split; [|apply (yields_self _ _ H3)].
    apply in_compose. exists d.
    split; [apply (yields_self _ _ H1) | apply (yields_self _ _ H2)].
Qed.

(** The rewrite of "un mezzo" leaves "un" and a word that does not begin
    with "mezzo" alone. *)
Lemma un_mezzo_rewrite_copy (d : str) :
  has_ws d = false -> starts_with "mezzo" d = false ->
  yields (cdrewrite (cross (accep "un mezzo") "mezzo")
                    any_context any_context ("un " ++ d))
         ("un " ++ d).
Proof.
  intros Hw Hs y. rewrite in_cdrewrite. apply rewrites_copy.
  intros u1 u2 E _. apply sites_empty. intros o rem H.
  apply in_sites in H as [_ [m [_ [-> [_ Ho]]]]].
  apply in_cross_lit in Ho as [-> _].
  destruct u1 as [|c1 u1].
  - simpl in E. injection E as E.
    assert (C : starts_with "mezzo" d = true)
      by (rewrite E; apply (starts_with_app "mezzo" rem)).
    congruence.
  - simpl in E. injection E as _ E. destruct u1 as [|c2 u1].
    + discriminate E.
    + simpl in E. injection E as _ E. destruct u1 as [|c3 u1].
      * discriminate E.
      * simpl in E. injection E as _ E.
        assert (W := has_ws_false d (u1 ++ "un") (" mezzo" ++ rem) Hw).
        rewrite <- app_assoc in W. specialize (W E). discriminate W.
Qed.

Section OneOver.

Variable accents : list (str * str).
Variable apocope_rule : Fst.
Variable gender_rule : Fst.
Variables d tag : str.
Hypothesis d_not_quote : forallb NEMO_NOT_QUOTE d = true.
Hypothesis tag_known : tag = lit "add_root" \/ tag = lit "ordinal".
Hypothesis d_one_word : has_ws d = false.
Hypothesis d_not_mezzo : starts_with "mezzo" d = false.
Hypothesis d_merged : yields (Fraction.merge_into_single_word accents d) d.

Let token := fraction_token "un" d tag.

Lemma one_over_with_one :
  yields (Fraction.fraction_with_one accents token) ("un " ++ d).
Proof.
  intros z. unfold Fraction.fraction_with_one. rewrite in_compose.
  assert (Hp : forall m, In m (Fraction.fraction_with_one_plain accents token)
                         <-> m = "un " ++ d).
  { intros m. unfold token.
    rewrite (token_with_one_plain accents "un" d tag eq_refl d_not_quote
               tag_known m).
    split.
    - intros [_ [y [Hy ->]]]. apply (yields_only _ _ _ d_merged) in Hy.
      subst y. reflexivity.
    - intros ->. split; [reflexivity|]. exists d.
      split; [apply (yields_self _ _ d_merged) | reflexivity]. }
  assert (Hr := un_mezzo_rewrite_copy d d_one_word d_not_mezzo).
  split.
  - intros [m [Hm Hz]]. apply (proj1 (Hp m)) in Hm. subst m.
    apply (proj1 (Hr z)). exact Hz.
  - intros ->. exists ("un " ++ d).
    split; [apply (proj2 (Hp _)); reflexivity|].
    apply (proj2 (Hr ("un " ++ d))). reflexivity.
Qed.

Lemma one_over_graph :
  yields (Fraction.graph accents apocope_rule gender_rule token) ("un " ++ d).
Proof.
  intros z. unfold Fraction.graph. rewrite in_union. unfold token.
  rewrite (token_graph_masc accents apocope_rule "un" d tag z).
  rewrite (token_graph_fem accents apocope_rule gender_rule "un" d tag z).
  fold token.
  unfold Fraction.fraction, Fraction.fraction_fem,
    Fraction.fraction_with_one_fem, Fraction.fraction_default_fem.
  rewrite !in_union. split.
  - intros [[H|[H|H]]|[[H|H]|[[H|H]|H]]].
    + apply (yields_only _ _ _ one_over_with_one). exact H.
    + destruct (token_default_empty accents "un" d tag eq_refl d_not_quote
                                    tag_known z H).
    + destruct (token_with_cardinal_empty apocope_rule "un" d tag eq_refl
                                          d_not_quote z H).
    + apply (yields_only _ _ _ one_over_with_one). exact H.
    + apply (proj1 (token_with_one_fem_branch "un" d tag eq_refl
                      d_not_quote tag_known z)) in H.
      destruct H as [_ [E _]].
      rewrite E in d_not_mezzo. discriminate d_not_mezzo.
    + destruct (token_default_empty accents "un" d tag eq_refl d_not_quote
                                    tag_known z H).
    + destruct (fraction_default_fem_branch_empty gender_rule _ z H).
    + destruct (token_with_cardinal_empty apocope_rule "un" d tag eq_refl
                                          d_not_quote z H).
  - intros ->. left. left. apply (yields_self _ _ one_over_with_one).
Qed.

End OneOver.

(** X12. A denominator that is one word, without a doubled "a" or "o" and
    without "esimo" or "esima", goes through the merge unchanged; and the
    token with the numerator "un" and such a denominator, tagged
    [add_root] or [ordinal] and not beginning with "mezzo", has exactly
    one output in the whole grammar: "un" and the denominator in the
    singular. *)
Theorem fraction_one_over_plain_word
        (accents : list (str * str)) (apocope_rule gender_rule : Fst)
        (d tag : str) :
  has_ws d = false ->
  contains "aa" d = false -> contains "oo" d = false ->
  contains "esimo" d = false -> contains "esima" d = false ->
  yields (Fraction.merge_into_single_word accents d) d
  /\ (forallb NEMO_NOT_QUOTE d = true ->
      tag = lit "add_root" \/ tag = lit "ordinal" ->
      starts_with "mezzo" d = false ->
      yields (Fraction.graph accents apocope_rule gender_rule
                (fraction_token "un" d tag))
             ("un " ++ d)).
Proof.
  intros Hw Haa Hoo Ho Ha.
  assert (Hm := merge_plain_word accents d Hw Haa Hoo Ho Ha).
  split; [exact Hm|]. intros Qd Ht Hs.
  apply (one_over_graph accents apocope_rule gender_rule d tag
                        Qd Ht Hw Hs Hm).
Qed.

Lemma fraction_one_over_plain_word_witness :
  yields (Fraction.graph Sample.accents Apocope.rule Gender.rule
            (fraction_token "un" "terzo" "ordinal"))
         ("un " ++ "terzo").
Proof.
  apply (proj2 (fraction_one_over_plain_word
                  Sample.accents Apocope.rule Gender.rule "terzo" "ordinal"
                  eq_refl eq_refl eq_refl eq_refl eq_refl));
    [reflexivity | right; reflexivity | reflexivity].
Defined.

(** ** The ordinal tagger: tables, compounds and thousands *)

(** X13. [get_one_to_one_thousand] is the acceptor of the texts that the
    cardinal grammar writes for the numbers from 1 to 999 (the range stops
    short of 1000): a text is accepted, unchanged and once, exactly when
    it is the cardinal text of one of these numbers. *)
Theorem one_to_one_thousand_range (cardinal : Fst) (x : str) :
  (forall y,
      In y (Ordinal.get_one_to_one_thousand cardinal x) <->
      y = x /\ exists n, 1 <= n <= 999 /\ In x (cardinal (str_of_nat n)))
  /\ (Ordinal.get_one_to_one_thousand cardinal x = [x]
      \/ Ordinal.get_one_to_one_thousand cardinal x = [])
  /\ ((forall n, 1 <= n <= 999 -> ~ In x (cardinal (str_of_nat n))) ->
      Ordinal.get_one_to_one_thousand cardinal x = []).
Proof.
  assert (Hin : forall y,
             In y (Ordinal.get_one_to_one_thousand cardinal x) <->
             y = x /\ exists n, 1 <= n <= 999
                                /\ In x (cardinal (str_of_nat n))).
  { intros y. apply (in_one_to_one_thousand cardinal x y). }
  split; [exact Hin|]. split.
  - unfold Ordinal.get_one_to_one_thousand, optimize, project_output.
    destruct (existsb _ _); auto.
  - intros Hno. apply no_output_nil. intros z Hz.
    apply Hin in Hz as [_ [n [Hn Hx]]]. exact (Hno n Hn Hx).
Qed.

Lemma one_to_one_thousand_range_witness :
  Ordinal.get_one_to_one_thousand Sample.cardinal_graph "zero" = [].
Proof.
  apply (proj2 (proj2 (one_to_one_thousand_range
                         Sample.cardinal_graph "zero"))).
  intros n Hn H. unfold Sample.cardinal_graph in H.
  apply in_string_map in H. simpl in H.
  repeat (destruct H as [H|H];
          [injection H as _ H; discriminate H|]).
  exact H.
Defined.

Lemma in_table (rows : list (str * str)) (o c : str) :
  In (o, c) rows -> In o (string_map (invert_rows rows) c).
Proof.
  intros H. apply in_string_map. apply in_invert_rows. exact H.
Qed.

Section OrdinalWords.

Variable cardinal_graph : Fst.
Variables digit_tsv teens_tsv twenties_tsv ties_tsv hundreds_tsv
  : list (str * str).
Variable accents : list (str * str).
Variable deterministic : bool.

Let tens_component : Fst :=
  Ordinal.graph_tens_component digit_tsv teens_tsv twenties_tsv ties_tsv.
Let hundred_component : Fst :=
  Ordinal.graph_hundred_component digit_tsv teens_tsv twenties_tsv ties_tsv
                                  hundreds_tsv.
Let thousands_component : Fst :=
  Ordinal.graph_thousands cardinal_graph digit_tsv teens_tsv twenties_tsv
                          ties_tsv hundreds_tsv accents deterministic.
Let ordinal_graph : Fst :=
  Ordinal.ordinal_graph cardinal_graph digit_tsv teens_tsv twenties_tsv
                        ties_tsv hundreds_tsv accents deterministic.

(** A cardinal text that the assembly reads leads to an ordinal, after the
    elision in front of "ottavo". *)
Lemma assembly_to_graph (x c o : str) :
  In c (cardinal_graph x) ->
  In o (thousands_component c) \/ In o (hundred_component c) ->
  In (drop_o_before_ottavo o) (ordinal_graph x).
Proof.
  intros Hc Ho. unfold ordinal_graph, Ordinal.ordinal_graph, optimize.
  apply in_compose. exists o. split.
  - assert (Ha : In o (Ordinal.ordinal_assembly
                         cardinal_graph digit_tsv teens_tsv twenties_tsv
                         ties_tsv hundreds_tsv accents deterministic x)).
    { unfold Ordinal.ordinal_assembly. apply in_compose. exists c.
      split; [exact Hc|]. apply in_union. exact Ho. }
    unfold Ordinal.ordinal_split. destruct deterministic; [exact Ha|].
    apply in_union. left. exact Ha.
  - apply (yields_self _ _ (ottavo_elision_spec o)).
Qed.

Lemma digit_in_hundred (c o : str) :
  In o (Ordinal.graph_digit digit_tsv c) -> In o (hundred_component c).
Proof.
  intros H. unfold hundred_component, Ordinal.graph_hundred_component.
  apply in_union. right. apply in_union. right. exact H.
Qed.

Lemma tens_in_hundred (c o : str) :
  In o (tens_component c) -> In o (hundred_component c).
Proof.
  intros H. unfold hundred_component, Ordinal.graph_hundred_component.
  apply in_union. right. apply in_union. left. exact H.
Qed.

Lemma row_in_hundred (o c : str) :
  In (o, c) digit_tsv \/ In (o, c) teens_tsv \/ In (o, c) twenties_tsv
  \/ In (o, c) ties_tsv \/ In (o, c) hundreds_tsv ->
  In o (hundred_component c).
Proof.
  intros [H|[H|[H|[H|H]]]].
  - apply digit_in_hundred. apply in_table. exact H.
  - apply tens_in_hundred. unfold tens_component,
      Ordinal.graph_tens_component.
    apply in_union. left. apply in_table. exact H.
  - apply tens_in_hundred. unfold tens_component,
      Ordinal.graph_tens_component.
    apply in_union. right. apply in_union. right. apply in_table. exact H.
  - apply tens_in_hundred. unfold tens_component,
      Ordinal.graph_tens_component.
    apply in_union. right. apply in_union. left. apply in_concat.
    exists c, [], o, []. rewrite !app_nil_r.
    split; [reflexivity|]. split; [reflexivity|].
    split; [apply in_table; exact H|].
    apply in_closure01. left. auto.
  - unfold hundred_component, Ordinal.graph_hundred_component.
    apply in_union. left. apply in_concat.
    exists c, [], o, []. rewrite !app_nil_r.
    split; [reflexivity|]. split; [reflexivity|].
    split; [apply in_table; exact H|].
    apply in_closure01. left. auto.
Qed.

Lemma ties_digit_in_hundred (t tc d dc : str) :
  In (t, tc) ties_tsv -> In (d, dc) digit_tsv ->
  In (t ++ d) (hundred_component (tc ++ dc)).
Proof.
  intros Ht Hd. apply tens_in_hundred.
  unfold tens_component, Ordinal.graph_tens_component.
  apply in_union. right. apply in_union. left. apply in_concat.
  exists tc, dc, t, d. split; [reflexivity|]. split; [reflexivity|].
  split; [apply in_table; exact Ht|].
  apply in_closure01. right. apply in_table. exact Hd.
Qed.

Lemma hundreds_rest_in_hundred (h hc r rc : str) :
  In (h, hc) hundreds_tsv ->
  In r (tens_component rc) \/ In r (Ordinal.graph_digit digit_tsv rc) ->
  In (h ++ " " ++ r) (hundred_component (hc ++ " " ++ rc)).
Proof.
  intros Hh Hr. unfold hundred_component, Ordinal.graph_hundred_component.
  apply in_union. left. apply in_concat.
  exists hc, (" " ++ rc), h, (" " ++ r).
  split; [reflexivity|]. split; [reflexivity|].
  split; [apply in_table; exact Hh|].
  apply in_closure01. right. apply in_concat.
  exists (lit " "), rc, (lit " "), r.
  split; [reflexivity|]. split; [reflexivity|].
  split; [apply in_NEMO_SPACE; auto|]. apply in_union. exact Hr.
Qed.

End OrdinalWords.

(** X14. The rows of the five tables are read from the cardinal word to
    the ordinal word: when the cardinal text of an input is the cardinal
    word of a row, the ordinal word of that row is an output.  The ordinal
    words of a tens row and of a digit row are joined without a space
    (their cardinal words are read side by side), those of a hundreds row
    and of what follows it by one space.  Every output has gone through
    the elision in front of "ottavo". *)
Theorem ordinal_from_tables
        (cardinal_graph : Fst)
        (digit_tsv teens_tsv twenties_tsv ties_tsv hundreds_tsv
           accents : list (str * str))
        (deterministic : bool) (x : str) :
  (forall o c,
      In c (cardinal_graph x) ->
      In (o, c) digit_tsv \/ In (o, c) teens_tsv \/ In (o, c) twenties_tsv
      \/ In (o, c) ties_tsv \/ In (o, c) hundreds_tsv ->
      In (drop_o_before_ottavo o)
         (Ordinal.ordinal_graph cardinal_graph digit_tsv teens_tsv
            twenties_tsv ties_tsv hundreds_tsv accents deterministic x))
  /\ (forall t tc d dc,
         In (tc ++ dc) (cardinal_graph x) ->
         In (t, tc) ties_tsv -> In (d, dc) digit_tsv ->
         In (drop_o_before_ottavo (t ++ d))
            (Ordinal.ordinal_graph cardinal_graph digit_tsv teens_tsv
               twenties_tsv ties_tsv hundreds_tsv accents deterministic x))
  /\ (forall h hc r rc,
         In (hc ++ " " ++ rc) (cardinal_graph x) ->
         In (h, hc) hundreds_tsv ->
         In r (Ordinal.graph_tens_component digit_tsv teens_tsv twenties_tsv
                 ties_tsv rc)
         \/ In r (Ordinal.graph_digit digit_tsv rc) ->
         In (drop_o_before_ottavo (h ++ " " ++ r))
            (Ordinal.ordinal_graph cardinal_graph digit_tsv teens_tsv
               twenties_tsv ties_tsv hundreds_tsv accents deterministic x)).
Proof.
  split; [|split].
  - intros o c Hc Hr.
    apply (assembly_to_graph cardinal_graph digit_tsv teens_tsv twenties_tsv
             ties_tsv hundreds_tsv accents deterministic x c o Hc).
    right. apply row_in_hundred. exact Hr.
  - intros t tc d dc Hc Ht Hd.
    apply (assembly_to_graph cardinal_graph digit_tsv teens_tsv twenties_tsv
             ties_tsv hundreds_tsv accents deterministic x (tc ++ dc)
             (t ++ d) Hc).
    right. apply ties_digit_in_hundred; assumption.
  - intros h hc r rc Hc Hh Hr.
    apply (assembly_to_graph cardinal_graph digit_tsv teens_tsv twenties_tsv
             ties_tsv hundreds_tsv accents deterministic x
             (hc ++ " " ++ rc) (h ++ " " ++ r) Hc).
    right. apply hundreds_rest_in_hundred; assumption.
Qed.

Lemma ordinal_from_tables_witness :
  In (lit "ventesimottavo") (Sample.ordinal_graph "28").
Proof.
  apply (proj1 (proj2 (ordinal_from_tables
                         Sample.cardinal_graph Sample.digit_tsv
                         Sample.teens_tsv Sample.twenties_tsv Sample.ties_tsv
                         Sample.hundreds_tsv Sample.accents true "28"))
               "ventesimo" "venti" "ottavo" "otto").
  - vm_compute. left. reflexivity.
  - left. reflexivity.
  - right. right. right. left. reflexivity.
Defined.

Section OrdinalThousands.

Variable cardinal_graph : Fst.
Variables digit_tsv teens_tsv twenties_tsv ties_tsv hundreds_tsv
  : list (str * str).
Variable accents : list (str * str).
Variable deterministic : bool.

Let hundred_component : Fst :=
  Ordinal.graph_hundred_component digit_tsv teens_tsv twenties_tsv ties_tsv
                                  hundreds_tsv.
Let prefix : Fst := Ordinal.graph_thousands_prefix cardinal_graph accents.
Let thousands_component : Fst :=
  Ordinal.graph_thousands cardinal_graph digit_tsv teens_tsv twenties_tsv
                          ties_tsv hundreds_tsv accents deterministic.

(** What the thousands read alone, they read in front of a space and a
    hundred component as well. *)
Lemma prefix_in_thousands (c y : str) :
  In y (prefix c) -> In y (thousands_component c).
Proof.
  intros H. unfold thousands_component, Ordinal.graph_thousands.
  apply in_concat. exists c, [], y, []. rewrite !app_nil_r.
  split; [reflexivity|]. split; [reflexivity|]. split.
  - unfold Ordinal.graph_thousands_series.
    destruct deterministic; [exact H|]. apply in_union. left. exact H.
  - apply in_closure01. left. auto.
Qed.

Lemma prefix_rest_in_thousands (c y rc r : str) :
  In y (prefix c) -> In r (hundred_component rc) ->
  In (y ++ " " ++ r) (thousands_component (c ++ " " ++ rc)).
Proof.
  intros H Hr. unfold thousands_component, Ordinal.graph_thousands.
  apply in_concat. exists c, (" " ++ rc), y, (" " ++ r).
  split; [reflexivity|]. split; [reflexivity|]. split.
  - unfold Ordinal.graph_thousands_series.
    destruct deterministic; [exact H|]. apply in_union. left. exact H.
  - apply in_closure01. right. apply in_concat.
    exists (lit " "), rc, (lit " "), r.
    split; [reflexivity|]. split; [reflexivity|].
    split; [apply in_NEMO_SPACE; auto | exact Hr].
Qed.

Lemma mille_in_prefix : In (lit "millesimo") (prefix "mille").
Proof.
  unfold prefix, Ordinal.graph_thousands_prefix. apply in_union. right.
  apply in_thousands. auto.
Qed.

Lemma cardinal_mille_in_prefix (n : nat) (c c' : str) :
  1 <= n <= 999 -> In c (cardinal_graph (str_of_nat n)) ->
  In c' (cdrewrite (string_map accents) any_context any_context c) ->
  has_ws c' = false ->
  In (c' ++ "millesimo") (prefix (c ++ " mille")).
Proof.
  intros Hn Hc Hc' Hw. unfold prefix.
  apply (thousands_prefix_outputs cardinal_graph accents n c Hn Hc).
  exists c'. split; [exact Hc'|].
  apply (yields_self _ _ (thousands_merge_rule c' Hw)).
Qed.

End OrdinalThousands.

(** X15. The thousands in the ordinal grammar.  An input whose cardinal
    text is "mille" has the output "millesimo".  For the cardinal text [c]
    of a number from 1 to 999 with a one-word accent-stripped image [c'],
    an input whose cardinal text is [c], a space and "mille" has the
    output [c'] joined to "millesimo".  In both cases a space and a text
    that the hundred component reads may follow: its ordinal comes out
    after "millesimo" and one space.  Every output has gone through the
    elision in front of "ottavo". *)
Theorem ordinal_thousands
        (cardinal_graph : Fst)
        (digit_tsv teens_tsv twenties_tsv ties_tsv hundreds_tsv
           accents : list (str * str))
        (deterministic : bool) (x : str) :
  (In (lit "mille") (cardinal_graph x) ->
   In (lit "millesimo")
      (Ordinal.ordinal_graph cardinal_graph digit_tsv teens_tsv
         twenties_tsv ties_tsv hundreds_tsv accents deterministic x))
  /\ (forall rc r,
         In ("mille" ++ " " ++ rc) (cardinal_graph x) ->
         In r (Ordinal.graph_hundred_component digit_tsv teens_tsv
                 twenties_tsv ties_tsv hundreds_tsv rc) ->
         In (drop_o_before_ottavo ("millesimo" ++ " " ++ r))
            (Ordinal.ordinal_graph cardinal_graph digit_tsv teens_tsv
               twenties_tsv ties_tsv hundreds_tsv accents deterministic x))
  /\ (forall n c c',
         1 <= n <= 999 -> In c (cardinal_graph (str_of_nat n)) ->
         In c' (cdrewrite (string_map accents) any_context any_context c) ->
         has_ws c' = false ->
         (In (c ++ " mille") (cardinal_graph x) ->
          In (drop_o_before_ottavo (c' ++ "millesimo"))
             (Ordinal.ordinal_graph cardinal_graph digit_tsv teens_tsv
                twenties_tsv ties_tsv hundreds_tsv accents deterministic x))
         /\ (forall rc r,
                In ((c ++ " mille") ++ " " ++ rc) (cardinal_graph x) ->
                In r (Ordinal.graph_hundred_component digit_tsv teens_tsv
                        twenties_tsv ties_tsv hundreds_tsv rc) ->
                In (drop_o_before_ottavo ((c' ++ "millesimo") ++ " " ++ r))
                   (Ordinal.ordinal_graph cardinal_graph digit_tsv teens_tsv
                      twenties_tsv ties_tsv hundreds_tsv accents
                      deterministic x))).
Proof.
  split; [|split].
  - intros Hc.
    apply (assembly_to_graph cardinal_graph digit_tsv teens_tsv twenties_tsv
             ties_tsv hundreds_tsv accents deterministic x "mille"
             "millesimo" Hc).
    left. apply prefix_in_thousands. apply mille_in_prefix.
  - intros rc r Hc Hr.
    apply (assembly_to_graph cardinal_graph digit_tsv teens_tsv twenties_tsv
             ties_tsv hundreds_tsv accents deterministic x
             ("mille" ++ " " ++ rc) ("millesimo" ++ " " ++ r) Hc).
    left. apply prefix_rest_in_thousands; [apply mille_in_prefix|exact Hr].
  - intros n c c' Hn Hcn Hc' Hw.
    assert (Hp := cardinal_mille_in_prefix cardinal_graph accents n c c'
                    Hn Hcn Hc' Hw).
    split.
    + intros Hc.
      apply (assembly_to_graph cardinal_graph digit_tsv teens_tsv
               twenties_tsv ties_tsv hundreds_tsv accents deterministic x
               (c ++ " mille") (c' ++ "millesimo") Hc).
      left. apply prefix_in_thousands. exact Hp.
    + intros rc r Hc Hr.
      apply (assembly_to_graph cardinal_graph digit_tsv teens_tsv
               twenties_tsv ties_tsv hundreds_tsv accents deterministic x
               ((c ++ " mille") ++ " " ++ rc)
               ((c' ++ "millesimo") ++ " " ++ r) Hc).
      left. apply prefix_rest_in_thousands; [exact Hp|exact Hr].
Qed.

Lemma ordinal_thousands_witness :
  In (lit "duemillesimo ottavo") (Sample.ordinal_graph "2008").
Proof.
  destruct (proj2 (proj2 (ordinal_thousands
                            Sample.cardinal_graph Sample.digit_tsv
                            Sample.teens_tsv Sample.twenties_tsv
                            Sample.ties_tsv Sample.hundreds_tsv
                            Sample.accents true "2008"))
                  2 "due" "due") as [_ H].
  - lia.
  - vm_compute. left. reflexivity.
  - vm_compute. left. reflexivity.
  - reflexivity.
  - apply (H "otto" "ottavo").
    + vm_compute. left. reflexivity.
    + vm_compute. left. reflexivity.
Defined.

Lemma ws_star_bytes_fuel (n : nat) (m : str) (c : ascii) :
  List.length m <= n -> ws_star m = true -> In c m ->
  is_ws_byte c = true \/ c = "194"%char \/ c = "160"%char.
Proof.
  revert m. induction n as [|n IH]; intros m Hn Hm Hc.
  - destruct m; [destruct Hc | simpl in Hn; lia].
  - destruct m as [|a m]; [destruct Hc|]. simpl in Hn.
    cbn [ws_star] in Hm. destruct (is_ws_byte a) eqn:Ea.
    + destruct Hc as [<-|Hc]; [auto|]. apply (IH m); [lia|exact Hm|exact Hc].
    + destruct m as [|b m]; [discriminate|]. simpl in Hn.
      apply andb_true_iff in Hm as [Hab Hm].
      apply andb_true_iff in Hab as [Ha Hb].
      apply Ascii.eqb_eq in Ha, Hb. subst a b.
      destruct Hc as [<-|[<-|Hc]]; [auto|auto|].
      apply (IH m); [lia|exact Hm|exact Hc].
Qed.

Lemma ws_star_bytes (m : str) (c : ascii) :
  ws_star m = true -> In c m ->
  is_ws_byte c = true \/ c = "194"%char \/ c = "160"%char.
Proof. apply (ws_star_bytes_fuel (List.length m)). lia. Qed.

(** The rule that merges the prefix with "millesimo" keeps a final
    "millesimo". *)
Lemma merge_rule_keeps_end (done rest y : str) :
  Rewrites delete_space any_context (before "millesimo") done rest y ->
  forall u, rest = u ++ "millesimo" -> exists y', y = y' ++ "millesimo".
Proof.
  intros H.
  induction H as [done|done rest o rem y Hs H IH|done c rest y Hs H IH];
    intros u E.
  - symmetry in E. apply app_eq_nil in E as [_ E]. discriminate E.
  - apply in_sites in Hs as [_ [m [Nm [Em [_ Ho]]]]].
    apply in_delete_space in Ho as [Hm ->]. simpl.
    rewrite Em in E. apply app_eq_app in E as [l [[El E]|[El E]]].
    + destruct l as [|a l].
      * simpl in E. apply (IH []). symmetry. exact E.
      * exfalso. simpl in E. injection E as <- _.
        assert (Hin : In "m"%char m)
          by (rewrite El; apply in_or_app; right; left; reflexivity).
        destruct (ws_star_bytes m _ Hm Hin) as [F|[F|F]]; discriminate F.
    + apply (IH l). exact E.
  - destruct u as [|a u].
    + simpl in E. injection E as -> ->.
      apply delete_space_copy in H; [|reflexivity]. subst y.
      exists []. reflexivity.
    + simpl in E. injection E as <- E.
      destruct (IH u E) as [y' ->]. exists (c :: y'). reflexivity.
Qed.

(** X16. [multiples_of_thousand] reads the inputs whose cardinal text is
    "mille" or ends with "mille" behind the cardinal text of a number from
    1 to 999 and a space, and every output ends with "millesimo"; the
    input whose cardinal text is "mille" has the output "millesimo". *)
Theorem multiples_of_thousand_shape
        (cardinal_graph : Fst) (accents : list (str * str)) (x : str) :
  (forall y,
      In y (Ordinal.multiples_of_thousand cardinal_graph accents x) ->
      (exists y', y = y' ++ "millesimo")
      /\ (In (lit "mille") (cardinal_graph x)
          \/ exists c n, In (c ++ " mille") (cardinal_graph x)
                         /\ 1 <= n <= 999
                         /\ In c (cardinal_graph (str_of_nat n))))
  /\ (In (lit "mille") (cardinal_graph x) ->
      In (lit "millesimo")
         (Ordinal.multiples_of_thousand cardinal_graph accents x)).
Proof.
  unfold Ordinal.multiples_of_thousand, optimize,
    Ordinal.graph_thousands_prefix, Ordinal.graph_thousands_merged.
  split.
  - intros y H. apply in_compose in H as [t [Ht H]].
    apply in_union in H as [H|H].
    + apply in_compose in H as [z [Hz H]].
      apply in_graph_thousands_spaced in Hz
        as [c [c' [-> [[n [Hn Hc]] [_ ->]]]]].
      split.
      * apply in_cdrewrite in H.
        apply (merge_rule_keeps_end [] _ y H (c' ++ " ")).
        rewrite <- app_assoc. reflexivity.
      * right. exists c, n. auto.
    + apply in_thousands in H as [-> ->]. split; [exists []; reflexivity|].
      left. exact Ht.
  - intros Hc. apply in_compose. exists (lit "mille"). split; [exact Hc|].
    apply in_union. right. apply in_thousands. auto.
Qed.

Lemma multiples_of_thousand_shape_witness :
  In (lit "millesimo")
     (Ordinal.multiples_of_thousand Sample.cardinal_graph Sample.accents
                                    "1000").
Proof.
  apply (proj2 (multiples_of_thousand_shape
                  Sample.cardinal_graph Sample.accents "1000")).
  vm_compute. left. reflexivity.
Defined.

(** ** The ordinal tagger: the two-word spelling *)

Lemma rmatch_char (rem : str) :
  rmatch (in_context NEMO_CHAR) rem = true <-> rem <> [].
Proof.
  rewrite rmatch_in_context. split.
  - intros [u [v [-> H]]] E. apply app_eq_nil in E as [-> _].
    discriminate H.
  - intros H. destruct rem as [|c rem]; [congruence|].
    exists [c], rem. auto.
Qed.

Lemma split_sites (done rest o rem : str) :
  In (o, rem)
     (sites (cross (accep "decimo") "decimo "
             <|> cross (accep "ventesimo") "ventesimo ")
            any_context (in_context NEMO_CHAR) done rest) <->
  rem <> []
  /\ ((rest = "decimo" ++ rem /\ o = lit "decimo ")
      \/ (rest = "ventesimo" ++ rem /\ o = lit "ventesimo ")).
Proof.
  rewrite in_sites. split.
  - intros [_ [m [_ [-> [Hr Ho]]]]]. apply rmatch_char in Hr.
    split; [exact Hr|].
    apply in_union in Ho as [Ho|Ho]; apply in_cross_lit in Ho as [-> ->]; auto.
  - intros [Hr H]. split; [apply lmatch_any|].
    destruct H as [[-> ->]|[-> ->]].
    + exists (lit "decimo"). split; [discriminate|]. split; [reflexivity|].
      split; [apply rmatch_char; exact Hr|].
      apply in_union. left. apply in_cross_lit. auto.
    + exists (lit "ventesimo"). split; [discriminate|].
      split; [reflexivity|]. split; [apply rmatch_char; exact Hr|].
      apply in_union. right. apply in_cross_lit. auto.
Qed.

Lemma without_spaces_app (a b : str) :
  without_spaces (a ++ b) = without_spaces a ++ without_spaces b.
Proof. apply filter_app. Qed.

Lemma split_keeps_text (done rest y : str) :
  Rewrites (cross (accep "decimo") "decimo "
            <|> cross (accep "ventesimo") "ventesimo ")
           any_context (in_context NEMO_CHAR) done rest y ->
  without_spaces y = without_spaces rest.
Proof.
  intros H.
  induction H as [done|done rest o rem y Hs H IH|done c rest y Hs H IH].
  - reflexivity.
  - apply split_sites in Hs as [_ [[-> ->]|[-> ->]]];
      rewrite !without_spaces_app, IH; reflexivity.
  - unfold without_spaces in *. simpl. rewrite IH. reflexivity.
Qed.

(** X17. The two-word spelling of the non-deterministic mode only adds
    spaces: spaces aside, every output of [split_words] is its input.  A
    text that begins with "decimo" or "ventesimo" and goes on has the
    space put in behind that word; where "decimo" and "ventesimo" occur
    only at the very end of the text, nothing is changed.  In the
    non-deterministic ordinal grammar every such spelling of an assembled
    ordinal is an output, after the elision in front of "ottavo". *)
Theorem split_words_adds_spaces :
  (forall x y,
      In y (Ordinal.split_words x) -> without_spaces y = without_spaces x)
  /\ (forall w r y,
         w = lit "decimo" \/ w = lit "ventesimo" -> r <> [] ->
         (In y (Ordinal.split_words (w ++ r)) <->
          exists y', y = w ++ " " ++ y' /\ In y' (Ordinal.split_words r)))
  /\ (forall x,
         (forall u v, x = u ++ "decimo" ++ v -> v = []) ->
         (forall u v, x = u ++ "ventesimo" ++ v -> v = []) ->
         yields (Ordinal.split_words x) x)
  /\ (forall cardinal_graph digit_tsv teens_tsv twenties_tsv ties_tsv
             hundreds_tsv accents x o y,
         In o (Ordinal.ordinal_assembly cardinal_graph digit_tsv teens_tsv
                 twenties_tsv ties_tsv hundreds_tsv accents false x) ->
         In y (Ordinal.split_words o) ->
         In (drop_o_before_ottavo y)
            (Ordinal.ordinal_graph cardinal_graph digit_tsv teens_tsv
               twenties_tsv ties_tsv hundreds_tsv accents false x)).
Proof.
  split; [|split; [|split]]; unfold Ordinal.split_words.
  - intros x y H. apply in_cdrewrite in H.
    apply (split_keeps_text [] x y H).
  - intros w r y Hw Hr. rewrite in_cdrewrite.
    assert (Hs : In (w ++ " ", r)
                    (sites (cross (accep "decimo") "decimo "
                            <|> cross (accep "ventesimo") "ventesimo ")
                           any_context (in_context NEMO_CHAR) [] (w ++ r))).
    { apply split_sites. split; [exact Hr|].
      destruct Hw as [-> | ->]; auto. }
    split.
    + intros H. apply rewrites_inv in H
        as [[E _]|[[o [rem [y' [Hs' [H ->]]]]]|[c [r' [y' [_ [E _]]]]]]].
      * apply app_eq_nil in E as [_ E]. contradiction.
      * apply split_sites in Hs' as [_ Hs'].
        assert (E : o = w ++ " " /\ rem = r).
        { destruct Hw as [-> | ->]; destruct Hs' as [[E ->]|[E ->]];
            first [ discriminate E
                  | apply app_inv_head in E; subst rem; auto ]. }
        destruct E as [-> ->]. exists y'. rewrite <- app_assoc.
        split; [reflexivity|]. apply in_cdrewrite.
        eapply rewrites_any_left. exact H.
      * rewrite E in Hs. destruct Hs.
    + intros [y' [-> H]]. apply in_cdrewrite in H.
      rewrite app_assoc. eapply rw_site; [exact Hs|].
      eapply rewrites_any_left. exact H.
  - intros x Hd Hv y. rewrite in_cdrewrite. apply rewrites_copy.
    intros u1 u2 E _. apply sites_empty. intros o rem H.
    apply split_sites in H as [Hr [[-> _]|[-> _]]].
    + apply Hr. apply (Hd u1 rem E).
    + apply Hr. apply (Hv u1 rem E).
  - intros cardinal_graph digit_tsv teens_tsv twenties_tsv ties_tsv
           hundreds_tsv accents x o y Ho Hy.
    unfold Ordinal.ordinal_graph, optimize, Ordinal.ordinal_split.
    apply in_compose. exists y. split.
    + apply in_union. right. apply in_compose. exists o. auto.
    + apply (yields_self _ _ (ottavo_elision_spec y)).
Qed.

Lemma split_words_adds_spaces_witness :
  In (lit "decimo primo") (Ordinal.split_words "decimoprimo")
  /\ yields (Ordinal.split_words "decimo") "decimo".
Proof.
  destruct split_words_adds_spaces as [_ [H2 [H3 _]]]. split.
  - apply (H2 "decimo" "primo" "decimo primo");
      [left; reflexivity | discriminate |].
    exists (lit "primo"). split; [reflexivity|].
    vm_compute. left. reflexivity.
  - apply (H3 "decimo").
    + intros u v E. destruct v as [|c v]; [reflexivity|]. exfalso.
      apply (f_equal (@List.length ascii)) in E.
      rewrite !length_app in E. simpl in E. lia.
    + intros u v E. exfalso.
      apply (f_equal (@List.length ascii)) in E.
      rewrite !length_app in E. simpl in E. lia.
Defined.

(** ** The ordinal tagger: markers and modes *)

(** X18. The tagger reads an input exactly when it is a text that the
    ordinal grammar reads, followed by one of the three markers with or
    without a period in front; it writes the ordinal and the feature of
    the marker: [gender_masc], [gender_fem] or [apocope].  An input that
    ends with none of the three markers is not tagged. *)
Theorem ordinal_tagger_markers
        (cardinal_graph : Fst)
        (digit_tsv teens_tsv twenties_tsv ties_tsv hundreds_tsv
           accents : list (str * str))
        (deterministic : bool) (x : str) :
  (forall t,
      In t (Ordinal.graph cardinal_graph digit_tsv teens_tsv twenties_tsv
              ties_tsv hundreds_tsv accents deterministic x) <->
      exists n sign f o,
        (x = n ++ sign \/ x = n ++ "." ++ sign)
        /\ ((sign = Ordinal.ordinal_masc_sign /\ f = Ordinal.masc)
            \/ (sign = Ordinal.ordinal_fem_sign /\ f = Ordinal.fem)
            \/ (sign = Ordinal.ordinal_apocope_sign /\ f = Ordinal.apocope))
        /\ In o (Ordinal.ordinal_graph cardinal_graph digit_tsv teens_tsv
                   twenties_tsv ties_tsv hundreds_tsv accents deterministic n)
        /\ t = ordinal_token o f)
  /\ ((forall n, x <> n ++ Ordinal.ordinal_masc_sign) ->
      (forall n, x <> n ++ Ordinal.ordinal_fem_sign) ->
      (forall n, x <> n ++ Ordinal.ordinal_apocope_sign) ->
      Ordinal.graph cardinal_graph digit_tsv teens_tsv twenties_tsv
                    ties_tsv hundreds_tsv accents deterministic x = []).
Proof.
  assert (Hin : forall t,
      In t (Ordinal.graph cardinal_graph digit_tsv teens_tsv twenties_tsv
              ties_tsv hundreds_tsv accents deterministic x) <->
      exists n sign f o,
        (x = n ++ sign \/ x = n ++ "." ++ sign)
        /\ ((sign = Ordinal.ordinal_masc_sign /\ f = Ordinal.masc)
            \/ (sign = Ordinal.ordinal_fem_sign /\ f = Ordinal.fem)
            \/ (sign = Ordinal.ordinal_apocope_sign /\ f = Ordinal.apocope))
        /\ In o (Ordinal.ordinal_graph cardinal_graph digit_tsv teens_tsv
                   twenties_tsv ties_tsv hundreds_tsv accents deterministic n)
        /\ t = ordinal_token o f).
  { intros t.
    rewrite (in_ordinal_graph_tagged cardinal_graph digit_tsv teens_tsv
               twenties_tsv ties_tsv hundreds_tsv accents deterministic x t).
    split.
    - intros [n [a [o [f [-> [Ho [Hf ->]]]]]]].
      apply in_convert_abbreviation in Hf as [sign [Ha Hs]].
      exists n, sign, f, o. split; [|auto].
      destruct Ha as [-> | ->]; auto.
    - intros [n [sign [f [o [Hx [Hs [Ho ->]]]]]]].
      destruct Hx as [-> | ->].
      + exists n, sign, o, f. split; [reflexivity|]. split; [exact Ho|].
        split; [|reflexivity]. apply in_convert_abbreviation.
        exists sign. auto.
      + exists n, ("." ++ sign), o, f. split; [reflexivity|].
        split; [exact Ho|]. split; [|reflexivity].
        apply in_convert_abbreviation. exists sign. auto. }
  split; [exact Hin|].
  intros Hm Hf Ha. apply no_output_nil. intros t Ht.
  apply Hin in Ht as [n [sign [f [o [Hx [Hs _]]]]]].
  assert (E : exists n', x = n' ++ sign).
  { destruct Hx as [-> | ->]; [eauto|].
    exists (n ++ "."). rewrite <- app_assoc. reflexivity. }
  destruct E as [n' E].
  destruct Hs as [[-> _]|[[-> _]|[-> _]]].
  - exact (Hm n' E).
  - exact (Hf n' E).
  - exact (Ha n' E).
Qed.

Lemma ordinal_tagger_markers_witness :
  Sample.graph "21" = [].
Proof.
  apply (proj2 (ordinal_tagger_markers
                  Sample.cardinal_graph Sample.digit_tsv Sample.teens_tsv
                  Sample.twenties_tsv Sample.ties_tsv Sample.hundreds_tsv
                  Sample.accents true "21"));
    intros n E;
    change (lit "21") with ("2" ++ ["1"%char]) in E;
    [ change Ordinal.ordinal_masc_sign
        with (["194"%char] ++ ["186"%char]) in E
    | change Ordinal.ordinal_fem_sign
        with (["194"%char] ++ ["170"%char]) in E
    | change Ordinal.ordinal_apocope_sign
        with (["225"; "181"; "137"; "202"]%char ++ ["179"%char]) in E ];
    rewrite app_assoc in E; apply app_inj_tail in E as [_ E];
    discriminate E.
Defined.

(** X19. The tagged output of the deterministic mode is a tagged output of
    the non-deterministic mode; and an input no prefix of which the
    cardinal grammar reads is not tagged, in either mode. *)
Theorem ordinal_tagger_modes
        (cardinal_graph : Fst)
        (digit_tsv teens_tsv twenties_tsv ties_tsv hundreds_tsv
           accents : list (str * str))
        (x : str) :
  (forall t,
      In t (Ordinal.graph cardinal_graph digit_tsv teens_tsv twenties_tsv
              ties_tsv hundreds_tsv accents true x) ->
      In t (Ordinal.graph cardinal_graph digit_tsv teens_tsv twenties_tsv
              ties_tsv hundreds_tsv accents false x))
  /\ ((forall n a, x = n ++ a -> cardinal_graph n = []) ->
      forall deterministic,
        Ordinal.graph cardinal_graph digit_tsv teens_tsv twenties_tsv
                      ties_tsv hundreds_tsv accents deterministic x = []).
Proof.
  split.
  - intros t H.
    apply (in_ordinal_graph_tagged cardinal_graph digit_tsv teens_tsv
             twenties_tsv ties_tsv hundreds_tsv accents true x t)
      in H as [n [a [o [f [-> [Ho [Hf ->]]]]]]].
    apply (in_ordinal_graph_tagged cardinal_graph digit_tsv teens_tsv
             twenties_tsv ties_tsv hundreds_tsv accents false (n ++ a)).
    exists n, a, o, f. split; [reflexivity|]. split; [|auto].
    apply ordinal_graph_modes. exact Ho.
  - intros Hc deterministic. apply no_output_nil. intros t H.
    apply (in_ordinal_graph_tagged cardinal_graph digit_tsv teens_tsv
             twenties_tsv ties_tsv hundreds_tsv accents deterministic x t)
      in H as [n [a [o [f [E [Ho _]]]]]].
    rewrite (ordinal_graph_needs_cardinal cardinal_graph digit_tsv teens_tsv
               twenties_tsv ties_tsv hundreds_tsv accents deterministic n
               (Hc n a E)) in Ho.
    destruct Ho.
Qed.

Lemma ordinal_tagger_modes_witness :
  In (ordinal_token "ventunesimo" "gender_masc")
     (Ordinal.graph Sample.cardinal_graph Sample.digit_tsv Sample.teens_tsv
        Sample.twenties_tsv Sample.ties_tsv Sample.hundreds_tsv
        Sample.accents false ("21" ++ Ordinal.ordinal_masc_sign)).
Proof.
  apply (proj1 (ordinal_tagger_modes
                  Sample.cardinal_graph Sample.digit_tsv Sample.teens_tsv
                  Sample.twenties_tsv Sample.ties_tsv Sample.hundreds_tsv
                  Sample.accents ("21" ++ Ordinal.ordinal_masc_sign))).
  vm_compute. left. reflexivity.
Defined.

(** ** The fraction verbalizer: feature tags *)

Section UnknownTag.

Variable accents : list (str * str).
Variable apocope_rule : Fst.
Variable gender_rule : Fst.
Variables n d tag : str.
Hypothesis n_not_quote : forallb NEMO_NOT_QUOTE n = true.
Hypothesis d_not_quote : forallb NEMO_NOT_QUOTE d = true.
Hypothesis tag_not_quote' : forallb NEMO_NOT_QUOTE tag = true.
Hypothesis tag_unknown : tag <> lit "add_root" /\ tag <> lit "ordinal".

Let token := fraction_token n d tag.

Lemma known_tag_differs (tag' : str) :
  tag' = lit "add_root" \/ tag' = lit "ordinal" -> tag' <> tag.
Proof. destruct tag_unknown. intros [-> | ->]; congruence. Qed.

Lemma unknown_tag_with_one_plain (z : str) :
  ~ In z (Fraction.fraction_with_one_plain accents token).
Proof.
  rewrite in_fraction_with_one_plain.
  intros [w [d' [tag' [y [Ht [Hw [E [Qd _]]]]]]]].
  unfold token in E. symmetry in E. flat_in E. injection E as E.
  apply (token_tail_inv n "un") in E as [_ [-> E']];
    [|exact n_not_quote|reflexivity|exact Hw|reflexivity].
  injection E' as E'.
  apply first_quote_unique in E' as [_ E']; [|exact Qd|exact d_not_quote].
  injection E' as E'.
  apply (first_quote_unique tag' tag) in E' as [E' _];
    [|apply tag_not_quote; exact Ht|exact tag_not_quote'].
  exact (known_tag_differs tag' Ht E').
Qed.

Lemma unknown_tag_fem_branch (z : str) :
  ~ In z (Fraction.fraction_with_one_fem_branch token).
Proof.
  rewrite in_fraction_with_one_fem_branch.
  intros [w [tag' [Ht [Hw [E _]]]]].
  unfold token in E. symmetry in E. flat_in E. injection E as E.
  apply (token_tail_inv n "un") in E as [_ [-> E']];
    [|exact n_not_quote|reflexivity|exact Hw|reflexivity].
  injection E' as E'.
  apply (first_quote_unique "mezzo" d) in E' as [_ E'];
    [|reflexivity|exact d_not_quote].
  injection E' as E'.
  apply (first_quote_unique tag' tag) in E' as [E' _];
    [|apply tag_not_quote; exact Ht|exact tag_not_quote'].
  exact (known_tag_differs tag' Ht E').
Qed.

Lemma unknown_tag_default (z : str) :
  ~ In z (Fraction.fraction_default accents token).
Proof.
  rewrite in_fraction_default.
  intros [n' [w [d' [tag' [y [Ht [Hw [E [Qn [_ [Qd _]]]]]]]]]]].
  unfold token in E. symmetry in E. flat_in E. injection E as E.
  apply token_tail_inv in E as [_ [-> E']];
    [|exact n_not_quote|exact Qn|exact Hw|reflexivity].
  injection E' as E'.
  apply first_quote_unique in E' as [_ E']; [|exact Qd|exact d_not_quote].
  injection E' as E'.
  apply (first_quote_unique tag' tag) in E' as [E' _];
    [|apply tag_not_quote; exact Ht|exact tag_not_quote'].
  exact (known_tag_differs tag' Ht E').
Qed.

Lemma unknown_tag_graph (z : str) :
  ~ In z (Fraction.graph accents apocope_rule gender_rule token).
Proof.
  unfold Fraction.graph. rewrite in_union.
  unfold token, fraction_token.
  rewrite graph_masc_on_numerator, graph_fem_on_numerator.
  fold (fraction_token n d tag). fold token.
  unfold Fraction.fraction, Fraction.fraction_fem,
    Fraction.fraction_with_one_fem, Fraction.fraction_default_fem,
    Fraction.fraction_with_one.
  rewrite !in_union, !in_compose.
  intros [[[m [H _]]|[H|H]]|[[[m [H _]]|H]|[[H|H]|H]]].
  - exact (unknown_tag_with_one_plain m H).
  - exact (unknown_tag_default z H).
  - exact (token_with_cardinal_empty apocope_rule n d tag n_not_quote
                                     d_not_quote z H).
  - exact (unknown_tag_with_one_plain m H).
  - exact (unknown_tag_fem_branch z H).
  - exact (unknown_tag_default z H).
  - exact (fraction_default_fem_branch_empty gender_rule _ z H).
  - exact (token_with_cardinal_empty apocope_rule n d tag n_not_quote
                                     d_not_quote z H).
Qed.

End UnknownTag.

(** X20. A fraction token whose denominator carries a feature tag other
    than [add_root] and [ordinal] has no output: the tagged branches read
    these two tags only, and the cardinal branch reads no tag at all. *)
Theorem fraction_unknown_feature_no_path
        (accents : list (str * str)) (apocope_rule gender_rule : Fst)
        (n d tag : str) :
  forallb NEMO_NOT_QUOTE n = true ->
  forallb NEMO_NOT_QUOTE d = true ->
  forallb NEMO_NOT_QUOTE tag = true ->
  tag <> lit "add_root" -> tag <> lit "ordinal" ->
  Fraction.graph accents apocope_rule gender_rule (fraction_token n d tag)
  = [].
Proof.
  intros Qn Qd Qt H1 H2. apply no_output_nil. intros z.
  apply (unknown_tag_graph accents apocope_rule gender_rule n d tag
                           Qn Qd Qt (conj H1 H2) z).
Qed.

Lemma fraction_unknown_feature_no_path_witness :
  Fraction.graph Sample.accents Apocope.rule Gender.rule
                 (fraction_token "un" "terzo" "plural")
  = [].
Proof.
  apply (fraction_unknown_feature_no_path
           Sample.accents Apocope.rule Gender.rule "un" "terzo" "plural"
           eq_refl eq_refl eq_refl);
    discriminate.
Defined.

